(** * Strassen matrix multiplication (strassen-algo/matrix-mult.c)

    A shallow embedding of the overflow-checked Strassen multiplier:
    [check_overflow], [copy_elems_to_quad], [add], [sub],
    [strassen_matrix_multiply], the two input functions
    [generate_random] and [read_from_file], and [main] apart from its
    option parsing: the clearing loops, the [-n] bound, the loop that
    prints the result and the standard multiplication loop.

    Modelling conventions.
    - [int] is a 32-bit two's complement integer, held in [Z]; every
      [+], [-], [*] and unary [-] of the source on [int] values is
      followed by [wrap].  A division by zero and the quotient
      [INT_MIN / -1] are undefined: the program traps there.
    - Array subscripts are computed exactly and then checked against
      [0, NUM_ELEMS).  Subscripts in the source are an [int] offset plus a
      non-negative counter, so a sum that leaves the [int] range is also
      outside the array.
    - A [struct matrix] that is declared without initialiser has no
      defined cell and no defined offset.  Copying an indeterminate cell
      is allowed, and the copy is indeterminate again; using an
      indeterminate value as an operand, in a subscript or in [printf]
      is [Undefined Indeterminate].
    - [exit(EXIT_FAILURE)] after a diagnostic is the outcome [Exit].
    - Recursion of [strassen_matrix_multiply] is on [n/2], which does not
      decrease at [n = 0]; the embedding takes fuel.
    - The library is not modelled.  [generate_random] takes the values
      [rand] returns, call by call; [read_from_file] takes, for each
      file, the values [atoi] returns on the tokens of each line.
    - Of the output, the values printed by the two result loops of
      [main] are kept; the echo of the inputs is left out. *)

From stdpp Require Import base numbers option list sorting gmap.

Local Open Scope Z_scope.

(** ** Machine integers *)

Definition INT_MIN : Z := -2147483648.
Definition INT_MAX : Z := 2147483647.

Definition representable (x : Z) : Prop := INT_MIN ≤ x ≤ INT_MAX.

Definition wrap (x : Z) : Z := (x + 2147483648) `mod` 4294967296 - 2147483648.

Definition int_add (a b : Z) : Z := wrap (a + b).
Definition int_sub (a b : Z) : Z := wrap (a - b).
Definition int_mul (a b : Z) : Z := wrap (a * b).
Definition int_neg (a : Z) : Z := wrap (- a).
Infix "+i" := int_add (at level 50, left associativity).
Infix "-i" := int_sub (at level 50, left associativity).
Infix "*i" := int_mul (at level 40, left associativity).

(** ** Outcomes of a run *)

(** The diagnostics after which the program calls [exit(EXIT_FAILURE)]. *)
Inductive fault : Type :=
  | AdditionOverflow (a b : Z)
  | MultiplicationOverflow (a b : Z)
  | DimensionTooLarge
  | DimensionRestricted.

Definition is_overflow (f : fault) : Prop :=
  match f with
  | AdditionOverflow _ _ | MultiplicationOverflow _ _ => True
  | DimensionTooLarge | DimensionRestricted => False
  end.

Inductive undefined : Type :=
  | OutOfBounds
  | Indeterminate
  | DivisionByZero
  | DivisionOverflow.

Inductive outcome (A : Type) : Type :=
  | Done (x : A)
  | Exit (f : fault)
  | Undefined (u : undefined)
  | OutOfFuel.

Arguments Done {A} x.
Arguments Exit {A} f.
Arguments Undefined {A} u.
Arguments OutOfFuel {A}.

#[global] Instance outcome_ret : MRet outcome := λ A x, Done x.
#[global] Instance outcome_bind : MBind outcome := λ A B f o,
  match o with
  | Done x => f x
  | Exit e => Exit e
  | Undefined u => Undefined u
  | OutOfFuel => OutOfFuel
  end.

(** C division truncates towards zero.  A zero divisor is undefined, and
    so is [INT_MIN / -1], the one quotient of two [int] values that is
    not an [int]. *)
Definition int_div (a b : Z) : outcome Z :=
  if b =? 0 then Undefined DivisionByZero
  else if (a =? INT_MIN) && (b =? -1) then Undefined DivisionOverflow
  else Done (a `quot` b).

Infix "/i" := int_div (at level 40, left associativity).

(** [for (r = lo; r < hi; r++) body], threading the state the body
    updates. *)
Fixpoint foldM {X S : Type} (body : X → S → outcome S) (xs : list X) (s : S)
  : outcome S :=
  match xs with
  | [] => Done s
  | x :: xs' => s' ← body x s; foldM body xs' s'
  end.

Definition for_ {S : Type} (lo hi : Z) (body : Z → S → outcome S) (s : S)
  : outcome S :=
  foldM body (seqZ lo (hi - lo)) s.

(** ** struct matrix *)

Definition NUM_ELEMS : Z := 16.

Record matrix : Type := Matrix {
  m : gmap (Z * Z) Z;
  i : option Z;
  j : option Z
}.

(** [struct matrix x;] with no initialiser. *)
Definition uninitialised : matrix := {| m := ∅; i := None; j := None |}.

Definition set_m (g : gmap (Z * Z) Z) (x : matrix) : matrix :=
  {| m := g; i := x.(i); j := x.(j) |}.

Definition in_bounds (r c : Z) : bool :=
  (0 <=? r) && (r <? NUM_ELEMS) && (0 <=? c) && (c <? NUM_ELEMS).

Definition subscript (r c : Z) : outcome (Z * Z) :=
  if in_bounds r c then Done (r, c) else Undefined OutOfBounds.

(** Use of a value that may be indeterminate. *)
Definition use (o : option Z) : outcome Z :=
  match o with
  | Some x => Done x
  | None => Undefined Indeterminate
  end.

(** The rvalue [g[r][c]]. *)
Definition load (g : gmap (Z * Z) Z) (r c : Z) : outcome Z :=
  k ← subscript r c; use (g !! k).

(** The assignment [g[r][c] = v]. *)
Definition store (g : gmap (Z * Z) Z) (r c v : Z) : outcome (gmap (Z * Z) Z) :=
  k ← subscript r c; Done (<[k := v]> g).

(** The rvalue [x.m[x.i + r][x.j + c]]. *)
Definition cell (x : matrix) (r c : Z) : outcome Z :=
  xi ← use x.(i); xj ← use x.(j); load x.(m) (xi + r) (xj + c).

(** The assignment [x.m[x.i + r][x.j + c] = v]. *)
Definition assign (x : matrix) (r c v : Z) : outcome matrix :=
  xi ← use x.(i); xj ← use x.(j);
  g ← store x.(m) (xi + r) (xj + c) v;
  Done (set_m g x).

(** ** check_overflow *)

(** [if (x != 0 && (s / x != y)) { printf(...); exit(EXIT_FAILURE); }]: the
    division is evaluated only for a nonzero [x]. *)
Definition round_trip (s x y : Z) (e : fault) : outcome unit :=
  if x =? 0 then Done ()
  else q ← s /i x; if q =? y then Done () else Exit e.

Definition check_overflow (a b : Z) (add mult : bool) : outcome unit :=
  (if add then
     let s := a +i b in
     if (0 <? a) && (0 <? b) && (s <? 0) then Exit (AdditionOverflow a b)
     else if (a <? 0) && (b <? 0) && (0 <? s) then Exit (AdditionOverflow a b)
     else Done ()
   else Done ());;
  (if mult then
     let s := a *i b in
     round_trip s a b (MultiplicationOverflow a b);;
     round_trip s b a (MultiplicationOverflow a b)
   else Done ()).

(** ** copy_elems_to_quad *)

(** [m1->m[m1->i + r][m1->j + c] = m2->m[m1->i + r][m1->j + c]]: the cell
    is copied whether or not it holds a determinate value. *)
Definition copy_elem (m2 : matrix) (r c : Z) (m1 : matrix) : outcome matrix :=
  xi ← use m1.(i); xj ← use m1.(j);
  k ← subscript (xi + r) (xj + c);
  Done (set_m (partial_alter (λ _, m2.(m) !! k) k m1.(m)) m1).

Definition copy_elems_to_quad (m1 m2 : matrix) (num_elems : Z) : outcome matrix :=
  for_ 0 num_elems (λ r, for_ 0 num_elems (λ c, copy_elem m2 r c)) m1.

(** ** add and sub *)

Definition add (a b : matrix) (n : Z) : outcome matrix :=
  for_ 0 n (λ r, for_ 0 n (λ c x,
    p ← cell a r c; q ← cell b r c;
    check_overflow p q true false;;
    p ← cell a r c; q ← cell b r c;
    assign x r c (p +i q)))
  {| m := ∅; i := a.(i); j := a.(j) |}.

Definition sub (a b : matrix) (n : Z) : outcome matrix :=
  for_ 0 n (λ r, for_ 0 n (λ c x,
    p ← cell a r c; q ← cell b r c;
    check_overflow p (int_neg q) true false;;
    p ← cell a r c; q ← cell b r c;
    assign x r c (p -i q)))
  {| m := ∅; i := a.(i); j := a.(j) |}.

(** ** strassen_matrix_multiply *)

(** Expressions over cells: operands are read left to right. *)
Definition lift2 (f : Z → Z → Z) (e1 e2 : outcome Z) : outcome Z :=
  x ← e1; y ← e2; Done (f x y).

Definition neg (e : outcome Z) : outcome Z := x ← e; Done (int_neg x).

Definition check (e1 e2 : outcome Z) (add mult : bool) : outcome unit :=
  x ← e1; y ← e2; check_overflow x y add mult.

Declare Scope cexpr_scope.
Delimit Scope cexpr_scope with cexpr.
Infix "+" := (lift2 int_add) : cexpr_scope.
Infix "-" := (lift2 int_sub) : cexpr_scope.
Infix "*" := (lift2 int_mul) : cexpr_scope.

(** The body of [if (n == 2)], first part: the overflow checks on the
    operands of m1..m7, then the seven products. *)
Definition strassen_2x2_products (a b : matrix)
  : outcome (Z * Z * Z * Z * Z * Z * Z) :=
  let A r c := cell a r c in
  let B r c := cell b r c in
  (* m1 *)
  check (A 0 0) (A 1 1) true false;;
  check (B 0 0) (B 1 1) true false;;
  check (A 0 0 + A 1 1)%cexpr (B 0 0 + B 1 1)%cexpr false true;;
  (* m2 *)
  check (A 1 0) (A 1 1) true false;;
  check (A 1 0 + A 1 1)%cexpr (B 0 0) false true;;
  (* m3 *)
  check (B 0 1) (neg (B 1 1)) true false;;
  check (A 0 0) (B 0 1 - B 1 1)%cexpr false true;;
  (* m4 *)
  check (B 1 0) (neg (B 0 0)) true false;;
  check (A 1 1) (B 1 0 - B 0 0)%cexpr false true;;
  (* m5 *)
  check (A 0 0) (A 0 1) true false;;
  check (A 0 0 + A 0 1)%cexpr (B 1 1) false true;;
  (* m6 *)
  check (A 1 0) (neg (A 0 0)) true false;;
  check (B 0 0) (B 0 1) true false;;
  check (A 1 0 - A 0 0)%cexpr (B 0 0 + B 0 1)%cexpr false true;;
  (* m7 *)
  check (A 0 1) (neg (A 1 1)) true false;;
  check (B 1 0) (B 1 1) true false;;
  check (A 0 1 - A 1 1)%cexpr (B 1 0 + B 1 1)%cexpr false true;;
  m1 ← ((A 0 0 + A 1 1) * (B 0 0 + B 1 1))%cexpr;
  m2 ← ((A 1 0 + A 1 1) * B 0 0)%cexpr;
  m3 ← (A 0 0 * (B 0 1 - B 1 1))%cexpr;
  m4 ← (A 1 1 * (B 1 0 - B 0 0))%cexpr;
  m5 ← ((A 0 0 + A 0 1) * B 1 1)%cexpr;
  m6 ← ((A 1 0 - A 0 0) * (B 0 0 + B 0 1))%cexpr;
  m7 ← ((A 0 1 - A 1 1) * (B 1 0 + B 1 1))%cexpr;
  Done (m1, m2, m3, m4, m5, m6, m7).

(** Second part: [c.i = a.i; c.j = a.j;], the checks on the sums, and
    the four cells of [c]. *)
Definition strassen_2x2_assemble (a : matrix) (ms : Z * Z * Z * Z * Z * Z * Z)
  : outcome matrix :=
  let '(m1, m2, m3, m4, m5, m6, m7) := ms in
  let c := {| m := ∅; i := a.(i); j := a.(j) |} in
  check_overflow m1 m4 true false;;
  check_overflow (m1 +i m4) (int_neg m5) true false;;
  check_overflow (m1 +i m4 -i m5) m7 true false;;
  check_overflow m3 m5 true false;;
  check_overflow m2 m4 true false;;
  check_overflow m1 (int_neg m2) true false;;
  check_overflow (m1 -i m2) m3 true false;;
  check_overflow (m1 -i m2 +i m3) m6 true false;;
  c ← assign c 0 0 (m1 +i m4 -i m5 +i m7);
  c ← assign c 0 1 (m3 +i m5);
  c ← assign c 1 0 (m2 +i m4);
  c ← assign c 1 1 (m1 -i m2 +i m3 +i m6);
  Done c.

Definition strassen_2x2 (a b : matrix) : outcome matrix :=
  ms ← strassen_2x2_products a b; strassen_2x2_assemble a ms.

(** [Q.i = oi; Q.j = oj; copy_elems_to_quad(&Q, &a, h);] for a freshly
    declared [Q]. *)
Definition quadrant (a : matrix) (oi oj : option Z) (h : Z) : outcome matrix :=
  copy_elems_to_quad {| m := ∅; i := oi; j := oj |} a h.

(** [x + (n/2)] on an offset that may be indeterminate. *)
Definition shifted (o : option Z) (h : Z) : option Z := (λ x, x +i h) <$> o.

(** [res.m[r][c] = Q.m[Q.i + i][Q.j + j]] with [i = r - lo] and
    [j = c - lo']: like [copy_elem], the assignment copies the cell
    whether or not it holds a determinate value. *)
Definition place_elem (Q : matrix) (lo lo' : Z) (r c : Z) (res : matrix)
  : outcome matrix :=
  qi ← use Q.(i); qj ← use Q.(j);
  k ← subscript (qi + (r - lo)) (qj + (c - lo'));
  k' ← subscript r c;
  Done (set_m (partial_alter (λ _, Q.(m) !! k) k' res.(m)) res).

(** [for (r = lo, i = 0; r < hi; r++, i++) for (c = lo', j = 0; c < hi'; c++, j++)
      res.m[r][c] = Q.m[Q.i + i][Q.j + j];]
    The counters [i] and [j] run in step with [r] and [c]. *)
Definition place (Q : matrix) (lo hi lo' hi' : Z) (res : matrix) : outcome matrix :=
  for_ lo hi (λ r, for_ lo' hi' (λ c, place_elem Q lo lo' r c)) res.

(** The four loops between [Q4 = ...] and [return res], on the [res]
    declared at the top of the function. *)
Definition assemble (Q1 Q2 Q3 Q4 : matrix) (n : Z) (res : matrix)
  : outcome matrix :=
  let h := n `quot` 2 in
  res ← place Q1 0 h 0 h res;
  res ← place Q2 0 h h n res;
  res ← place Q3 h n 0 h res;
  res ← place Q4 h n h n res;
  Done res.

(** The code after [if (n == 2) { ... }]; [multiply] stands for the
    recursive calls.  Arguments of a call are evaluated left to right. *)
Definition strassen_recursive
    (multiply : matrix → matrix → Z → outcome matrix) (a b : matrix) (n : Z)
  : outcome matrix :=
  let h := n `quot` 2 in
  A00 ← quadrant a a.(i) a.(j) h;
  A01 ← quadrant a a.(i) (shifted a.(j) h) h;
  A10 ← quadrant a (shifted a.(i) h) a.(j) h;
  A11 ← quadrant a (shifted a.(i) h) (shifted a.(j) h) h;
  B00 ← quadrant b b.(i) b.(j) h;
  B01 ← quadrant b b.(i) (shifted b.(j) h) h;
  B10 ← quadrant b (shifted b.(i) h) b.(j) h;
  B11 ← quadrant b (shifted b.(i) h) (shifted b.(j) h) h;
  M1 ← (x ← add A00 A11 h; y ← add B00 B11 h; multiply x y h);
  M2 ← (x ← add A10 A11 h; multiply x B00 h);
  M3 ← (y ← sub B01 B11 h; multiply A00 y h);
  M4 ← (y ← sub B10 B00 h; multiply A11 y h);
  M5 ← (x ← add A00 A01 h; multiply x B11 h);
  M6 ← (x ← sub A10 A00 h; y ← add B00 B01 h; multiply x y h);
  M7 ← (x ← sub A01 A11 h; y ← add B10 B11 h; multiply x y h);
  Q1 ← (x ← add M1 M4 h; y ← sub x M5 h; add y M7 h);
  Q2 ← add M3 M5 h;
  Q3 ← add M2 M4 h;
  Q4 ← (x ← sub M1 M2 h; y ← add x M3 h; add y M6 h);
  assemble Q1 Q2 Q3 Q4 n uninitialised.

Fixpoint strassen_matrix_multiply (fuel : nat) (a b : matrix) (n : Z)
  : outcome matrix :=
  match fuel with
  | O => OutOfFuel
  | S fuel =>
    if n =? 2 then strassen_2x2 a b
    else strassen_recursive (strassen_matrix_multiply fuel) a b n
  end.

(** ** main: the [-n] option and the standard multiplication *)

(** [case 'n']: [if (n > NUM_ELEMS) exit; if (n > 16) exit;]. *)
Definition main_option_n (n : Z) : outcome unit :=
  if NUM_ELEMS <? n then Exit DimensionTooLarge
  else if 16 <? n then Exit DimensionRestricted
  else Done ().

(** [m3.m[r][c] += m1.m[r][k] * m2.m[k][c];] *)
Definition accumulate (m1 m2 : matrix) (r c k : Z) (m3 : matrix)
  : outcome matrix :=
  acc ← load m3.(m) r c;
  p ← load m1.(m) r k;
  q ← load m2.(m) k c;
  g ← store m3.(m) r c (acc +i p *i q);
  Done (set_m g m3).

(** The loop that prints "Result with standard multiplication":
    [m3.m[i][j] = 0; for k: m3.m[i][j] += m1.m[i][k] * m2.m[k][j];]
    The spec calls it [multiply_naive]. *)
Definition multiply_naive (m1 m2 m3 : matrix) (n : Z) : outcome matrix :=
  for_ 0 n (λ r, for_ 0 n (λ c m3,
    g ← store m3.(m) r c 0;
    for_ 0 n (accumulate m1 m2 r c) (set_m g m3))) m3.

(** [main] from the point where the options are parsed and the two
    inputs are populated: [m3 = strassen_matrix_multiply(m1, m2, n)]. *)
Definition main_multiply (fuel : nat) (m1 m2 : matrix) (n : Z) : outcome matrix :=
  main_option_n n;; strassen_matrix_multiply fuel m1 m2 n.

(** ** Views and their cells *)

(** The cells of the [n]-by-[n] view of a matrix, row by row. *)
Definition view (x : matrix) (n : Z) : list (list (outcome Z)) :=
  (λ r, (λ c, cell x r c) <$> seqZ 0 n) <$> seqZ 0 n.

Definition block (g : gmap (Z * Z) Z) (n : Z) : list (list (option Z)) :=
  (λ r, (λ c, g !! (r, c)) <$> seqZ 0 n) <$> seqZ 0 n.

(** The value at row [r], column [c] of the view [x], when the offsets
    are determinate, the subscripts are inside the array and the cell is
    determinate. *)
Definition elem (x : matrix) (r c : Z) : option Z :=
  xi ← x.(i); xj ← x.(j);
  if in_bounds (xi + r) (xj + c) then x.(m) !! (xi + r, xj + c) else None.

(** The order in which the nested loops [for r: for c:] over
    [lo, hi) x [lo', hi') visit the cells. *)
Definition traversal (lo hi lo' hi' : Z) : list (Z * Z) :=
  r ← seqZ lo (hi - lo); c ← seqZ lo' (hi' - lo'); [(r, c)].

(** Row-major order: an earlier row, or the same row and an earlier
    column. *)
Definition before (k1 k2 : Z * Z) : Prop :=
  k1.1 < k2.1 ∨ (k1.1 = k2.1 ∧ k1.2 < k2.2).

(** The body shared by the loops of [add] and [sub]: check, then
    combine and assign. *)
Definition cellwise_step (chk : Z → Z → outcome unit) (f : Z → Z → Z)
    (a b : matrix) (r c : Z) (x : matrix) : outcome matrix :=
  p ← cell a r c; q ← cell b r c;
  chk p q;;
  p ← cell a r c; q ← cell b r c;
  assign x r c (f p q).

(** The result [x] so far holds the combination [f] of the operands'
    cells at [rc]. *)
Definition holds (f : Z → Z → Z) (a b x : matrix) (rc : Z * Z) : Prop :=
  ∃ p q, elem a rc.1 rc.2 = Some p ∧ elem b rc.1 rc.2 = Some q ∧
         elem x rc.1 rc.2 = Some (f p q).

(** Cell [rc] of the operands passes the check [chk]. *)
Definition passes (chk : Z → Z → outcome unit) (a b : matrix) (rc : Z * Z)
  : Prop :=
  ∃ p q, elem a rc.1 rc.2 = Some p ∧ elem b rc.1 rc.2 = Some q ∧
         chk p q = Done ().

(** Cell [rc] of the operands makes the check [chk] exit with [e]. *)
Definition offends (chk : Z → Z → outcome unit) (a b : matrix) (rc : Z * Z)
    (e : fault) : Prop :=
  ∃ p q, elem a rc.1 rc.2 = Some p ∧ elem b rc.1 rc.2 = Some q ∧
         chk p q = Exit e.

(** What [add] and [sub] do on [n]-by-[n] views, for the check [chk] and
    the combination [f]: either every cell passes and the result holds
    the combined cells at the first operand's offsets, or the run exits
    at the first cell of the traversal that offends (every cell before
    it, in row-major order, passes), whatever the operands hold after
    that cell. *)
Definition elementwise (op : matrix → matrix → Z → outcome matrix)
    (chk : Z → Z → outcome unit) (f : Z → Z → Z) (a b : matrix) (n : Z)
  : Prop :=
  (∃ x, op a b n = Done x ∧ x.(i) = a.(i) ∧ x.(j) = a.(j) ∧
     ∀ r c, 0 ≤ r < n → 0 ≤ c < n →
       ∃ p q, elem a r c = Some p ∧ elem b r c = Some q ∧
              chk p q = Done () ∧ elem x r c = Some (f p q))
  ∨
  (∃ pre rc post e,
     traversal 0 n 0 n = pre ++ rc :: post ∧
     (∀ k, k ∈ pre → before k rc) ∧
     Forall (passes chk a b) pre ∧ offends chk a b rc e ∧
     op a b n = Exit e ∧
     ∀ a' b',
       (∀ k, k ∈ pre ++ [rc] →
          elem a' k.1 k.2 = elem a k.1 k.2 ∧ elem b' k.1 k.2 = elem b k.1 k.2) →
       op a' b' n = Exit e).

(** One term of a dot product, over the mathematical integers; a cell
    that is not determinate counts as 0. *)
Definition dot_step (g1 g2 : gmap (Z * Z) Z) (r c : Z) (acc k : Z) : Z :=
  acc + default 0 (g1 !! (r, k)) * default 0 (g2 !! (k, c)).

(** The exact dot product of row [r] of [g1] and column [c] of [g2],
    accumulated in the order of the [k] loop. *)
Definition dot (g1 g2 : gmap (Z * Z) Z) (r c n : Z) : Z :=
  foldl (dot_step g1 g2 r c) 0 (seqZ 0 n).

(** Every diagnostic with which [o] can exit satisfies [P]. *)
Definition exits_only {A} (P : fault → Prop) (o : outcome A) : Prop :=
  ∀ f, o = Exit f → P f.

(** The value at row [r], column [c] of the view [x]; 0 where [elem] has
    none. *)
Definition val (x : matrix) (r c : Z) : Z := default 0 (elem x r c).

(** Every cell of the [n]-by-[n] view of [x] is determinate, inside the
    array, and at most [B] in absolute value. *)
Definition bounded_view (x : matrix) (n B : Z) : Prop :=
  ∀ r c, 0 ≤ r < n → 0 ≤ c < n →
    is_Some (elem x r c) ∧ - B ≤ val x r c ≤ B.

(** Cell [(r, c)] of the array of [res] is a copy of cell [(i', j')] of
    the view [Q], determinate or not. *)
Definition copy_of (Q : matrix) (i' j' : Z) (res : matrix) (r c : Z) : Prop :=
  ∃ qi qj, Q.(i) = Some qi ∧ Q.(j) = Some qj ∧
    res.(m) !! (r, c) = Q.(m) !! (qi + i', qj + j').

(** The [k]-by-[k] view of [Q] lies inside the array. *)
Definition fits (Q : matrix) (k : Z) : Prop :=
  ∃ qi qj, Q.(i) = Some qi ∧ Q.(j) = Some qj ∧
    0 ≤ qi ∧ qi + k ≤ NUM_ELEMS ∧ 0 ≤ qj ∧ qj + k ≤ NUM_ELEMS.

(** A view of [int] cells: every cell of the [n]-by-[n] view is
    determinate and holds a value of the type. *)
Definition int_view (x : matrix) (n : Z) : Prop :=
  ∀ r c, 0 ≤ r < n → 0 ≤ c < n →
    ∃ v, elem x r c = Some v ∧ representable v.

(** [elementwise] in terms of the mathematical combination [g] of the
    cells: either every combined cell is representable and the result
    holds them at the first operand's offsets, or the run exits with
    the diagnostic [diag] of the first cell, in row-major order, whose
    combination is not representable, whatever the operands hold after
    that cell. *)
Definition exact_or_first_overflow
    (op : matrix → matrix → Z → outcome matrix) (g : Z → Z → Z)
    (diag : Z → Z → fault) (a b : matrix) (n : Z) : Prop :=
  (∃ x, op a b n = Done x ∧ x.(i) = a.(i) ∧ x.(j) = a.(j) ∧
     ∀ r c, 0 ≤ r < n → 0 ≤ c < n →
       representable (g (val a r c) (val b r c)) ∧
       elem x r c = Some (g (val a r c) (val b r c)))
  ∨
  (∃ pre rc post,
     traversal 0 n 0 n = pre ++ rc :: post ∧
     (∀ k, k ∈ pre →
        before k rc ∧ representable (g (val a k.1 k.2) (val b k.1 k.2))) ∧
     ¬ representable (g (val a rc.1 rc.2) (val b rc.1 rc.2)) ∧
     op a b n = Exit (diag (val a rc.1 rc.2) (val b rc.1 rc.2)) ∧
     ∀ a' b',
       (∀ k, k ∈ pre ++ [rc] →
          elem a' k.1 k.2 = elem a k.1 k.2 ∧ elem b' k.1 k.2 = elem b k.1 k.2) →
       op a' b' n = Exit (diag (val a rc.1 rc.2) (val b rc.1 rc.2))).

(** Entry (r,c) of the mathematical product of two [n]-by-[n] views. *)
Definition product_entry (a b : matrix) (n r c : Z) : Z :=
  foldl (λ acc k, acc + val a r k * val b k c) 0 (seqZ 0 n).

(** ** Concrete inputs *)

(** A [struct matrix] as [main] prepares it: all cells zero and offsets
    0, then filled row by row. *)
Definition zero_grid : gmap (Z * Z) Z :=
  list_to_map (k ← seqZ 0 NUM_ELEMS; (λ c, ((k, c), 0)) <$> seqZ 0 NUM_ELEMS).

Definition fill_row (r : Z) (row : list Z) (g : gmap (Z * Z) Z) : gmap (Z * Z) Z :=
  foldr (λ '(c, v) g, <[(r, c) := v]> g) g (zip (seqZ 0 (Z.of_nat (length row))) row).

Definition of_rows (rows : list (list Z)) : matrix :=
  {| m := foldr (λ '(r, row) g, fill_row r row g) zero_grid
            (zip (seqZ 0 (Z.of_nat (length rows))) rows);
     i := Some 0; j := Some 0 |}.

Definition A_2x2 : matrix := of_rows [[1; 2]; [3; 4]].
Definition B_2x2 : matrix := of_rows [[5; 6]; [7; 8]].

Definition identity_8x8 : matrix :=
  of_rows ((λ r, (λ c, if r =? c then 1 else 0) <$> seqZ 0 8) <$> seqZ 0 8).

Definition identity_16x16 : matrix :=
  of_rows ((λ r, (λ c, if r =? c then 1 else 0) <$> seqZ 0 16) <$> seqZ 0 16).

Definition counting_8x8 : matrix :=
  of_rows ((λ r, (λ c, 8 * r + c) <$> seqZ 0 8) <$> seqZ 0 8).

(** The same grid seen through the 4-by-4 view at row 4, column 2. *)
Definition counting_view : matrix :=
  {| m := counting_8x8.(m); i := Some 4; j := Some 2 |}.

Definition zeros : matrix := of_rows [].

Definition big_corner_3x3 : matrix :=
  of_rows [[2147483647; 0; 0]; [0; 1; 0]; [0; 0; 0]].

Definition top_row_max : matrix := of_rows [[1; 2147483647]; [3; 4]].

Definition single (v : Z) : matrix := of_rows [[v]].

(** ** Non-negative views and identity views *)

(** Every cell of the [n]-by-[n] view of [x] is determinate, inside the
    array, and a non-negative [int]. *)
Definition nonneg_view (x : matrix) (n : Z) : Prop :=
  ∀ r c, 0 ≤ r < n → 0 ≤ c < n →
    is_Some (elem x r c) ∧ 0 ≤ val x r c ≤ INT_MAX.

(** The [n]-by-[n] view of [x] is the identity matrix. *)
Definition identity_view (x : matrix) (n : Z) : Prop :=
  ∀ r c, 0 ≤ r < n → 0 ≤ c < n →
    elem x r c = Some (if decide (r = c) then 1 else 0).

(** ** generate_random *)

(** [x->m[r][c] = rand() % modulus;]  The state pairs the number of calls
    to [rand] made so far with the matrix; [rand k] is the value the
    [k]-th call returns. *)
Definition draw (rand : nat → Z) (modulus : Z) (r c : Z) (s : nat * matrix)
  : outcome (nat * matrix) :=
  g ← store s.2.(m) r c (rand s.1 `rem` modulus);
  Done (S s.1, set_m g s.2).

(** [m1->i = m1->j = m2->i = m2->j = 0;], then the two filling loops. *)
Definition generate_random (rand : nat → Z) (m1 m2 : matrix) (n : Z)
  : outcome (matrix * matrix) :=
  let m1 := {| m := m1.(m); i := Some 0; j := Some 0 |} in
  let m2 := {| m := m2.(m); i := Some 0; j := Some 0 |} in
  s1 ← for_ 0 n (λ r, for_ 0 n (λ c, draw rand 100 r c)) (0%nat, m1);
  s2 ← for_ 0 n (λ r, for_ 0 n (λ c, draw rand 101 r c)) (s1.1, m2);
  Done (s1.2, s2.2).

(** ** main: printing the two results *)

(** The loop under "Result with strassen algo": the values of
    [m3.m[m3.i + i][m3.j + j]] it prints, row by row. *)
Definition print_result (m3 : matrix) (n : Z) : outcome (list Z) :=
  for_ 0 n (λ r, for_ 0 n (λ c out,
    v ← cell m3 r c; Done (out ++ [v]))) [].

(** The loop under "Result with standard multiplication", with the
    values it prints: each cell is printed as soon as it is computed. *)
Definition standard_multiplication (m1 m2 m3 : matrix) (n : Z)
  : outcome (matrix * list Z) :=
  for_ 0 n (λ r, for_ 0 n (λ c s,
    g ← store s.1.(m) r c 0;
    x ← for_ 0 n (accumulate m1 m2 r c) (set_m g s.1);
    v ← load x.(m) r c;
    Done (x, s.2 ++ [v]))) (m3, []).

(** [main] from the call of the multiplier to its end: what the two
    loops print. *)
Definition main_report (fuel : nat) (m1 m2 : matrix) (n : Z)
  : outcome (list Z * list Z) :=
  m3 ← strassen_matrix_multiply fuel m1 m2 n;
  out ← print_result m3 n;
  s ← standard_multiplication m1 m2 m3 n;
  Done (out, s.2).

(** A random number generator for examples. *)
Definition counter_rand (k : nat) : Z := 37 * Z.of_nat k + 11.

(** ** read_from_file *)

(** A text file is given by what the library calls make of it: the lines
    [fgets] returns, each as the list of the values [atoi] returns on the
    tokens [strtok(line, " ")] finds in it.  [None] is a file [fopen]
    does not open. *)
Definition text_file : Type := option (list (list Z)).

(** Why [read_from_file] calls [exit(EXIT_FAILURE)]. *)
Inductive refusal : Type :=
  | OpenError
  | NegativeElement (v : Z).

Inductive reading (A : Type) : Type :=
  | Read (x : A)
  | Refused (f : refusal)
  | Broken (u : undefined).

Arguments Read {A} x.
Arguments Refused {A} f.
Arguments Broken {A} u.

#[global] Instance reading_ret : MRet reading := λ A x, Read x.
#[global] Instance reading_bind : MBind reading := λ A B f o,
  match o with
  | Read x => f x
  | Refused e => Refused e
  | Broken u => Broken u
  end.

(** The assignment [x->m[x->i + r][x->j + c] = v]. *)
Definition read_store (x : matrix) (r c v : Z) : reading matrix :=
  match x.(i), x.(j) with
  | Some xi, Some xj =>
      if in_bounds (xi + r) (xj + c)
      then Read (set_m (<[(xi + r, xj + c) := v]> x.(m)) x)
      else Broken OutOfBounds
  | _, _ => Broken Indeterminate
  end.

(** [while (token) { ... }] on the tokens left in line [r], [c] being the
    value of [j]: store the element, exit if it is negative, fetch the
    next token, [if (++j == n) break]. *)
Fixpoint read_tokens (n r c : Z) (tokens : list Z) (x : matrix)
  : reading matrix :=
  match tokens with
  | [] => Read x
  | v :: rest =>
      x' ← read_store x r c v;
      if v <? 0 then Refused (NegativeElement v)
      else if c +i 1 =? n then Read x'
      else read_tokens n r (c +i 1) rest x'
  end.

(** [while (fgets(line, 1000, fp) != NULL) { ... }] on the lines left in
    the file, [r] being the value of [i]: [j = 0], the loop over the
    tokens, [if (++i == n) break]. *)
Fixpoint read_lines (n r : Z) (lines : list (list Z)) (x : matrix)
  : reading matrix :=
  match lines with
  | [] => Read x
  | tokens :: rest =>
      x' ← read_tokens n r 0 tokens x;
      if r +i 1 =? n then Read x'
      else read_lines n (r +i 1) rest x'
  end.

(** One half of [read_from_file]: open the file, set both offsets to 0,
    run the loops.  The two halves differ in the file and the matrix
    only. *)
Definition read_matrix (file : text_file) (n : Z) (x : matrix)
  : reading matrix :=
  match file with
  | None => Refused OpenError
  | Some lines => read_lines n 0 lines {| m := x.(m); i := Some 0; j := Some 0 |}
  end.

Definition read_from_file (a_txt b_txt : text_file) (m1 m2 : matrix) (n : Z)
  : reading (matrix * matrix) :=
  m1' ← read_matrix a_txt n m1;
  m2' ← read_matrix b_txt n m2;
  Read (m1', m2').

(** The value of token [c] of line [r]. *)
Definition token_at (lines : list (list Z)) (r c : Z) : option Z :=
  if decide (0 ≤ r ∧ 0 ≤ c)
  then tokens ← lines !! Z.to_nat r; tokens !! Z.to_nat c
  else None.

(** [x'] is [x] with offsets 0 and every cell of the [n]-by-[n] corner
    for which the file has a token overwritten with it. *)
Definition filled_from (lines : list (list Z)) (n : Z) (x x' : matrix) : Prop :=
  x'.(i) = Some 0 ∧ x'.(j) = Some 0 ∧
  ∀ r c, x'.(m) !! (r, c) =
    match (if decide (r < n ∧ c < n) then token_at lines r c else None) with
    | Some v => Some v
    | None => x.(m) !! (r, c)
    end.

(** ** main: clearing the arrays *)

(** [m1.m[i][j] = m2.m[i][j] = m3.m[i][j] = 0;] *)
Definition clear_elem (r c : Z) (ms : matrix * matrix * matrix)
  : outcome (matrix * matrix * matrix) :=
  g3 ← store ms.2.(m) r c 0;
  g2 ← store ms.1.2.(m) r c 0;
  g1 ← store ms.1.1.(m) r c 0;
  Done (set_m g1 ms.1.1, set_m g2 ms.1.2, set_m g3 ms.2).

(** The clearing loops at the start of [main], on [m1], [m2] and [m3]. *)
Definition main_clear (ms : matrix * matrix * matrix)
  : outcome (matrix * matrix * matrix) :=
  for_ 0 NUM_ELEMS (λ r, for_ 0 NUM_ELEMS (λ c, clear_elem r c)) ms.

(** [x] as the clearing loops leave it: every cell of the array is 0. *)
Definition cleared (x : matrix) : Prop :=
  ∀ r c, 0 ≤ r < NUM_ELEMS → 0 ≤ c < NUM_ELEMS → x.(m) !! (r, c) = Some 0.

(** ** Congruence modulo 2^32 *)

(** [x] and [y] are the same [int] after wrap-around. *)
Definition congruent (x y : Z) : Prop :=
  x `mod` 4294967296 = y `mod` 4294967296.

(** * Proofs *)

(** ** Machine integers *)

Lemma wrap_range x : representable (wrap x).
Proof.
  unfold representable, wrap, INT_MIN, INT_MAX.
  pose proof (Z.mod_pos_bound (x + 2147483648) 4294967296). lia.
Qed.

Lemma wrap_small x : representable x → wrap x = x.
Proof.
  unfold representable, wrap, INT_MIN, INT_MAX. intros H.
  rewrite Z.mod_small; lia.
Qed.

Lemma wrap_multiple x : ∃ k, wrap x = x - 4294967296 * k.
Proof.
  exists ((x + 2147483648) `div` 4294967296). unfold wrap.
  pose proof (Z.div_mod (x + 2147483648) 4294967296). lia.
Qed.

Lemma wrap_add_l x y : wrap (wrap x + y) = wrap (x + y).
Proof.
  unfold wrap at 1 3. f_equal.
  destruct (wrap_multiple x) as [k ->].
  replace (x - 4294967296 * k + y + 2147483648)
    with (x + y + 2147483648 + (- k) * 4294967296) by lia.
  apply Z.mod_add. lia.
Qed.

(** The sign test of [check_overflow] on an addition: it reports exactly
    the sums that are not representable, except that it lets
    [INT_MIN + INT_MIN] through. *)
Lemma check_add_cases a b :
  representable a → representable b →
  (check_overflow a b true false = Done () ∧
     (representable (a + b) ∨ (a = INT_MIN ∧ b = INT_MIN))) ∨
  (check_overflow a b true false = Exit (AdditionOverflow a b) ∧
     ¬ representable (a + b)).
Proof.
  unfold representable, INT_MIN, INT_MAX. intros Ha Hb.
  unfold check_overflow, int_add. cbn.
  destruct (wrap_multiple (a + b)) as [k Hk].
  pose proof (wrap_range (a + b)) as Hr.
  unfold representable, INT_MIN, INT_MAX in Hr.
  destruct (Z.ltb_spec 0 a), (Z.ltb_spec 0 b), (Z.ltb_spec a 0),
    (Z.ltb_spec b 0), (Z.ltb_spec (wrap (a + b)) 0),
    (Z.ltb_spec 0 (wrap (a + b))); cbn; try lia;
  first [ right; split; [reflexivity | lia] | left; split; [reflexivity | lia] ].
Qed.

(** The check [sub] makes, on the negated subtrahend: exact for every
    subtrahend other than [INT_MIN]. *)
Lemma check_sub_cases a b :
  representable a → representable b → b ≠ INT_MIN →
  (check_overflow a (int_neg b) true false = Done () ∧
     representable (a - b)) ∨
  (check_overflow a (int_neg b) true false
     = Exit (AdditionOverflow a (int_neg b)) ∧
     ¬ representable (a - b)).
Proof.
  intros Ha Hb Hmin.
  assert (representable (- b)) as Hnb
    by (unfold representable, INT_MIN, INT_MAX in *; lia).
  unfold int_neg. rewrite (wrap_small (- b)) by done.
  replace (a - b) with (a + - b) by lia.
  destruct (check_add_cases a (- b) Ha Hnb) as [[H [Hr|[_ Hr]]]|H];
    [by left| |by right].
  unfold representable, INT_MIN, INT_MAX in *. lia.
Qed.

(** Whatever the operands, the addition check either passes or exits
    with the addition diagnostic. *)
Lemma check_add_total a b :
  check_overflow a b true false = Done () ∨
  check_overflow a b true false = Exit (AdditionOverflow a b).
Proof.
  unfold check_overflow. cbn.
  destruct (_ && _ && _); [by right|].
  destruct (_ && _ && _); [by right|by left].
Qed.

(** The round trip [s / a == b] on the wrapped product [s]. *)
Lemma round_trip_exact a b e :
  representable a → representable b → representable (a * b) →
  round_trip (a *i b) a b e = Done ().
Proof.
  intros Ha Hb Hab. unfold round_trip, int_div, int_mul.
  rewrite (wrap_small (a * b)) by done.
  destruct (Z.eqb_spec a 0) as [|Hne]; [done|].
  destruct (Z.eqb_spec (a * b) INT_MIN) as [Hmin|_],
    (Z.eqb_spec a (-1)) as [Hm1|_]; cbn;
    try (rewrite (Z.mul_comm a b), Z.quot_mul, Z.eqb_refl by done; done).
  exfalso. unfold representable, INT_MIN, INT_MAX in *. lia.
Qed.

Lemma round_trip_detects a b e :
  representable a → representable b → a ≠ 0 →
  ¬ representable (a * b) → ¬ (a = -1 ∧ b = INT_MIN) →
  round_trip (a *i b) a b e = Exit e.
Proof.
  unfold round_trip, int_div, int_mul. intros Ha Hb Hne Hab Hmin.
  destruct (wrap_multiple (a * b)) as [k Hk].
  pose proof (wrap_range (a * b)) as Hs.
  set (s := wrap (a * b)) in *.
  assert (k ≠ 0) as Hk0
    by (intros ->; apply Hab; replace (a * b) with s by lia; done).
  destruct (Z.eqb_spec a 0) as [|_]; [done|].
  unfold representable, INT_MIN, INT_MAX in *.
  destruct (Z.eqb_spec s (-2147483648)) as [Hs'|Hs'],
    (Z.eqb_spec a (-1)) as [Ha'|Ha']; cbn;
    try (exfalso; apply Hmin; lia);
    (destruct (Z.eqb_spec (s `quot` a) b) as [Heq|_]; [|done]; exfalso;
     pose proof (Z.quot_rem' s a) as Hqr;
     pose proof (Z.rem_bound_abs s a Hne) as Hrem;
     rewrite Heq in Hqr; nia).
Qed.

(** At the one pair of operands where the quotient of the round trip
    is [INT_MIN / -1], the division traps before any comparison. *)
Lemma round_trip_traps e :
  round_trip (-1 *i INT_MIN) (-1) INT_MIN e = Undefined DivisionOverflow.
Proof. reflexivity. Qed.

Lemma check_add_pass a b :
  representable a → representable b → representable (a + b) →
  check_overflow a b true false = Done ().
Proof.
  intros Ha Hb Hab.
  destruct (check_add_cases a b Ha Hb) as [[H _]|[_ H]]; done.
Qed.

Lemma check_mult_pass a b :
  representable a → representable b → representable (a * b) →
  check_overflow a b false true = Done ().
Proof.
  intros Ha Hb Hab. unfold check_overflow. cbn.
  rewrite round_trip_exact by done. cbn.
  unfold int_mul. rewrite (Z.mul_comm a b). fold (int_mul b a).
  apply round_trip_exact; [done..|]. by rewrite Z.mul_comm.
Qed.

Lemma check_mult_fail a b :
  representable a → representable b → ¬ representable (a * b) →
  ¬ (a = -1 ∧ b = INT_MIN) →
  check_overflow a b false true = Exit (MultiplicationOverflow a b).
Proof.
  intros Ha Hb Hab Hmin.
  assert (a ≠ 0) as Ha0
    by (intros ->; apply Hab; unfold representable, INT_MIN, INT_MAX; lia).
  unfold check_overflow. cbn. by rewrite round_trip_detects.
Qed.

Lemma check_mult_traps :
  check_overflow (-1) INT_MIN false true = Undefined DivisionOverflow.
Proof. reflexivity. Qed.

(** The multiplication check on [int] operands: it passes exactly on
    the representable products, and exits with the diagnostic on all
    others but one, where it traps. *)
Lemma check_mult_cases a b :
  representable a → representable b →
  (check_overflow a b false true = Done () ∧ representable (a * b)) ∨
  (check_overflow a b false true = Exit (MultiplicationOverflow a b) ∧
     ¬ representable (a * b) ∧ ¬ (a = -1 ∧ b = INT_MIN)) ∨
  (check_overflow a b false true = Undefined DivisionOverflow ∧
     a = -1 ∧ b = INT_MIN).
Proof.
  intros Ha Hb.
  destruct (decide (representable (a * b))) as [Hab|Hab].
  { left. split; [by apply check_mult_pass|done]. }
  right. destruct (decide (a = -1 ∧ b = INT_MIN)) as [[-> ->]|Hmin].
  - right. split; [apply check_mult_traps|done].
  - left. split; [by apply check_mult_fail|done].
Qed.

Lemma check_mult_Done_inv a b :
  representable a → representable b →
  check_overflow a b false true = Done () → representable (a * b).
Proof.
  intros Ha Hb H.
  destruct (check_mult_cases a b Ha Hb) as [[_ ?]|[[E _]|[E _]]];
    [done|congruence..].
Qed.

(** ** Loops *)

Lemma foldM_app {X S} (body : X → S → outcome S) xs ys s :
  foldM body (xs ++ ys) s = s' ← foldM body xs s; foldM body ys s'.
Proof.
  revert s. induction xs as [|x xs IH]; intros s; cbn; [done|].
  destruct (body x s); cbn; auto.
Qed.

(** Two nested [for] loops visit the cells in the order of [traversal]. *)
Lemma for_nested {S} (body : Z → Z → S → outcome S) lo hi lo' hi' s :
  for_ lo hi (λ r, for_ lo' hi' (λ c, body r c)) s
  = foldM (λ rc, body rc.1 rc.2) (traversal lo hi lo' hi') s.
Proof.
  unfold for_, traversal.
  generalize (seqZ lo (hi - lo)) as rs. generalize (seqZ lo' (hi' - lo')) as cs.
  intros cs rs. revert s. induction rs as [|r rs IH]; intros s; cbn; [done|].
  rewrite foldM_app.
  assert (∀ s, foldM (body r) cs s
               = foldM (λ rc, body rc.1 rc.2) (c ← cs; [(r, c)]) s) as ->.
  { clear. induction cs as [|c cs IH]; intros s; cbn; [done|].
    destruct (body r c s); cbn; auto. }
  destruct (foldM _ (_ ≫= _) s); cbn; auto.
Qed.

Lemma elem_of_traversal lo hi lo' hi' r c :
  (r, c) ∈ traversal lo hi lo' hi' ↔ lo ≤ r < hi ∧ lo' ≤ c < hi'.
Proof.
  unfold traversal. rewrite list_elem_of_bind. split.
  - intros (r' & Hc & Hr). apply list_elem_of_bind in Hc as (c' & Hrc & Hc).
    apply list_elem_of_singleton in Hrc. simplify_eq.
    apply elem_of_seqZ in Hr, Hc. lia.
  - intros [Hr Hc]. exists r. split; [|apply elem_of_seqZ; lia].
    apply list_elem_of_bind. exists c. split; [by apply list_elem_of_singleton|].
    apply elem_of_seqZ. lia.
Qed.

Lemma seqZ_sorted m n : StronglySorted Z.lt (seqZ m n).
Proof.
  destruct (decide (n ≤ 0)) as [Hn|Hn]; [rewrite seqZ_nil by done; constructor|].
  rewrite <- (Z2Nat.id n) by lia. generalize (Z.to_nat n) as k. clear.
  intros k. revert m. induction k as [|k IH]; intros m; [constructor|].
  rewrite seqZ_cons by lia.
  replace (Z.pred (Z.of_nat (S k))) with (Z.of_nat k) by lia.
  constructor; [apply IH|].
  apply Forall_forall. intros x Hx%elem_of_seqZ. lia.
Qed.

(** The traversal is in row-major order. *)
Lemma traversal_sorted lo hi lo' hi' :
  StronglySorted before (traversal lo hi lo' hi').
Proof.
  unfold traversal.
  pose proof (seqZ_sorted lo (hi - lo)) as Hrs.
  pose proof (seqZ_sorted lo' (hi' - lo')) as Hcs.
  revert Hrs Hcs.
  generalize (seqZ lo (hi - lo)) as rs. generalize (seqZ lo' (hi' - lo')) as cs.
  intros cs rs Hrs Hcs. induction Hrs as [|r rs Hrs IH Hr]; cbn; [constructor|].
  apply StronglySorted_app_2; [| |done].
  - intros [r1 c1] [r2 c2] H1 H2.
    apply list_elem_of_bind in H1 as (c & ->%list_elem_of_singleton & _).
    apply list_elem_of_bind in H2 as (r' & Hc2 & Hr').
    apply list_elem_of_bind in Hc2 as (c' & ->%list_elem_of_singleton & _).
    left. cbn. by apply (proj1 (Forall_forall _ _) Hr).
  - clear -Hcs. induction Hcs as [|c cs Hcs IH Hc]; cbn; [constructor|].
    constructor; [done|].
    apply Forall_forall. intros [r1 c1] H1.
    apply list_elem_of_bind in H1 as (c' & ->%list_elem_of_singleton & Hc').
    right. cbn. split; [done|]. by apply (proj1 (Forall_forall _ _) Hc).
Qed.

Lemma traversal_before lo hi lo' hi' pre rc post k :
  traversal lo hi lo' hi' = pre ++ rc :: post → k ∈ pre → before k rc.
Proof.
  intros Hsplit Hk. pose proof (traversal_sorted lo hi lo' hi') as Hs.
  rewrite Hsplit in Hs.
  eapply StronglySorted_app_1_elem_of; [done..|]. by left.
Qed.

(** A list either passes a total test everywhere or splits at its first
    failure. *)
Lemma first_failure {X} (P Q : X → Prop) (xs : list X) :
  (∀ x, x ∈ xs → P x ∨ Q x) →
  Forall P xs ∨ ∃ pre x post, xs = pre ++ x :: post ∧ Forall P pre ∧ Q x.
Proof.
  induction xs as [|x xs IH]; intros Hall; [by left|].
  destruct (Hall x) as [HP|HQ]; [by left| |].
  - destruct IH as [IH|(pre & y & post & -> & Hpre & HQ)].
    + intros y Hy. apply Hall. by right.
    + left. by constructor.
    + right. exists (x :: pre), y, post. by repeat constructor.
  - right. by exists [], x, xs.
Qed.

(** ** Cells of a view *)

Lemma cell_elem x r c v : elem x r c = Some v → cell x r c = Done v.
Proof.
  unfold elem, cell, load, subscript.
  destruct (i x) as [xi|]; [|done]. destruct (j x) as [xj|]; [|done]. cbn.
  destruct (in_bounds _ _); [|done]. cbn. by intros ->.
Qed.

Lemma elem_cell x r c v : cell x r c = Done v → elem x r c = Some v.
Proof.
  unfold elem, cell, load, subscript.
  destruct (i x) as [xi|]; [|done]. destruct (j x) as [xj|]; [|done]. cbn.
  destruct (in_bounds _ _); [|done]. cbn.
  destruct (_ !! _); cbn; congruence.
Qed.

Lemma elem_offsets x r c v :
  elem x r c = Some v →
  ∃ xi xj, x.(i) = Some xi ∧ x.(j) = Some xj ∧
           in_bounds (xi + r) (xj + c) = true ∧
           x.(m) !! (xi + r, xj + c) = Some v.
Proof.
  unfold elem. destruct (i x) as [xi|]; [|done].
  destruct (j x) as [xj|]; [|done]. cbn.
  destruct (in_bounds _ _) eqn:Hb; [|done]. intros Hv. by exists xi, xj.
Qed.

(** ** add and sub: elementwise, fail-fast *)

Section cellwise.
Context (chk : Z → Z → outcome unit) (f : Z → Z → Z).
Hypothesis chk_total : ∀ p q, chk p q = Done () ∨ ∃ e, chk p q = Exit e.

Lemma cellwise_step_pass a b x rc :
  passes chk a b rc → x.(i) = a.(i) → x.(j) = a.(j) →
  ∃ x', cellwise_step chk f a b rc.1 rc.2 x = Done x' ∧
        x'.(i) = a.(i) ∧ x'.(j) = a.(j) ∧ holds f a b x' rc ∧
        ∀ k, holds f a b x k → holds f a b x' k.
Proof.
  destruct rc as [r c]. intros (p & q & Hp & Hq & Hchk) Hi Hj. cbn in *.
  destruct (elem_offsets _ _ _ _ Hp) as (ai & aj & Hai & Haj & Hin & Hlk).
  unfold cellwise_step, assign, store, subscript.
  rewrite (cell_elem _ _ _ _ Hp), (cell_elem _ _ _ _ Hq). cbn.
  rewrite Hchk, Hi, Hj, Hai, Haj. cbn. rewrite Hin. cbn.
  eexists. split; [done|]. cbn. rewrite Hi, Hj.
  split; [done|]. split; [done|]. split.
  - exists p, q. split; [done|]. split; [done|].
    unfold elem. cbn. rewrite Hi, Hai, Hj, Haj. cbn. rewrite Hin.
    apply lookup_insert_eq.
  - intros [r' c'] (p' & q' & Hp' & Hq' & Hx'). cbn in *.
    exists p', q'. split; [done|]. split; [done|].
    revert Hx'. unfold elem. cbn. rewrite Hi, Hai, Hj, Haj. cbn.
    destruct (in_bounds (ai + r') (aj + c')); [|done].
    destruct (decide ((ai + r, aj + c) = (ai + r', aj + c'))) as [Heq|Hne].
    + intros _. assert (r' = r ∧ c' = c) as [-> ->] by (simplify_eq; lia).
      rewrite lookup_insert_eq. congruence.
    + by rewrite lookup_insert_ne.
Qed.

Lemma cellwise_step_offend a b x rc e :
  offends chk a b rc e → cellwise_step chk f a b rc.1 rc.2 x = Exit e.
Proof.
  intros (p & q & Hp & Hq & Hchk). unfold cellwise_step.
  rewrite (cell_elem _ _ _ _ Hp), (cell_elem _ _ _ _ Hq). cbn.
  by rewrite Hchk.
Qed.

Lemma cellwise_run a b pre x :
  Forall (passes chk a b) pre → x.(i) = a.(i) → x.(j) = a.(j) →
  ∃ x', foldM (λ rc, cellwise_step chk f a b rc.1 rc.2) pre x = Done x' ∧
        x'.(i) = a.(i) ∧ x'.(j) = a.(j) ∧
        ∀ k, k ∈ pre ∨ holds f a b x k → holds f a b x' k.
Proof.
  intros Hpre. revert x. induction Hpre as [|rc pre Hrc Hpre IH];
    intros x Hi Hj; cbn.
  - exists x. split_and!; [done..|]. intros k [Hk|Hk]; [|done].
    by apply elem_of_nil in Hk.
  - destruct (cellwise_step_pass a b x rc Hrc Hi Hj)
      as (x1 & -> & Hi1 & Hj1 & Hrc1 & Hkeep). cbn.
    destruct (IH x1 Hi1 Hj1) as (x' & -> & Hi' & Hj' & Hall).
    exists x'. split_and!; [done..|].
    intros k [Hk|Hk]; apply Hall.
    + apply elem_of_cons in Hk as [->|Hk]; [by right|by left].
    + right. by apply Hkeep.
Qed.

Lemma cellwise_exit a b pre rc post x e :
  Forall (passes chk a b) pre → offends chk a b rc e →
  x.(i) = a.(i) → x.(j) = a.(j) →
  foldM (λ rc, cellwise_step chk f a b rc.1 rc.2) (pre ++ rc :: post) x
  = Exit e.
Proof.
  intros Hpre Hrc Hi Hj. rewrite foldM_app.
  destruct (cellwise_run a b pre x Hpre Hi Hj) as (x1 & -> & _). cbn.
  by rewrite (cellwise_step_offend a b x1 rc e Hrc).
Qed.

Lemma cellwise_elementwise op a b n :
  (∀ a b n, op a b n
     = for_ 0 n (λ r, for_ 0 n (λ c, cellwise_step chk f a b r c))
         {| m := ∅; i := a.(i); j := a.(j) |}) →
  (∀ r c, 0 ≤ r < n → 0 ≤ c < n →
     is_Some (elem a r c) ∧ is_Some (elem b r c)) →
  elementwise op chk f a b n.
Proof.
  intros Hop Hwf.
  destruct (first_failure (passes chk a b) (λ rc, ∃ e, offends chk a b rc e)
              (traversal 0 n 0 n)) as [Hall|(pre & rc & post & Hsplit & Hpre & e & Hrc)].
  { intros [r c] Hrc. apply elem_of_traversal in Hrc as [Hr Hc].
    destruct (Hwf r c Hr Hc) as [[p Hp] [q Hq]].
    destruct (chk_total p q) as [Hd|[e He]].
    - left. by exists p, q.
    - right. exists e. by exists p, q. }
  - left. rewrite Hop, (for_nested (cellwise_step chk f a b)).
    destruct (cellwise_run a b _ {| m := ∅; i := a.(i); j := a.(j) |} Hall)
      as (x & -> & Hi & Hj & Hx); [done..|].
    exists x. split_and!; [done..|]. intros r c Hr Hc.
    destruct (Hx (r, c)) as (p & q & Hp & Hq & Hv).
    { left. apply elem_of_traversal. lia. }
    exists p, q. split_and!; [done..| |done].
    apply Forall_forall with (x := (r, c)) in Hall
      as (p' & q' & Hp' & Hq' & Hchk); [|apply elem_of_traversal; lia].
    cbn in *. congruence.
  - right. exists pre, rc, post, e. split_and!; [done| |done..| |].
    + intros k. by apply (traversal_before 0 n 0 n pre rc post).
    + rewrite Hop, (for_nested (cellwise_step chk f a b)), Hsplit.
      by apply cellwise_exit.
    + intros a' b' Hagree.
      rewrite Hop, (for_nested (cellwise_step chk f a' b')), Hsplit.
      apply cellwise_exit; [| |done..].
      * apply Forall_forall. intros k Hk.
        apply Forall_forall with (x := k) in Hpre
          as (p & q & Hp & Hq & Hchk); [|done].
        destruct (Hagree k) as [Ha' Hb']; [apply elem_of_app; by left|].
        exists p, q. by rewrite Ha', Hb'.
      * destruct Hrc as (p & q & Hp & Hq & Hchk).
        destruct (Hagree rc) as [Ha' Hb'].
        { apply elem_of_app. right. by apply list_elem_of_singleton. }
        exists p, q. by rewrite Ha', Hb'.
Qed.
End cellwise.

(** [add] and [sub] relative to the answers of their per-cell check: on
    determinate views they return the combined cells, or exit at the
    first cell, in the order of the traversal, on which the check
    exits. *)
Lemma add_sub_elementwise a b n :
  (∀ r c, 0 ≤ r < n → 0 ≤ c < n →
     is_Some (elem a r c) ∧ is_Some (elem b r c)) →
  elementwise add (λ p q, check_overflow p q true false) int_add a b n ∧
  elementwise sub (λ p q, check_overflow p (int_neg q) true false) int_sub
    a b n.
Proof.
  intros Hwf. split.
  - apply cellwise_elementwise; [|done..].
    intros p q. destruct (check_add_total p q) as [->| ->]; eauto.
  - apply cellwise_elementwise; [|done..].
    intros p q. destruct (check_add_total p (int_neg q)) as [->| ->]; eauto.
Qed.

(** ** Inversion of successful runs *)

Lemma bind_Done {A B} (x : A) (k : A → outcome B) : Done x ≫= k = k x.
Proof. done. Qed.

Lemma bind_Done_inv {A B} (o : outcome A) (k : A → outcome B) y :
  o ≫= k = Done y → ∃ x, o = Done x ∧ k x = Done y.
Proof. destruct o; cbn; [eauto|done..]. Qed.

Ltac inv_bind H :=
  let x := fresh "x" in
  let Hx := fresh "Hx" in
  apply bind_Done_inv in H as (x & Hx & H).

Tactic Notation "inv_bind_as" hyp(H) ident(x) ident(Hx) :=
  apply bind_Done_inv in H as (x & Hx & H).

Lemma foldM_Done_inv {X S} (P : list X → S → Prop) (body : X → S → outcome S)
    xs s s' :
  P [] s →
  (∀ pre x s1 s2, P pre s1 → body x s1 = Done s2 → P (pre ++ [x]) s2) →
  foldM body xs s = Done s' → P xs s'.
Proof.
  intros Hnil Hstep.
  assert (∀ pre s, P pre s → foldM body xs s = Done s' → P (pre ++ xs) s')
    as Hgen; [|by apply (Hgen [])].
  clear Hnil s. induction xs as [|x xs IH]; intros pre s HP Hrun; cbn in *.
  - rewrite app_nil_r. congruence.
  - inv_bind Hrun. rewrite cons_middle, app_assoc. eapply IH; [|done].
    by eapply Hstep.
Qed.

Lemma assign_Done_inv x r c v x' :
  assign x r c v = Done x' →
  x'.(i) = x.(i) ∧ x'.(j) = x.(j) ∧
  ∃ xi xj, x.(i) = Some xi ∧ x.(j) = Some xj ∧
           x'.(m) = <[(xi + r, xj + c) := v]> x.(m).
Proof.
  unfold assign, store, subscript, use. intros H.
  destruct (i x) as [xi|] eqn:Hi; [|done].
  destruct (j x) as [xj|] eqn:Hj; [|done]. cbn in H.
  destruct (in_bounds _ _); [|done]. cbn in H. simplify_eq. cbn.
  rewrite Hi, Hj. eauto 10.
Qed.

Lemma cellwise_step_offsets chk f a b r c x x' :
  cellwise_step chk f a b r c x = Done x' →
  x'.(i) = x.(i) ∧ x'.(j) = x.(j).
Proof.
  unfold cellwise_step. intros H. do 5 inv_bind H.
  apply assign_Done_inv in H as (? & ? & _). done.
Qed.

Lemma cellwise_offsets chk f a b n x0 x :
  for_ 0 n (λ r, for_ 0 n (λ c, cellwise_step chk f a b r c)) x0 = Done x →
  x.(i) = x0.(i) ∧ x.(j) = x0.(j).
Proof.
  rewrite (for_nested (cellwise_step chk f a b)).
  apply (foldM_Done_inv (λ _ x, x.(i) = x0.(i) ∧ x.(j) = x0.(j))); [done|].
  intros _ rc s1 s2 [Hi Hj] Hstep.
  apply cellwise_step_offsets in Hstep as [-> ->]. done.
Qed.

Lemma add_offsets a b n x :
  add a b n = Done x → x.(i) = a.(i) ∧ x.(j) = a.(j).
Proof. intros H. by apply cellwise_offsets in H. Qed.

Lemma sub_offsets a b n x :
  sub a b n = Done x → x.(i) = a.(i) ∧ x.(j) = a.(j).
Proof. intros H. by apply cellwise_offsets in H. Qed.

Lemma strassen_2x2_offsets a b c :
  strassen_2x2 a b = Done c → c.(i) = a.(i) ∧ c.(j) = a.(j).
Proof.
  unfold strassen_2x2. intros H. inv_bind H.
  destruct x as [[[[[[m1 m2] m3] m4] m5] m6] m7].
  unfold strassen_2x2_assemble in H. do 12 inv_bind H. simplify_eq.
  repeat match goal with
         | H : assign _ _ _ _ = Done _ |- _ =>
             apply assign_Done_inv in H as (? & ? & _)
         end.
  cbn in *. split; congruence.
Qed.

(** One assignment of the assembly loops: both subscripts are inside
    their arrays, and the cell of [res] becomes a copy of the cell of
    [Q], determinate or not. *)
Lemma place_elem_Done_inv Q lo lo' r c res res' :
  place_elem Q lo lo' r c res = Done res' →
  ∃ qi qj, Q.(i) = Some qi ∧ Q.(j) = Some qj ∧
    in_bounds (qi + (r - lo)) (qj + (c - lo')) = true ∧
    in_bounds r c = true ∧
    res' = set_m (partial_alter
                    (λ _, Q.(m) !! (qi + (r - lo), qj + (c - lo')))
                    (r, c) res.(m)) res.
Proof.
  unfold place_elem, use, subscript. intros H.
  destruct (i Q) as [qi|]; [|done]. destruct (j Q) as [qj|]; [|done].
  cbn in H.
  destruct (in_bounds (qi + (r - lo)) (qj + (c - lo'))) eqn:HQ; [|done].
  cbn in H. destruct (in_bounds r c) eqn:Hres; [|done]. cbn in H.
  injection H as <-. by exists qi, qj.
Qed.

(** The assembly loops never touch the offsets of [res]; every cell
    they visit becomes a copy of a cell of [Q], and no other cell
    changes. *)
Lemma place_Done_inv Q lo hi lo' hi' res res' :
  place Q lo hi lo' hi' res = Done res' →
  res'.(i) = res.(i) ∧ res'.(j) = res.(j) ∧
  (∀ r c, lo ≤ r < hi → lo' ≤ c < hi' →
     ∃ qi qj, Q.(i) = Some qi ∧ Q.(j) = Some qj ∧
       res'.(m) !! (r, c) = Q.(m) !! (qi + (r - lo), qj + (c - lo'))) ∧
  (∀ r c, ¬ (lo ≤ r < hi ∧ lo' ≤ c < hi') →
     res'.(m) !! (r, c) = res.(m) !! (r, c)).
Proof.
  unfold place. rewrite (for_nested (place_elem Q lo lo')). intros H.
  apply (foldM_Done_inv (λ pre x,
    x.(i) = res.(i) ∧ x.(j) = res.(j) ∧
    (∀ k, k ∈ pre →
       ∃ qi qj, Q.(i) = Some qi ∧ Q.(j) = Some qj ∧
         x.(m) !! k = Q.(m) !! (qi + (k.1 - lo), qj + (k.2 - lo'))) ∧
    (∀ k, k ∉ pre → x.(m) !! k = res.(m) !! k))) in H.
  - destruct H as (Hi & Hj & Hin & Hout). split_and!; [done..| |].
    + intros r c Hr Hc. apply (Hin (r, c)), elem_of_traversal. lia.
    + intros r c Hrc. apply (Hout (r, c)). by rewrite elem_of_traversal.
  - split_and!; [done..| |done]. intros k Hk. by apply elem_of_nil in Hk.
  - intros pre [r c] s1 s2 (Hi & Hj & Hin & Hout) Hstep. cbn in Hstep.
    apply place_elem_Done_inv in Hstep
      as (qi & qj & Hqi & Hqj & _ & _ & ->). cbn.
    split_and!; [done..| |].
    + intros k Hk. destruct (decide (k = (r, c))) as [->|Hne].
      * exists qi, qj. split_and!; [done..|]. by rewrite lookup_partial_alter_eq.
      * rewrite lookup_partial_alter_ne by done.
        apply elem_of_app in Hk as [Hk|Hk%list_elem_of_singleton]; [|done].
        by apply Hin.
    + intros k Hk. rewrite not_elem_of_app, list_elem_of_singleton in Hk.
      destruct Hk as [Hk Hne]. rewrite lookup_partial_alter_ne by done.
      by apply Hout.
Qed.

Lemma quot_2_ranges n r :
  (0 ≤ r < n `quot` 2 ∨ n `quot` 2 ≤ r < n) ↔ 0 ≤ r < n.
Proof.
  pose proof (Z.quot_rem' n 2) as Hqr.
  pose proof (Z.rem_bound_abs n 2) as Hb.
  pose proof (Z.rem_sign_mul n 2) as Hs.
  generalize dependent (Z.rem n 2). generalize dependent (n `quot` 2).
  intros. nia.
Qed.

(** What a successful run of the recursive case went through. *)
Lemma strassen_recursive_inv fuel a b n res :
  n ≠ 2 → strassen_matrix_multiply (S fuel) a b n = Done res →
  let h := n `quot` 2 in
  ∃ x y M1 M2 M3 M4 M5 M6 M7 S1 S2 S4 Q1 Q2 Q3 Q4 r1 r2 r3,
    strassen_matrix_multiply fuel x y h = Done M1 ∧
    add M1 M4 h = Done S1 ∧
    add S2 M7 h = Done Q1 ∧
    add M3 M5 h = Done Q2 ∧
    add M2 M4 h = Done Q3 ∧
    add S4 M6 h = Done Q4 ∧
    place Q1 0 h 0 h uninitialised = Done r1 ∧
    place Q2 0 h h n r1 = Done r2 ∧
    place Q3 h n 0 h r2 = Done r3 ∧
    place Q4 h n h n r3 = Done res.
Proof.
  intros Hn H h. cbn in H. destruct (Z.eqb_spec n 2); [done|].
  unfold strassen_recursive, assemble in H. fold h in H.
  inv_bind_as H A00 HA00. inv_bind_as H A01 HA01.
  inv_bind_as H A10 HA10. inv_bind_as H A11 HA11.
  inv_bind_as H B00 HB00. inv_bind_as H B01 HB01.
  inv_bind_as H B10 HB10. inv_bind_as H B11 HB11.
  inv_bind_as H M1 HM1. inv_bind_as H M2 HM2. inv_bind_as H M3 HM3.
  inv_bind_as H M4 HM4. inv_bind_as H M5 HM5. inv_bind_as H M6 HM6.
  inv_bind_as H M7 HM7.
  inv_bind_as H Q1 HQ1. inv_bind_as H Q2 HQ2.
  inv_bind_as H Q3 HQ3. inv_bind_as H Q4 HQ4.
  inv_bind_as H r1 Hr1. inv_bind_as H r2 Hr2.
  inv_bind_as H r3 Hr3. inv_bind_as H r4 Hr4. injection H as <-.
  inv_bind_as HM1 x Hx. inv_bind_as HM1 y Hy.
  inv_bind_as HQ1 S1 HS1. inv_bind_as HQ1 S2 HS2.
  inv_bind_as HQ4 S3 HS3. inv_bind_as HQ4 S4 HS4.
  exists x, y, M1, M2, M3, M4, M5, M6, M7, S1, S2, S4, Q1, Q2, Q3, Q4,
    r1, r2, r3.
  done.
Qed.

(** A result of the recursive case has unset offsets, and no cell
    outside rows and columns [0, n) is defined. *)
Lemma strassen_recursive_Done_inv fuel a b n res :
  n ≠ 2 → strassen_matrix_multiply fuel a b n = Done res →
  res.(i) = None ∧ res.(j) = None ∧
  ∀ r c, is_Some (res.(m) !! (r, c)) → 0 ≤ r < n ∧ 0 ≤ c < n.
Proof.
  intros Hn H. destruct fuel as [|fuel]; [done|].
  apply strassen_recursive_inv in H
    as (x & y & M1 & M2 & M3 & M4 & M5 & M6 & M7 & S1 & S2 & S4
        & Q1 & Q2 & Q3 & Q4 & r1 & r2 & r3
        & _ & _ & _ & _ & _ & _ & H1 & H2 & H3 & H4); [|done].
  apply place_Done_inv in H1 as (Hi1 & Hj1 & _ & Ho1).
  apply place_Done_inv in H2 as (Hi2 & Hj2 & _ & Ho2).
  apply place_Done_inv in H3 as (Hi3 & Hj3 & _ & Ho3).
  apply place_Done_inv in H4 as (Hi4 & Hj4 & _ & Ho4).
  split_and!; [cbn in *; congruence..|].
  intros r c Hrc.
  destruct (decide (0 ≤ r < n ∧ 0 ≤ c < n)) as [|Hout]; [done|]. exfalso.
  pose proof (quot_2_ranges n r). pose proof (quot_2_ranges n c).
  rewrite Ho4, Ho3, Ho2, Ho1 in Hrc by tauto.
  cbn in Hrc. rewrite lookup_empty in Hrc. by destruct Hrc.
Qed.

(** ** For which dimensions the multiplier returns *)

(** A successful elementwise loop has read every cell of its first
    operand. *)
Lemma cellwise_reads chk f a b n x0 x :
  for_ 0 n (λ r, for_ 0 n (λ c, cellwise_step chk f a b r c)) x0 = Done x →
  ∀ r c, 0 ≤ r < n → 0 ≤ c < n → ∃ p, cell a r c = Done p.
Proof.
  rewrite (for_nested (cellwise_step chk f a b)). intros H r c Hr Hc.
  apply (foldM_Done_inv
           (λ pre _, ∀ rc, rc ∈ pre → ∃ p, cell a rc.1 rc.2 = Done p))
    with (rc := (r, c)) in H; [done| | |apply elem_of_traversal; lia].
  - intros rc Hrc. by apply elem_of_nil in Hrc.
  - intros pre rc s1 s2 Hpre Hstep rc' [Hrc'| ->%list_elem_of_singleton]%elem_of_app;
      [by apply Hpre|].
    unfold cellwise_step in Hstep. inv_bind Hstep. eauto.
Qed.

(** It defines no cell outside the view at the first operand's
    offsets. *)
Lemma cellwise_dom chk f a b n x :
  for_ 0 n (λ r, for_ 0 n (λ c, cellwise_step chk f a b r c))
    {| m := ∅; i := a.(i); j := a.(j) |} = Done x →
  ∀ k, is_Some (x.(m) !! k) →
    ∃ xi xj r c, x.(i) = Some xi ∧ x.(j) = Some xj ∧
                 k = (xi + r, xj + c) ∧ 0 ≤ r < n ∧ 0 ≤ c < n.
Proof.
  rewrite (for_nested (cellwise_step chk f a b)). intros H.
  apply (foldM_Done_inv (λ pre x,
    x.(i) = a.(i) ∧ x.(j) = a.(j) ∧
    ∀ k, is_Some (x.(m) !! k) →
      ∃ xi xj rc, x.(i) = Some xi ∧ x.(j) = Some xj ∧
                  k = (xi + rc.1, xj + rc.2) ∧ rc ∈ pre)) in H.
  - destruct H as (_ & _ & H). intros k Hk.
    destruct (H k Hk) as (xi & xj & [r c] & Hi & Hj & -> & Hrc).
    apply elem_of_traversal in Hrc. exists xi, xj, r, c. done.
  - split_and!; [done..|]. cbn. intros k Hk.
    rewrite lookup_empty in Hk. by destruct Hk.
  - intros pre rc s1 s2 (Hi & Hj & Hdom) Hstep.
    unfold cellwise_step in Hstep. do 5 inv_bind Hstep.
    apply assign_Done_inv in Hstep
      as (Hi2 & Hj2 & xi & xj & Hxi & Hxj & Hm).
    split_and!; [congruence..|]. intros k Hk. rewrite Hm in Hk.
    destruct (decide (k = (xi + rc.1, xj + rc.2))) as [->|Hne].
    + exists xi, xj, rc. split_and!; [congruence..|done|].
      apply elem_of_app. right. by apply list_elem_of_singleton.
    + rewrite lookup_insert_ne in Hk by done.
      destruct (Hdom k Hk) as (xi' & xj' & rc' & Hi' & Hj' & -> & Hrc').
      exists xi', xj', rc'. split_and!; [congruence..|done|].
      apply elem_of_app. by left.
Qed.

(** A cell that was read is determinate, and so are the offsets it was
    read through. *)
Lemma cell_Done_inv x r c v :
  cell x r c = Done v →
  ∃ xi xj, x.(i) = Some xi ∧ x.(j) = Some xj ∧
           x.(m) !! (xi + r, xj + c) = Some v.
Proof.
  intros H%elem_cell. apply elem_offsets in H as (xi & xj & ? & ? & _ & ?).
  eauto.
Qed.

(** The multiplier returns a result only for [n = 2], [n = 4] and
    [n = 5]: at [n = 3], 6 and 7 the recursion reaches a dimension below
    2, and from [n = 8] on a sub-result with unset offsets is read. *)
Lemma strassen_returns_only_for_2_4_5 fuel a b n res :
  strassen_matrix_multiply fuel a b n = Done res → n = 2 ∨ n = 4 ∨ n = 5.
Proof.
  revert a b n res. induction fuel as [|fuel IH]; intros a b n res H; [done|].
  destruct (decide (n = 2)) as [|Hn]; [by left|]. right.
  apply strassen_recursive_inv in H
    as (x & y & M1 & M2 & M3 & M4 & M5 & M6 & M7 & S1 & S2 & S4
        & Q1 & Q2 & Q3 & Q4 & r1 & r2 & r3
        & HM1 & HS1 & _); [|done].
  assert (n `quot` 2 = 2) as Hh.
  { destruct (decide (n `quot` 2 = 2)) as [|Hh]; [done|]. exfalso.
    assert (0 < n `quot` 2) as Hpos
      by (destruct (IH _ _ _ _ HM1) as [?|[?|?]]; lia).
    apply strassen_recursive_Done_inv in HM1 as (Hi & _); [|done].
    apply cellwise_reads with (r := 0) (c := 0) in HS1 as [p Hp]; [|lia..].
    apply cell_Done_inv in Hp as (? & ? & ? & _). congruence. }
  pose proof (Z.quot_rem' n 2) as Hqr.
  pose proof (Z.rem_bound_abs n 2) as Hb.
  pose proof (Z.rem_sign_mul n 2) as Hs.
  nia.
Qed.

(** ** Which cells a result defines *)

Lemma assign_Done_cell x r c v x' :
  assign x r c v = Done x' →
  x'.(i) = x.(i) ∧ x'.(j) = x.(j) ∧ elem x' r c = Some v ∧
  ∀ r' c', (r', c') ≠ (r, c) → elem x' r' c' = elem x r' c'.
Proof.
  unfold assign, store, subscript, use. intros H.
  destruct (i x) as [xi|] eqn:Hi; [|done].
  destruct (j x) as [xj|] eqn:Hj; [|done]. cbn in H.
  destruct (in_bounds _ _) eqn:Hin; [|done]. cbn in H. simplify_eq.
  unfold elem. cbn. rewrite Hi, Hj. cbn. split_and!; [done..| |].
  - by rewrite Hin, lookup_insert_eq.
  - intros r' c' Hne. destruct (in_bounds (xi + r') (xj + c')); [|done].
    rewrite lookup_insert_ne; [done|]. intros [= ? ?]. apply Hne.
    f_equal; lia.
Qed.

(** A run of an elementwise loop that returns has combined every pair
    of cells. *)
Lemma cellwise_Done_inv chk f a b n x :
  for_ 0 n (λ r, for_ 0 n (λ c, cellwise_step chk f a b r c))
    {| m := ∅; i := a.(i); j := a.(j) |} = Done x →
  x.(i) = a.(i) ∧ x.(j) = a.(j) ∧
  ∀ r c, 0 ≤ r < n → 0 ≤ c < n → holds f a b x (r, c).
Proof.
  rewrite (for_nested (cellwise_step chk f a b)). intros H.
  apply (foldM_Done_inv (λ pre x,
    x.(i) = a.(i) ∧ x.(j) = a.(j) ∧ ∀ rc, rc ∈ pre → holds f a b x rc)) in H.
  - destruct H as (Hi & Hj & H). split_and!; [done..|].
    intros r c Hr Hc. apply H, elem_of_traversal. lia.
  - split_and!; [done..|]. intros rc Hrc. by apply elem_of_nil in Hrc.
  - intros pre [r c] s1 s2 (Hi & Hj & Hpre) Hstep.
    unfold cellwise_step in Hstep. cbn [fst snd] in Hstep.
    inv_bind_as Hstep p0 Hp0. inv_bind_as Hstep q0 Hq0.
    inv_bind_as Hstep u Hu. inv_bind_as Hstep p Hp. inv_bind_as Hstep q Hq.
    apply assign_Done_cell in Hstep as (Hi2 & Hj2 & Hv & Hkeep).
    apply elem_cell in Hp, Hq.
    split_and!; [congruence..|].
    intros [r' c'] Hrc. destruct (decide ((r', c') = (r, c))) as [[= -> ->]|Hne].
    + by exists p, q.
    + apply elem_of_app in Hrc as [Hrc|Hrc%list_elem_of_singleton]; [|done].
      destruct (Hpre _ Hrc) as (p' & q' & Hp' & Hq' & Hv').
      exists p', q'. cbn in *. by rewrite Hkeep.
Qed.

(** A result of [add] or [sub] of a positive dimension has determinate
    offsets, and defines exactly the cells of its view. *)
Lemma cellwise_Done_dom chk f a b h x :
  0 < h →
  for_ 0 h (λ r, for_ 0 h (λ c, cellwise_step chk f a b r c))
    {| m := ∅; i := a.(i); j := a.(j) |} = Done x →
  ∃ xi xj, x.(i) = Some xi ∧ x.(j) = Some xj ∧
    ∀ r c, 0 ≤ r → 0 ≤ c →
      (is_Some (x.(m) !! (xi + r, xj + c)) ↔ r < h ∧ c < h).
Proof.
  intros Hh H.
  destruct (cellwise_Done_inv _ _ _ _ _ _ H) as (_ & _ & Hin).
  destruct (Hin 0 0) as (? & ? & _ & _ & Hx00); [lia..|]. cbn in Hx00.
  apply elem_offsets in Hx00 as (xi & xj & Hxi & Hxj & _).
  exists xi, xj. split_and!; [done..|]. intros r c Hr Hc. split.
  - intros Hk. apply (cellwise_dom _ _ _ _ _ _ H) in Hk
      as (? & ? & r' & c' & ? & ? & [= ? ?] & ? & ?).
    simplify_eq. lia.
  - intros [Hr' Hc']. destruct (Hin r c) as (p & q & _ & _ & Hx); [lia..|].
    cbn in Hx. apply elem_offsets in Hx as (? & ? & ? & ? & _ & Hx).
    simplify_eq. by eexists.
Qed.

(** The cells an assembly loop leaves defined, for a [Q] that defines
    the cells of its [h]-by-[h] view only. *)
Lemma place_dom Q h lo hi lo' hi' res res' :
  (∃ qi qj, Q.(i) = Some qi ∧ Q.(j) = Some qj ∧
     ∀ r c, 0 ≤ r → 0 ≤ c →
       (is_Some (Q.(m) !! (qi + r, qj + c)) ↔ r < h ∧ c < h)) →
  place Q lo hi lo' hi' res = Done res' →
  ∀ r c, is_Some (res'.(m) !! (r, c)) ↔
    (lo ≤ r < hi ∧ lo' ≤ c < hi' ∧ r - lo < h ∧ c - lo' < h) ∨
    (¬ (lo ≤ r < hi ∧ lo' ≤ c < hi') ∧ is_Some (res.(m) !! (r, c))).
Proof.
  intros (qi & qj & Hqi & Hqj & HQ) H r c.
  apply place_Done_inv in H as (_ & _ & Hin & Hout).
  destruct (decide (lo ≤ r < hi ∧ lo' ≤ c < hi')) as [[Hr Hc]|Hrc].
  - destruct (Hin r c Hr Hc) as (? & ? & ? & ? & ->). simplify_eq.
    rewrite HQ by lia. tauto.
  - rewrite Hout by done. tauto.
Qed.

(** The recursive case leaves exactly the cells of rows and columns
    below [2 * (n / 2)] defined: all of [0, n) for an even [n]; for an
    odd [n] the last row and column are copies of cells that the
    quadrant results leave indeterminate. *)
Lemma strassen_recursive_dom fuel a b n res :
  n ≠ 2 → strassen_matrix_multiply fuel a b n = Done res →
  ∀ r c, is_Some (res.(m) !! (r, c)) ↔
    0 ≤ r < 2 * (n `quot` 2) ∧ 0 ≤ c < 2 * (n `quot` 2).
Proof.
  intros Hn H.
  assert (n = 4 ∨ n = 5) as Hn'
    by (destruct (strassen_returns_only_for_2_4_5 _ _ _ _ _ H)
          as [?|[?|?]]; [done|by left|by right]).
  destruct fuel as [|fuel]; [done|].
  apply strassen_recursive_inv in H
    as (x & y & M1 & M2 & M3 & M4 & M5 & M6 & M7 & S1 & S2 & S4
        & Q1 & Q2 & Q3 & Q4 & r1 & r2 & r3
        & _ & _ & HQ1 & HQ2 & HQ3 & HQ4 & H1 & H2 & H3 & H4); [|done].
  assert (n `quot` 2 = 2) as Hh by (by destruct Hn' as [-> | ->]).
  rewrite Hh in *.
  apply cellwise_Done_dom in HQ1; [|lia]. apply cellwise_Done_dom in HQ2; [|lia].
  apply cellwise_Done_dom in HQ3; [|lia]. apply cellwise_Done_dom in HQ4; [|lia].
  pose proof (place_dom _ _ _ _ _ _ _ _ HQ1 H1) as D1.
  pose proof (place_dom _ _ _ _ _ _ _ _ HQ2 H2) as D2.
  pose proof (place_dom _ _ _ _ _ _ _ _ HQ3 H3) as D3.
  pose proof (place_dom _ _ _ _ _ _ _ _ HQ4 H4) as D4.
  intros r c. rewrite D4, D3, D2, D1. cbn.
  rewrite lookup_empty, is_Some_alt. lia.
Qed.

Lemma in_bounds_true r c :
  0 ≤ r < NUM_ELEMS → 0 ≤ c < NUM_ELEMS → in_bounds r c = true.
Proof.
  intros Hr Hc. unfold in_bounds.
  rewrite !andb_true_iff, !Z.leb_le, !Z.ltb_lt. lia.
Qed.

(** ** The assembly loops *)

Lemma quot_2_bounds n : 0 ≤ n → 0 ≤ n `quot` 2 ∧ 2 * (n `quot` 2) ≤ n.
Proof.
  intros Hn. pose proof (Z.quot_rem' n 2) as Hqr.
  pose proof (Z.rem_bound_pos n 2 Hn). lia.
Qed.

(** One assignment of the assembly loops, whatever the source cell
    holds. *)
Lemma place_elem_copies Q lo lo' r c res qi qj :
  Q.(i) = Some qi → Q.(j) = Some qj →
  0 ≤ qi + (r - lo) < NUM_ELEMS → 0 ≤ qj + (c - lo') < NUM_ELEMS →
  0 ≤ r < NUM_ELEMS → 0 ≤ c < NUM_ELEMS →
  place_elem Q lo lo' r c res
  = Done (set_m (partial_alter
                   (λ _, Q.(m) !! (qi + (r - lo), qj + (c - lo')))
                   (r, c) res.(m)) res).
Proof.
  intros Hqi Hqj Hr' Hc' Hr Hc. unfold place_elem, subscript.
  rewrite Hqi, Hqj. cbn. rewrite !in_bounds_true by done. reflexivity.
Qed.

(** An assembly loop returns as soon as the offsets of its source are
    determinate and all its subscripts are inside the arrays. *)
Lemma place_returns Q lo hi lo' hi' res qi qj :
  Q.(i) = Some qi → Q.(j) = Some qj →
  0 ≤ lo → hi ≤ NUM_ELEMS → 0 ≤ lo' → hi' ≤ NUM_ELEMS →
  0 ≤ qi → qi + (hi - lo) ≤ NUM_ELEMS →
  0 ≤ qj → qj + (hi' - lo') ≤ NUM_ELEMS →
  ∃ res', place Q lo hi lo' hi' res = Done res'.
Proof.
  intros Hqi Hqj Hlo Hhi Hlo' Hhi' Hi0 Hi1 Hj0 Hj1. unfold place.
  rewrite (for_nested (place_elem Q lo lo')).
  assert (∀ xs res0,
    (∀ rc, rc ∈ xs → lo ≤ rc.1 < hi ∧ lo' ≤ rc.2 < hi') →
    ∃ res', foldM (λ rc, place_elem Q lo lo' rc.1 rc.2) xs res0 = Done res')
    as Hrun.
  { induction xs as [|[r c] xs IH]; intros res0 Hxs; cbn [foldM fst snd].
    - by eexists.
    - destruct (Hxs (r, c)) as [Hr Hc]; [by left|]. cbn in Hr, Hc.
      rewrite (place_elem_copies _ _ _ _ _ _ qi qj) by (done || lia).
      rewrite bind_Done. apply IH. intros rc Hrc. apply Hxs. by right. }
  apply Hrun. intros [r c] Hrc%elem_of_traversal. done.
Qed.

Lemma assemble_returns Q1 Q2 Q3 Q4 n res :
  0 ≤ n ≤ NUM_ELEMS →
  fits Q1 (n - n `quot` 2) → fits Q2 (n - n `quot` 2) →
  fits Q3 (n - n `quot` 2) → fits Q4 (n - n `quot` 2) →
  ∃ res', assemble Q1 Q2 Q3 Q4 n res = Done res'.
Proof.
  intros Hn (i1 & j1 & Hi1 & Hj1 & ? & ? & ? & ?)
    (i2 & j2 & Hi2 & Hj2 & ? & ? & ? & ?)
    (i3 & j3 & Hi3 & Hj3 & ? & ? & ? & ?)
    (i4 & j4 & Hi4 & Hj4 & ? & ? & ? & ?).
  unfold assemble. cbv zeta.
  destruct (quot_2_bounds n) as [Hh0 Hh1]; [lia|].
  generalize dependent (n `quot` 2). intros h. intros.
  destruct (place_returns Q1 0 h 0 h res i1 j1) as [r1 ->]; [done|done|lia..|].
  rewrite bind_Done.
  destruct (place_returns Q2 0 h h n r1 i2 j2) as [r2 ->]; [done|done|lia..|].
  rewrite bind_Done.
  destruct (place_returns Q3 h n 0 h r2 i3 j3) as [r3 ->]; [done|done|lia..|].
  rewrite bind_Done.
  destruct (place_returns Q4 h n h n r3 i4 j4) as [r4 ->]; [done|done|lia..|].
  rewrite bind_Done. by eexists.
Qed.

(** What the assembly loops leave, at every dimension: the offsets as
    they were, every cell outside rows and columns [0, n) as it was,
    and in each of the four blocks the copies of the cells of one
    quadrant result. *)
Lemma assemble_Done_inv Q1 Q2 Q3 Q4 n res0 res :
  assemble Q1 Q2 Q3 Q4 n res0 = Done res →
  res.(i) = res0.(i) ∧ res.(j) = res0.(j) ∧
  (∀ r c, ¬ (0 ≤ r < n ∧ 0 ≤ c < n) →
     res.(m) !! (r, c) = res0.(m) !! (r, c)) ∧
  (∀ r c, 0 ≤ r < n `quot` 2 → 0 ≤ c < n `quot` 2 →
     copy_of Q1 r c res r c) ∧
  (∀ r c, 0 ≤ r < n `quot` 2 → n `quot` 2 ≤ c < n →
     copy_of Q2 r (c - n `quot` 2) res r c) ∧
  (∀ r c, n `quot` 2 ≤ r < n → 0 ≤ c < n `quot` 2 →
     copy_of Q3 (r - n `quot` 2) c res r c) ∧
  (∀ r c, n `quot` 2 ≤ r < n → n `quot` 2 ≤ c < n →
     copy_of Q4 (r - n `quot` 2) (c - n `quot` 2) res r c).
Proof.
  unfold assemble. cbv zeta. intros H.
  inv_bind_as H r1 H1. inv_bind_as H r2 H2. inv_bind_as H r3 H3.
  inv_bind_as H r4 H4. injection H as <-.
  apply place_Done_inv in H1 as (Hi1 & Hj1 & In1 & Ho1).
  apply place_Done_inv in H2 as (Hi2 & Hj2 & In2 & Ho2).
  apply place_Done_inv in H3 as (Hi3 & Hj3 & In3 & Ho3).
  apply place_Done_inv in H4 as (Hi4 & Hj4 & In4 & Ho4).
  split_and!; [congruence..| | | | |].
  - intros r c Hrc.
    pose proof (quot_2_ranges n r). pose proof (quot_2_ranges n c).
    rewrite Ho4, Ho3, Ho2, Ho1 by tauto. done.
  - intros r c Hr Hc. destruct (In1 r c Hr Hc) as (qi & qj & ? & ? & E).
    exists qi, qj. split_and!; [done..|].
    rewrite Ho4, Ho3, Ho2, E by lia. by rewrite !Z.sub_0_r.
  - intros r c Hr Hc. destruct (In2 r c Hr Hc) as (qi & qj & ? & ? & E).
    exists qi, qj. split_and!; [done..|].
    rewrite Ho4, Ho3, E by lia. by rewrite !Z.sub_0_r.
  - intros r c Hr Hc. destruct (In3 r c Hr Hc) as (qi & qj & ? & ? & E).
    exists qi, qj. split_and!; [done..|].
    rewrite Ho4, E by lia. by rewrite !Z.sub_0_r.
  - intros r c Hr Hc. destruct (In4 r c Hr Hc) as (qi & qj & ? & ? & E).
    exists qi, qj. split_and!; [done..|]. by rewrite E.
Qed.

(** C10. The offsets of results are not uniform: [add] and [sub] tag
    their result with the first operand's offsets; the [n = 2] case of
    [strassen_matrix_multiply] tags its result with the first input's
    offsets; the recursive case leaves the offsets of its result unset
    and writes to rows and columns [0, n) of the grid only, whatever the
    offsets of the inputs.  This is shown twice.  For the runs of the
    recursive case that return: the offsets of the result are unset, no
    cell outside rows and columns [0, n) is determinate, and the
    determinate cells are those of rows and columns below [2 * (n / 2)]
    (all of them for an even [n]; for an odd [n] the last row and column
    are copies of indeterminate cells).  For the assembly loops by
    themselves, at every dimension and for all quadrant results: they
    leave the offsets and every cell outside [0, n) as they were, fill
    the four blocks of [0, n) with the copies of the quadrant results,
    and return for every [n] up to [NUM_ELEMS] as soon as the views of
    the quadrant results lie inside their arrays. *)
Theorem result_offsets_not_uniform :
  (∀ a b n x, add a b n = Done x → x.(i) = a.(i) ∧ x.(j) = a.(j)) ∧
  (∀ a b n x, sub a b n = Done x → x.(i) = a.(i) ∧ x.(j) = a.(j)) ∧
  (∀ fuel a b c, strassen_matrix_multiply fuel a b 2 = Done c →
     c.(i) = a.(i) ∧ c.(j) = a.(j)) ∧
  (∀ fuel a b n res, n ≠ 2 →
     strassen_matrix_multiply fuel a b n = Done res →
     res.(i) = None ∧ res.(j) = None ∧
     (∀ r c, is_Some (res.(m) !! (r, c)) → 0 ≤ r < n ∧ 0 ≤ c < n) ∧
     (∀ r c, is_Some (res.(m) !! (r, c)) ↔
        0 ≤ r < 2 * (n `quot` 2) ∧ 0 ≤ c < 2 * (n `quot` 2))) ∧
  (∀ Q1 Q2 Q3 Q4 n res0 res,
     assemble Q1 Q2 Q3 Q4 n res0 = Done res →
     res.(i) = res0.(i) ∧ res.(j) = res0.(j) ∧
     (∀ r c, ¬ (0 ≤ r < n ∧ 0 ≤ c < n) →
        res.(m) !! (r, c) = res0.(m) !! (r, c)) ∧
     (∀ r c, 0 ≤ r < n `quot` 2 → 0 ≤ c < n `quot` 2 →
        copy_of Q1 r c res r c) ∧
     (∀ r c, 0 ≤ r < n `quot` 2 → n `quot` 2 ≤ c < n →
        copy_of Q2 r (c - n `quot` 2) res r c) ∧
     (∀ r c, n `quot` 2 ≤ r < n → 0 ≤ c < n `quot` 2 →
        copy_of Q3 (r - n `quot` 2) c res r c) ∧
     (∀ r c, n `quot` 2 ≤ r < n → n `quot` 2 ≤ c < n →
        copy_of Q4 (r - n `quot` 2) (c - n `quot` 2) res r c)) ∧
  (∀ Q1 Q2 Q3 Q4 n res0,
     0 ≤ n ≤ NUM_ELEMS →
     fits Q1 (n - n `quot` 2) → fits Q2 (n - n `quot` 2) →
     fits Q3 (n - n `quot` 2) → fits Q4 (n - n `quot` 2) →
     ∃ res, assemble Q1 Q2 Q3 Q4 n res0 = Done res).
Proof.
  split_and!.
  - apply add_offsets.
  - apply sub_offsets.
  - intros [|fuel] a b c H; [done|]. by apply strassen_2x2_offsets in H.
  - intros fuel a b n res Hn H.
    destruct (strassen_recursive_Done_inv _ _ _ _ _ Hn H) as (Hi & Hj & Hout).
    split_and!; [done..|]. by eapply strassen_recursive_dom.
  - apply assemble_Done_inv.
  - apply assemble_returns.
Qed.

(** ** Quadrants *)

Lemma copy_elem_spec m2 xi xj r c m1 :
  m1.(i) = Some xi → m1.(j) = Some xj → in_bounds (xi + r) (xj + c) = true →
  copy_elem m2 r c m1
  = Done (set_m (partial_alter (λ _, m2.(m) !! (xi + r, xj + c))
                   (xi + r, xj + c) m1.(m)) m1).
Proof.
  intros Hi Hj Hin. unfold copy_elem, subscript. rewrite Hi, Hj. cbn.
  by rewrite Hin.
Qed.

Lemma copy_run m2 xi xj xs m1 :
  m1.(i) = Some xi → m1.(j) = Some xj →
  (∀ rc, rc ∈ xs → in_bounds (xi + rc.1) (xj + rc.2) = true) →
  ∃ x, foldM (λ rc, copy_elem m2 rc.1 rc.2) xs m1 = Done x ∧
       x.(i) = Some xi ∧ x.(j) = Some xj ∧
       ∀ k, (k ∈ (λ rc, (xi + rc.1, xj + rc.2)) <$> xs →
               x.(m) !! k = m2.(m) !! k) ∧
            (k ∉ (λ rc, (xi + rc.1, xj + rc.2)) <$> xs →
               x.(m) !! k = m1.(m) !! k).
Proof.
  revert m1. induction xs as [|rc xs IH]; intros m1 Hi Hj Hin; cbn [foldM].
  - exists m1. split_and!; [done..|]. intros k. split; [|done].
    intros Hk. by apply elem_of_nil in Hk.
  - rewrite (copy_elem_spec m2 xi xj) by (try apply Hin; by try left). cbn.
    edestruct (IH (set_m (partial_alter (λ _, m m2 !! (xi + rc.1, xj + rc.2))
                            (xi + rc.1, xj + rc.2) (m m1)) m1))
      as (x & -> & Hxi & Hxj & Hx); [done..| |].
    { intros k Hk. apply Hin. by right. }
    exists x. split_and!; [done..|]. intros k.
    destruct (Hx k) as [Hcopied Hkept]. cbn in Hkept.
    destruct (decide (k ∈ (λ rc, (xi + rc.1, xj + rc.2)) <$> xs)) as [Hk|Hk].
    + split; [auto|]. intros Hn. exfalso. apply Hn. by right.
    + rewrite (Hkept Hk). split.
      * intros [->|?]%elem_of_cons; [|done].
        by rewrite lookup_partial_alter_eq.
      * intros Hn. rewrite lookup_partial_alter_ne; [done|].
        intros <-. apply Hn. by left.
Qed.

(** A quadrant that lies inside the array is extracted without fault
    and holds the cells of its source. *)
Lemma quadrant_spec a xi xj h :
  0 ≤ xi → 0 ≤ xj → xi + h ≤ NUM_ELEMS → xj + h ≤ NUM_ELEMS →
  ∃ Q, quadrant a (Some xi) (Some xj) h = Done Q ∧
       Q.(i) = Some xi ∧ Q.(j) = Some xj ∧
       ∀ r c, 0 ≤ r < h → 0 ≤ c < h →
         Q.(m) !! (xi + r, xj + c) = a.(m) !! (xi + r, xj + c).
Proof.
  intros Hxi Hxj Hhi Hhj. unfold quadrant, copy_elems_to_quad.
  rewrite (for_nested (copy_elem a)).
  destruct (copy_run a xi xj (traversal 0 h 0 h)
              {| m := ∅; i := Some xi; j := Some xj |})
    as (Q & -> & Hi & Hj & HQ); [done..| |].
  { intros [r c] [Hr Hc]%elem_of_traversal. cbn. apply in_bounds_true; lia. }
  exists Q. split_and!; [done..|]. intros r c Hr Hc.
  apply HQ. apply list_elem_of_fmap. exists (r, c). split; [done|].
  apply elem_of_traversal. lia.
Qed.

(** C9. For an [n]-by-[n] matrix [M] that lies inside the array (in
    particular for [n] a power of two, [n ≥ 4]), extracting the top-left
    quadrant of [M] and then the top-left quadrant of the result gives a
    view whose cells, for rows and columns below [n/4], are the cells
    obtained by addressing [M] directly. *)
Theorem quadrant_top_left_twice M n mi mj :
  M.(i) = Some mi → M.(j) = Some mj →
  0 ≤ mi → 0 ≤ mj → 4 ≤ n → mi + n ≤ NUM_ELEMS → mj + n ≤ NUM_ELEMS →
  ∃ Q1 Q2,
    quadrant M M.(i) M.(j) (n `quot` 2) = Done Q1 ∧
    quadrant Q1 Q1.(i) Q1.(j) ((n `quot` 2) `quot` 2) = Done Q2 ∧
    ∀ r c, 0 ≤ r < n `quot` 4 → 0 ≤ c < n `quot` 4 →
      cell Q2 r c = cell M r c.
Proof.
  intros Hi Hj Hmi Hmj Hn Hni Hnj.
  assert ((n `quot` 2) `quot` 2 = n `quot` 4) as Hq4
    by (rewrite Z.quot_quot; done).
  assert (0 ≤ n `quot` 4 ≤ n `quot` 2 ∧ n `quot` 2 ≤ n) as (Hq & Hh).
  { rewrite <- Hq4.
    pose proof (Z.quot_rem' n 2) as E1.
    pose proof (Z.rem_bound_pos n 2) as B1.
    pose proof (Z.quot_rem' (n `quot` 2) 2) as E2.
    pose proof (Z.rem_bound_pos (n `quot` 2) 2) as B2.
    lia. }
  destruct (quadrant_spec M mi mj (n `quot` 2))
    as (Q1 & HQ1 & Hi1 & Hj1 & Hcells1); [lia..|].
  destruct (quadrant_spec Q1 mi mj (n `quot` 4))
    as (Q2 & HQ2 & Hi2 & Hj2 & Hcells2); [lia..|].
  exists Q1, Q2. rewrite Hi, Hj, Hi1, Hj1, Hq4. split_and!; [done..|].
  intros r c Hr Hc. unfold cell, load. rewrite Hi, Hj, Hi2, Hj2. cbn.
  destruct (subscript (mi + r) (mj + c)) as [k| | |] eqn:Hk; [|done..]. cbn.
  unfold subscript in Hk. destruct (in_bounds _ _); [|done]. simplify_eq.
  rewrite Hcells2, Hcells1 by lia. done.
Qed.

(** ** Which diagnostics a run can exit with *)

Lemma exits_only_bind {A B} P (o : outcome A) (k : A → outcome B) :
  exits_only P o → (∀ x, exits_only P (k x)) → exits_only P (o ≫= k).
Proof.
  intros Ho Hk f. destruct o; cbn; [exact (Hk _ f)| |done..].
  intros [= ->]. by apply Ho.
Qed.

Lemma exits_only_Done {A} P (x : A) : exits_only P (Done x).
Proof. by intros f. Qed.

Lemma exits_only_Undefined {A} P u : exits_only P (@Undefined A u).
Proof. by intros f. Qed.

Lemma exits_only_OutOfFuel {A} P : exits_only P (@OutOfFuel A).
Proof. by intros f. Qed.

Lemma exits_only_foldM {X S} P (body : X → S → outcome S) xs s :
  (∀ x s, exits_only P (body x s)) → exits_only P (foldM body xs s).
Proof.
  intros Hbody. revert s. induction xs as [|x xs IH]; intros s; cbn.
  - apply exits_only_Done.
  - apply exits_only_bind; auto.
Qed.

Lemma exits_only_for {S} P lo hi (body : Z → S → outcome S) s :
  (∀ r s, exits_only P (body r s)) → exits_only P (for_ lo hi body s).
Proof. apply exits_only_foldM. Qed.

Lemma exits_only_use P o : exits_only P (use o).
Proof. by destruct o. Qed.

Lemma exits_only_subscript P r c : exits_only P (subscript r c).
Proof. unfold subscript. by destruct (in_bounds r c). Qed.

Create HintDb exits.
#[local] Hint Resolve exits_only_bind exits_only_Done exits_only_Undefined
  exits_only_OutOfFuel exits_only_for exits_only_use exits_only_subscript
  : exits.

Lemma exits_only_load P g r c : exits_only P (load g r c).
Proof. unfold load. auto with exits. Qed.

Lemma exits_only_store P g r c v : exits_only P (store g r c v).
Proof. unfold store. auto with exits. Qed.

#[local] Hint Resolve exits_only_load exits_only_store : exits.

Lemma exits_only_cell P x r c : exits_only P (cell x r c).
Proof. unfold cell. auto with exits. Qed.

Lemma exits_only_assign P x r c v : exits_only P (assign x r c v).
Proof. unfold assign. auto 10 with exits. Qed.

Lemma exits_only_copy_elem P m2 r c m1 : exits_only P (copy_elem m2 r c m1).
Proof. unfold copy_elem. auto 10 with exits. Qed.

#[local] Hint Resolve exits_only_cell exits_only_assign exits_only_copy_elem
  : exits.

Lemma exits_only_round_trip s x y e :
  is_overflow e → exits_only is_overflow (round_trip s x y e).
Proof.
  intros He. unfold round_trip, int_div.
  destruct (x =? 0); [by intros f|].
  destruct (_ && _); [by intros f|]. cbn.
  destruct (_ =? y); intros f [= <-]; exact He.
Qed.

Lemma exits_only_check_overflow a b add mult :
  exits_only is_overflow (check_overflow a b add mult).
Proof.
  unfold check_overflow. apply exits_only_bind.
  - destruct add; [|by intros f]. cbn.
    repeat (destruct (_ && _ && _)); intros f [= <-]; exact I.
  - intros _. destruct mult; [|by intros f].
    apply exits_only_bind; [|intros _]; by apply exits_only_round_trip.
Qed.

#[local] Hint Resolve exits_only_check_overflow : exits.

Lemma exits_only_add a b n :
  exits_only is_overflow (add a b n).
Proof. unfold add. auto 20 with exits. Qed.

Lemma exits_only_sub a b n :
  exits_only is_overflow (sub a b n).
Proof. unfold sub. auto 20 with exits. Qed.

Lemma exits_only_quadrant P a oi oj h : exits_only P (quadrant a oi oj h).
Proof. unfold quadrant, copy_elems_to_quad. auto 10 with exits. Qed.

Lemma exits_only_place P Q lo hi lo' hi' res :
  exits_only P (place Q lo hi lo' hi' res).
Proof. unfold place, place_elem. auto 10 with exits. Qed.

Lemma exits_only_lift2 f e1 e2 :
  exits_only is_overflow e1 →
  exits_only is_overflow e2 →
  exits_only is_overflow (lift2 f e1 e2).
Proof. unfold lift2. auto 10 with exits. Qed.

Lemma exits_only_neg e :
  exits_only is_overflow e →
  exits_only is_overflow (neg e).
Proof. unfold neg. auto 10 with exits. Qed.

Lemma exits_only_check e1 e2 add mult :
  exits_only is_overflow e1 →
  exits_only is_overflow e2 →
  exits_only is_overflow (check e1 e2 add mult).
Proof. unfold check. auto 10 with exits. Qed.

#[local] Hint Resolve exits_only_add exits_only_sub exits_only_quadrant
  exits_only_place exits_only_lift2 exits_only_neg exits_only_check : exits.

Lemma exits_only_strassen_2x2 a b :
  exits_only is_overflow (strassen_2x2 a b).
Proof.
  unfold strassen_2x2. apply exits_only_bind.
  - unfold strassen_2x2_products. cbn zeta.
    repeat (apply exits_only_bind; [auto 10 with exits|intros ?]).
    apply exits_only_Done.
  - intros [[[[[[m1 m2] m3] m4] m5] m6] m7]. unfold strassen_2x2_assemble.
    repeat (apply exits_only_bind; [auto 10 with exits|intros ?]).
    apply exits_only_Done.
Qed.

Lemma exits_only_strassen fuel a b n :
  exits_only is_overflow
    (strassen_matrix_multiply fuel a b n).
Proof.
  revert a b n. induction fuel as [|fuel IH]; intros a b n; cbn.
  - apply exits_only_OutOfFuel.
  - destruct (n =? 2); [apply exits_only_strassen_2x2|].
    unfold strassen_recursive, assemble.
    repeat (apply exits_only_bind; [auto 10 with exits|intros ?]).
    apply exits_only_Done.
Qed.

(** C2, as the code has it.  A dimension above the capacity of the
    array is rejected in [main], by the [-n] option, with a failure exit
    before [strassen_matrix_multiply] is called, whatever the inputs;
    [strassen_matrix_multiply] itself validates nothing: whatever the
    dimension and the inputs, the only diagnostics it exits with are
    those of an arithmetic overflow. *)
Theorem dimension_checked_only_in_main :
  (∀ fuel m1 m2 n, NUM_ELEMS < n →
     main_multiply fuel m1 m2 n = Exit DimensionTooLarge) ∧
  (∀ fuel a b n f,
     strassen_matrix_multiply fuel a b n = Exit f → is_overflow f).
Proof.
  split.
  - intros fuel m1 m2 n Hn. unfold main_multiply, main_option_n.
    destruct (Z.ltb_spec NUM_ELEMS n); [done|lia].
  - intros fuel a b n f. apply exits_only_strassen.
Qed.

(** ** The standard multiplication of main *)

Lemma wrap_add_r x y : wrap (x + wrap y) = wrap (x + y).
Proof. rewrite (Z.add_comm x), wrap_add_l. f_equal. lia. Qed.

Lemma exits_only_multiply_naive m1 m2 m3 n :
  exits_only (λ _, False) (multiply_naive m1 m2 m3 n).
Proof.
  unfold multiply_naive.
  apply exits_only_for. intros r x. apply exits_only_for. intros c y.
  apply exits_only_bind; [auto with exits|]. intros g.
  apply exits_only_for. intros k z. unfold accumulate. auto 30 with exits.
Qed.

Section naive.
Context (m1 m2 : matrix) (n : Z).
Hypothesis n_fits : n ≤ NUM_ELEMS.
Hypothesis determinate : ∀ r c, 0 ≤ r < n → 0 ≤ c < n →
  is_Some (m1.(m) !! (r, c)) ∧ is_Some (m2.(m) !! (r, c)).

Lemma load_in_range g r c v :
  0 ≤ r < n → 0 ≤ c < n → g !! (r, c) = Some v → load g r c = Done v.
Proof.
  intros Hr Hc Hv. unfold load, subscript.
  rewrite in_bounds_true by lia. cbn. by rewrite Hv.
Qed.

Lemma accumulate_step r c k x acc p q :
  0 ≤ r < n → 0 ≤ c < n → 0 ≤ k < n →
  x.(m) !! (r, c) = Some acc →
  m1.(m) !! (r, k) = Some p → m2.(m) !! (k, c) = Some q →
  accumulate m1 m2 r c k x = Done (set_m (<[(r, c) := acc +i p *i q]> x.(m)) x).
Proof.
  intros Hr Hc Hk Hacc Hp Hq. unfold accumulate, store, subscript.
  rewrite (load_in_range _ _ _ _ Hr Hc Hacc),
    (load_in_range _ _ _ _ Hr Hk Hp), (load_in_range _ _ _ _ Hk Hc Hq).
  cbn. by rewrite in_bounds_true by lia.
Qed.

Lemma accumulate_run r c ks x acc :
  0 ≤ r < n → 0 ≤ c < n → (∀ k, k ∈ ks → 0 ≤ k < n) →
  x.(m) !! (r, c) = Some (wrap acc) →
  ∃ x', foldM (accumulate m1 m2 r c) ks x = Done x' ∧
        x'.(m) !! (r, c) = Some (wrap (foldl (dot_step m1.(m) m2.(m) r c) acc ks)) ∧
        ∀ k, k ≠ (r, c) → x'.(m) !! k = x.(m) !! k.
Proof.
  intros Hr Hc. revert x acc.
  induction ks as [|k ks IH]; intros x acc Hks Hacc; cbn [foldM foldl].
  - by exists x.
  - assert (0 ≤ k < n) as Hk by (apply Hks; by left).
    destruct (determinate r k Hr Hk) as [[p Hp] _].
    destruct (determinate k c Hk Hc) as [_ [q Hq]].
    rewrite (accumulate_step r c k x _ p q) by done. cbn.
    destruct (IH (set_m (<[(r, c) := wrap acc +i p *i q]> (m x)) x)
                 (dot_step m1.(m) m2.(m) r c acc k)) as (x' & -> & Hrc & Hother).
    { intros k' Hk'. apply Hks. by right. }
    { cbn. rewrite lookup_insert_eq. f_equal. unfold dot_step, int_add, int_mul.
      rewrite Hp, Hq. cbn. by rewrite wrap_add_r, wrap_add_l. }
    exists x'. split_and!; [done..|]. intros k' Hk'.
    rewrite Hother by done. cbn. by rewrite lookup_insert_ne.
Qed.

Lemma naive_cell r c x :
  0 ≤ r < n → 0 ≤ c < n →
  ∃ x', (g ← store x.(m) r c 0; for_ 0 n (accumulate m1 m2 r c) (set_m g x))
        = Done x' ∧
        x'.(m) !! (r, c) = Some (wrap (dot m1.(m) m2.(m) r c n)) ∧
        ∀ k, k ≠ (r, c) → x'.(m) !! k = x.(m) !! k.
Proof.
  intros Hr Hc. unfold store, subscript. rewrite in_bounds_true by lia. cbn.
  destruct (accumulate_run r c (seqZ 0 (n - 0))
              (set_m (<[(r, c) := 0]> (m x)) x) 0 Hr Hc)
    as (x' & Hrun & Hrc & Hother).
  { intros k Hk%elem_of_seqZ. lia. }
  { cbn. by rewrite lookup_insert_eq. }
  exists x'. split_and!; [done| |].
  - rewrite Hrc. unfold dot. by rewrite Z.sub_0_r.
  - intros k Hk. rewrite Hother by done. cbn. by rewrite lookup_insert_ne.
Qed.

Lemma naive_run xs x :
  (∀ rc, rc ∈ xs → 0 ≤ rc.1 < n ∧ 0 ≤ rc.2 < n) →
  ∃ x', foldM (λ rc m3, g ← store m3.(m) rc.1 rc.2 0;
                 for_ 0 n (accumulate m1 m2 rc.1 rc.2) (set_m g m3)) xs x
        = Done x' ∧
        ∀ k, (k ∈ xs →
                x'.(m) !! k = Some (wrap (dot m1.(m) m2.(m) k.1 k.2 n))) ∧
             (k ∉ xs → x'.(m) !! k = x.(m) !! k).
Proof.
  revert x. induction xs as [|[r c] xs IH]; intros x Hxs; cbn [foldM fst snd].
  - exists x. split; [done|]. intros k. split; [|done].
    intros Hk. by apply elem_of_nil in Hk.
  - destruct (Hxs (r, c)) as [Hr Hc]; [by left|]. cbn in Hr, Hc.
    destruct (naive_cell r c x Hr Hc) as (x1 & -> & Hrc & Hother). cbn.
    destruct (IH x1) as (x' & -> & Hx').
    { intros rc Hrc'. apply Hxs. by right. }
    exists x'. split; [done|]. intros k. destruct (Hx' k) as [Hin Hout].
    destruct (decide (k ∈ xs)) as [Hk|Hk].
    + split; [auto|]. intros Hn. exfalso. apply Hn. by right.
    + rewrite (Hout Hk). split.
      * intros [->|?]%elem_of_cons; done.
      * intros Hn. apply Hother. intros ->. apply Hn. by left.
Qed.

Lemma multiply_naive_wraps m3 :
  ∃ res, multiply_naive m1 m2 m3 n = Done res ∧
         ∀ r c, 0 ≤ r < n → 0 ≤ c < n →
           res.(m) !! (r, c) = Some (wrap (dot m1.(m) m2.(m) r c n)).
Proof.
  unfold multiply_naive.
  rewrite (for_nested (λ r c m3, g ← store m3.(m) r c 0;
                         for_ 0 n (accumulate m1 m2 r c) (set_m g m3))).
  destruct (naive_run (traversal 0 n 0 n) m3) as (res & -> & Hres).
  { intros [r c] [Hr Hc]%elem_of_traversal. cbn. lia. }
  exists res. split; [done|]. intros r c Hr Hc.
  apply (Hres (r, c)). apply elem_of_traversal. lia.
Qed.
End naive.

(** C8, as the code has it.  The standard multiplication in [main]
    performs no overflow check: it never exits with a diagnostic; on
    [n]-by-[n] inputs with determinate cells it returns, and its cell
    (r,c) is the dot product of row r and column c reduced to the [int]
    range by wrap-around, hence the exact dot product when every
    running sum is representable. *)
Theorem multiply_naive_unchecked m1 m2 m3 n :
  (∀ f, multiply_naive m1 m2 m3 n ≠ Exit f) ∧
  (n ≤ NUM_ELEMS →
   (∀ r c, 0 ≤ r < n → 0 ≤ c < n →
      is_Some (m1.(m) !! (r, c)) ∧ is_Some (m2.(m) !! (r, c))) →
   ∃ res, multiply_naive m1 m2 m3 n = Done res ∧
          ∀ r c, 0 ≤ r < n → 0 ≤ c < n →
            res.(m) !! (r, c) = Some (wrap (dot m1.(m) m2.(m) r c n)) ∧
            (representable (dot m1.(m) m2.(m) r c n) →
             res.(m) !! (r, c) = Some (dot m1.(m) m2.(m) r c n))).
Proof.
  split.
  - intros f H. by apply exits_only_multiply_naive in H.
  - intros Hn Hdet.
    destruct (multiply_naive_wraps m1 m2 n Hn Hdet m3) as (res & Hrun & Hres).
    exists res. split; [done|]. intros r c Hr Hc.
    split; [by apply Hres|]. intros Hrep. rewrite Hres by done.
    by rewrite wrap_small.
Qed.

(** ** Exactness on bounded inputs *)

Lemma elem_val x r c : is_Some (elem x r c) → elem x r c = Some (val x r c).
Proof. unfold val. by intros [v ->]. Qed.

Lemma val_elem x r c v : elem x r c = Some v → val x r c = v.
Proof. unfold val. by intros ->. Qed.

Lemma abs_mul_le p q P Q :
  - P ≤ p ≤ P → - Q ≤ q ≤ Q → - (P * Q) ≤ p * q ≤ P * Q.
Proof. nia. Qed.

Ltac unwrap_with tac :=
  repeat match goal with
         | |- context [wrap ?t] =>
             lazymatch t with
             | context [wrap _] => fail
             | _ => rewrite (wrap_small t) by tac
             end
         end.

Lemma representable_mul p q :
  - 16384 ≤ p ≤ 16384 → - 16384 ≤ q ≤ 16384 → representable (p * q).
Proof.
  intros Hp Hq. pose proof (abs_mul_le p q 16384 16384 Hp Hq).
  unfold representable, INT_MIN, INT_MAX. lia.
Qed.

Lemma dot2_bound x y z w :
  - (8192) ≤ x ≤ 8192 → - (8192) ≤ y ≤ 8192 →
  - (8192) ≤ z ≤ 8192 → - (8192) ≤ w ≤ 8192 →
  - (134217728) ≤ x * y + z * w ≤ 134217728.
Proof.
  intros Hx Hy Hz Hw.
  pose proof (abs_mul_le x y 8192 8192 Hx Hy).
  pose proof (abs_mul_le z w 8192 8192 Hz Hw). lia.
Qed.

Ltac solve_representable :=
  first [ apply representable_mul; lia
        | unfold representable, INT_MIN, INT_MAX; lia ].

Lemma assign_spec x xi xj r c v :
  x.(i) = Some xi → x.(j) = Some xj → in_bounds (xi + r) (xj + c) = true →
  assign x r c v = Done (set_m (<[(xi + r, xj + c) := v]> x.(m)) x).
Proof.
  intros Hi Hj Hin. unfold assign, store, subscript. rewrite Hi, Hj. cbn.
  by rewrite Hin.
Qed.

(** The checks and products of the [n = 2] case on operands of
    absolute value at most 8192. *)
Lemma strassen_2x2_products_exact a b a00 a01 a10 a11 b00 b01 b10 b11 :
  elem a 0 0 = Some a00 → elem a 0 1 = Some a01 →
  elem a 1 0 = Some a10 → elem a 1 1 = Some a11 →
  elem b 0 0 = Some b00 → elem b 0 1 = Some b01 →
  elem b 1 0 = Some b10 → elem b 1 1 = Some b11 →
  - 8192 ≤ a00 ≤ 8192 → - 8192 ≤ a01 ≤ 8192 →
  - 8192 ≤ a10 ≤ 8192 → - 8192 ≤ a11 ≤ 8192 →
  - 8192 ≤ b00 ≤ 8192 → - 8192 ≤ b01 ≤ 8192 →
  - 8192 ≤ b10 ≤ 8192 → - 8192 ≤ b11 ≤ 8192 →
  strassen_2x2_products a b
  = Done ((a00 + a11) * (b00 + b11), (a10 + a11) * b00, a00 * (b01 - b11),
          a11 * (b10 - b00), (a00 + a01) * b11, (a10 - a00) * (b00 + b01),
          (a01 - a11) * (b10 + b11)).
Proof.
  intros Ea00 Ea01 Ea10 Ea11 Eb00 Eb01 Eb10 Eb11.
  intros Ba00 Ba01 Ba10 Ba11 Bb00 Bb01 Bb10 Bb11.
  unfold strassen_2x2_products, check, lift2, neg.
  rewrite !(cell_elem _ _ _ _ Ea00), !(cell_elem _ _ _ _ Ea01),
    !(cell_elem _ _ _ _ Ea10), !(cell_elem _ _ _ _ Ea11),
    !(cell_elem _ _ _ _ Eb00), !(cell_elem _ _ _ _ Eb01),
    !(cell_elem _ _ _ _ Eb10), !(cell_elem _ _ _ _ Eb11).
  rewrite !bind_Done.
  unfold int_add, int_sub, int_mul, int_neg.
  unwrap_with solve_representable.
  repeat (first [rewrite check_add_pass by solve_representable
                | rewrite check_mult_pass by solve_representable];
          rewrite bind_Done).
  reflexivity.
Qed.

(** The checks on the sums and the four assignments, for products of
    absolute value at most 2^28. *)
Lemma strassen_2x2_assemble_exact a ai aj m1 m2 m3 m4 m5 m6 m7 :
  a.(i) = Some ai → a.(j) = Some aj →
  in_bounds (ai + 0) (aj + 0) = true → in_bounds (ai + 0) (aj + 1) = true →
  in_bounds (ai + 1) (aj + 0) = true → in_bounds (ai + 1) (aj + 1) = true →
  - 268435456 ≤ m1 ≤ 268435456 → - 268435456 ≤ m2 ≤ 268435456 →
  - 268435456 ≤ m3 ≤ 268435456 → - 268435456 ≤ m4 ≤ 268435456 →
  - 268435456 ≤ m5 ≤ 268435456 → - 268435456 ≤ m6 ≤ 268435456 →
  - 268435456 ≤ m7 ≤ 268435456 →
  strassen_2x2_assemble a (m1, m2, m3, m4, m5, m6, m7)
  = Done {| m := <[(ai + 1, aj + 1) := m1 - m2 + m3 + m6]>
                   (<[(ai + 1, aj + 0) := m2 + m4]>
                      (<[(ai + 0, aj + 1) := m3 + m5]>
                         (<[(ai + 0, aj + 0) := m1 + m4 - m5 + m7]> ∅)));
            i := Some ai; j := Some aj |}.
Proof.
  intros Hai Haj Hin00 Hin01 Hin10 Hin11 B1 B2 B3 B4 B5 B6 B7.
  unfold strassen_2x2_assemble, int_add, int_sub, int_neg.
  unwrap_with solve_representable.
  repeat (rewrite check_add_pass by solve_representable; rewrite bind_Done).
  rewrite (assign_spec _ ai aj 0 0) by done. rewrite bind_Done.
  rewrite (assign_spec _ ai aj 0 1) by done. rewrite bind_Done.
  rewrite (assign_spec _ ai aj 1 0) by done. rewrite bind_Done.
  rewrite (assign_spec _ ai aj 1 1) by done. rewrite bind_Done.
  unfold set_m. cbn. by rewrite Hai, Haj.
Qed.

Lemma strassen_2x2_exact a b :
  bounded_view a 2 8192 → bounded_view b 2 8192 →
  ∃ c, strassen_2x2 a b = Done c ∧ c.(i) = a.(i) ∧ c.(j) = a.(j) ∧
       bounded_view c 2 134217728 ∧
       ∀ r s, 0 ≤ r < 2 → 0 ≤ s < 2 →
         val c r s = val a r 0 * val b 0 s + val a r 1 * val b 1 s.
Proof.
  intros Ha Hb.
  destruct (Ha 0 0) as [Ea00 Ba00]; [lia..|]. apply elem_val in Ea00.
  destruct (Ha 0 1) as [Ea01 Ba01]; [lia..|]. apply elem_val in Ea01.
  destruct (Ha 1 0) as [Ea10 Ba10]; [lia..|]. apply elem_val in Ea10.
  destruct (Ha 1 1) as [Ea11 Ba11]; [lia..|]. apply elem_val in Ea11.
  destruct (Hb 0 0) as [Eb00 Bb00]; [lia..|]. apply elem_val in Eb00.
  destruct (Hb 0 1) as [Eb01 Bb01]; [lia..|]. apply elem_val in Eb01.
  destruct (Hb 1 0) as [Eb10 Bb10]; [lia..|]. apply elem_val in Eb10.
  destruct (Hb 1 1) as [Eb11 Bb11]; [lia..|]. apply elem_val in Eb11.
  destruct (elem_offsets _ _ _ _ Ea00) as (ai & aj & Hai & Haj & Hin00 & _).
  destruct (elem_offsets _ _ _ _ Ea01) as (? & ? & ? & ? & Hin01 & _).
  destruct (elem_offsets _ _ _ _ Ea10) as (? & ? & ? & ? & Hin10 & _).
  destruct (elem_offsets _ _ _ _ Ea11) as (? & ? & ? & ? & Hin11 & _).
  simplify_eq. clear Ha Hb.
  unfold strassen_2x2.
  rewrite (strassen_2x2_products_exact a b _ _ _ _ _ _ _ _
             Ea00 Ea01 Ea10 Ea11 Eb00 Eb01 Eb10 Eb11) by done.
  rewrite bind_Done.
  rewrite (strassen_2x2_assemble_exact a ai aj) by
    first [done | apply abs_mul_le with (P := 16384) (Q := 16384); lia].
  eexists. split; [done|]. cbn [i j m]. split; [done|]. split; [done|].
  match goal with
  | |- context [bounded_view ?x _ _] =>
      assert (∀ r s, 0 ≤ r < 2 → 0 ≤ s < 2 →
                elem x r s
                = Some (val a r 0 * val b 0 s + val a r 1 * val b 1 s))
        as Hcells
  end.
  { intros r s Hr Hs. unfold elem. cbn [i j m]. cbn [mbind option_bind].
    assert (r = 0 ∨ r = 1) as [-> | ->] by lia;
      assert (s = 0 ∨ s = 1) as [-> | ->] by lia;
      first [rewrite Hin00 | rewrite Hin01 | rewrite Hin10 | rewrite Hin11];
      repeat (rewrite lookup_insert_ne by (intros [=]; lia));
      rewrite lookup_insert_eq; f_equal; ring. }
  split.
  - intros r s Hr Hs. rewrite (val_elem _ _ _ _ (Hcells r s Hr Hs)).
    split; [by rewrite Hcells|].
    assert (r = 0 ∨ r = 1) as [-> | ->] by lia;
      assert (s = 0 ∨ s = 1) as [-> | ->] by lia;
      by apply dot2_bound.
  - intros r s Hr Hs. by apply val_elem, Hcells.
Qed.

(** An elementwise loop whose check passes on every cell. *)
Lemma cellwise_exact chk f g x y h :
  (∀ r c, 0 ≤ r < h → 0 ≤ c < h →
     is_Some (elem x r c) ∧ is_Some (elem y r c) ∧
     chk (val x r c) (val y r c) = Done () ∧
     f (val x r c) (val y r c) = g (val x r c) (val y r c)) →
  ∃ z, for_ 0 h (λ r, for_ 0 h (λ c, cellwise_step chk f x y r c))
         {| m := ∅; i := x.(i); j := x.(j) |} = Done z ∧
       z.(i) = x.(i) ∧ z.(j) = x.(j) ∧
       ∀ r c, 0 ≤ r < h → 0 ≤ c < h →
         is_Some (elem z r c) ∧ val z r c = g (val x r c) (val y r c).
Proof.
  intros Hcells. rewrite (for_nested (cellwise_step chk f x y)).
  destruct (cellwise_run chk f x y (traversal 0 h 0 h)
              {| m := ∅; i := x.(i); j := x.(j) |})
    as (z & -> & Hi & Hj & Hz); [|done..|].
  { apply Forall_forall. intros [r c] [Hr Hc]%elem_of_traversal.
    destruct (Hcells r c Hr Hc) as (Ex & Ey & Hchk & _).
    exists (val x r c), (val y r c). cbn. by rewrite !elem_val. }
  exists z. split_and!; [done..|]. intros r c Hr Hc.
  destruct (Hz (r, c)) as (p & q & Hp & Hq & Hv).
  { left. apply elem_of_traversal. lia. }
  cbn in Hp, Hq, Hv. destruct (Hcells r c Hr Hc) as (_ & _ & _ & Hfg).
  rewrite (val_elem _ _ _ _ Hp), (val_elem _ _ _ _ Hq) in Hfg.
  rewrite (val_elem _ _ _ _ Hv), (val_elem _ _ _ _ Hp), (val_elem _ _ _ _ Hq).
  split; [by rewrite Hv|done].
Qed.

Lemma add_exact x y h Bx By :
  bounded_view x h Bx → bounded_view y h By → Bx + By ≤ INT_MAX →
  ∃ z, add x y h = Done z ∧ z.(i) = x.(i) ∧ z.(j) = x.(j) ∧
       bounded_view z h (Bx + By) ∧
       ∀ r c, 0 ≤ r < h → 0 ≤ c < h → val z r c = val x r c + val y r c.
Proof.
  intros Hx Hy HB.
  destruct (cellwise_exact (λ p q, check_overflow p q true false)
              int_add Z.add x y h) as (z & Hrun & Hi & Hj & Hz).
  { intros r c Hr Hc. destruct (Hx r c Hr Hc) as [Ex Bx'].
    destruct (Hy r c Hr Hc) as [Ey By']. split_and!; [done..| |].
    - apply check_add_pass; unfold representable, INT_MIN, INT_MAX in *; lia.
    - apply wrap_small. unfold representable, INT_MIN, INT_MAX in *. lia. }
  exists z. split_and!; [done..| |].
  - intros r c Hr Hc. destruct (Hz r c Hr Hc) as [Ez ->].
    destruct (Hx r c Hr Hc) as [_ Bx']. destruct (Hy r c Hr Hc) as [_ By'].
    split; [done|lia].
  - intros r c Hr Hc. by apply Hz.
Qed.

Lemma sub_exact x y h Bx By :
  bounded_view x h Bx → bounded_view y h By → Bx + By ≤ INT_MAX →
  ∃ z, sub x y h = Done z ∧ z.(i) = x.(i) ∧ z.(j) = x.(j) ∧
       bounded_view z h (Bx + By) ∧
       ∀ r c, 0 ≤ r < h → 0 ≤ c < h → val z r c = val x r c - val y r c.
Proof.
  intros Hx Hy HB.
  destruct (cellwise_exact (λ p q, check_overflow p (int_neg q) true false)
              int_sub Z.sub x y h) as (z & Hrun & Hi & Hj & Hz).
  { intros r c Hr Hc. destruct (Hx r c Hr Hc) as [Ex Bx'].
    destruct (Hy r c Hr Hc) as [Ey By']. split_and!; [done..| |].
    - unfold int_neg. rewrite wrap_small
        by (unfold representable, INT_MIN, INT_MAX in *; lia).
      apply check_add_pass; unfold representable, INT_MIN, INT_MAX in *; lia.
    - apply wrap_small. unfold representable, INT_MIN, INT_MAX in *. lia. }
  exists z. split_and!; [done..| |].
  - intros r c Hr Hc. destruct (Hz r c Hr Hc) as [Ez ->].
    destruct (Hx r c Hr Hc) as [_ Bx']. destruct (Hy r c Hr Hc) as [_ By'].
    split; [done|lia].
  - intros r c Hr Hc. by apply Hz.
Qed.

(** Where a non-empty bounded view lies. *)
Lemma bounded_view_offsets x n B :
  0 < n → bounded_view x n B →
  ∃ xi xj, x.(i) = Some xi ∧ x.(j) = Some xj ∧
           0 ≤ xi ∧ xi + n ≤ NUM_ELEMS ∧ 0 ≤ xj ∧ xj + n ≤ NUM_ELEMS.
Proof.
  intros Hn Hx.
  destruct (Hx 0 0) as [[v0 E0] _]; [lia..|].
  destruct (Hx (n - 1) (n - 1)) as [[v1 E1] _]; [lia..|].
  apply elem_offsets in E0 as (xi & xj & Hi & Hj & Hin0 & _).
  apply elem_offsets in E1 as (? & ? & ? & ? & Hin1 & _). simplify_eq.
  exists xi, xj. unfold in_bounds, NUM_ELEMS in *.
  rewrite !andb_true_iff, !Z.leb_le, !Z.ltb_lt in Hin0, Hin1.
  split_and!; [done..|lia|lia|lia|lia].
Qed.

(** The quadrant at rows [di..], columns [dj..] of a bounded view. *)
Lemma quadrant_view a n B xi xj di dj h oi oj :
  a.(i) = Some xi → a.(j) = Some xj → 0 < n → bounded_view a n B →
  0 ≤ di → 0 ≤ dj → di + h ≤ n → dj + h ≤ n →
  oi = Some (xi + di) → oj = Some (xj + dj) →
  ∃ Q, quadrant a oi oj h = Done Q ∧ bounded_view Q h B ∧
       ∀ r c, 0 ≤ r < h → 0 ≤ c < h → val Q r c = val a (di + r) (dj + c).
Proof.
  intros Hi Hj Hn Ha Hdi Hdj Hhi Hhj -> ->.
  destruct (bounded_view_offsets a n B Hn Ha)
    as (? & ? & ? & ? & Hxi & Hxn & Hxj & Hxjn). simplify_eq.
  destruct (quadrant_spec a (xi + di) (xj + dj) h)
    as (Q & HQ & HQi & HQj & Hcells); [lia..|].
  exists Q. split; [done|].
  assert (∀ r c, 0 ≤ r < h → 0 ≤ c < h →
            elem Q r c = elem a (di + r) (dj + c)) as Helem.
  { intros r c Hr Hc. unfold elem. rewrite HQi, HQj, Hi, Hj. cbn.
    rewrite !Z.add_assoc. by rewrite Hcells. }
  split.
  - intros r c Hr Hc. unfold val. rewrite Helem by done.
    apply Ha; lia.
  - intros r c Hr Hc. unfold val. by rewrite Helem.
Qed.

Lemma shifted_exact x h :
  representable (x + h) → shifted (Some x) h = Some (x + h).
Proof. intros H. unfold shifted, int_add. cbn. by rewrite wrap_small. Qed.

Lemma store_in_range g r c v :
  0 ≤ r < NUM_ELEMS → 0 ≤ c < NUM_ELEMS →
  store g r c v = Done (<[(r, c) := v]> g).
Proof.
  intros Hr Hc. unfold store, subscript. by rewrite in_bounds_true.
Qed.

(** One assignment of the assembly loops from a determinate cell. *)
Lemma place_elem_spec Q lo lo' r c res v :
  elem Q (r - lo) (c - lo') = Some v →
  0 ≤ r < NUM_ELEMS → 0 ≤ c < NUM_ELEMS →
  place_elem Q lo lo' r c res = Done (set_m (<[(r, c) := v]> res.(m)) res).
Proof.
  intros (qi & qj & Hqi & Hqj & Hin & Hv)%elem_offsets Hr Hc.
  unfold place_elem, subscript. rewrite Hqi, Hqj. cbn. rewrite Hin. cbn.
  rewrite in_bounds_true by done. cbn. by rewrite Hv.
Qed.

(** The assembly loop on a determinate view. *)
Lemma place_exact Q lo hi lo' hi' res :
  0 ≤ lo → hi ≤ NUM_ELEMS → 0 ≤ lo' → hi' ≤ NUM_ELEMS →
  (∀ r c, lo ≤ r < hi → lo' ≤ c < hi' →
     is_Some (elem Q (r - lo) (c - lo'))) →
  ∃ res', place Q lo hi lo' hi' res = Done res' ∧
    ∀ r c, (lo ≤ r < hi ∧ lo' ≤ c < hi' →
              res'.(m) !! (r, c) = Some (val Q (r - lo) (c - lo'))) ∧
           (¬ (lo ≤ r < hi ∧ lo' ≤ c < hi') →
              res'.(m) !! (r, c) = res.(m) !! (r, c)).
Proof.
  intros Hlo Hhi Hlo' Hhi' HQ. unfold place.
  rewrite (for_nested (place_elem Q lo lo')).
  assert (∀ xs res,
    (∀ rc, rc ∈ xs → lo ≤ rc.1 < hi ∧ lo' ≤ rc.2 < hi') →
    ∃ res', foldM (λ rc, place_elem Q lo lo' rc.1 rc.2) xs res = Done res' ∧
      ∀ k, (k ∈ xs → res'.(m) !! k = Some (val Q (k.1 - lo) (k.2 - lo'))) ∧
           (k ∉ xs → res'.(m) !! k = res.(m) !! k)) as Hrun.
  { clear res. induction xs as [|[r c] xs IH]; intros res Hxs; cbn [foldM fst snd].
    - exists res. split; [done|]. intros k. split; [|done].
      intros Hk. by apply elem_of_nil in Hk.
    - destruct (Hxs (r, c)) as [Hr Hc]; [by left|]. cbn in Hr, Hc.
      rewrite (place_elem_spec _ _ _ _ _ _ _ (elem_val _ _ _ (HQ r c Hr Hc)))
        by lia.
      rewrite bind_Done.
      destruct (IH (set_m (<[(r, c) := val Q (r - lo) (c - lo')]> (m res)) res))
        as (res' & -> & Hres').
      { intros rc Hrc. apply Hxs. by right. }
      exists res'. split; [done|]. intros k. destruct (Hres' k) as [Hin Hout].
      destruct (decide (k ∈ xs)) as [Hk|Hk].
      + split; [auto|]. intros Hn. exfalso. apply Hn. by right.
      + rewrite (Hout Hk). cbn. split.
        * intros [->|?]%elem_of_cons; [|done]. by rewrite lookup_insert_eq.
        * intros Hn. rewrite lookup_insert_ne; [done|].
          intros <-. apply Hn. by left. }
  destruct (Hrun (traversal lo hi lo' hi') res) as (res' & -> & Hres').
  { intros [r c] Hrc%elem_of_traversal. done. }
  exists res'. split; [done|]. intros r c. destruct (Hres' (r, c)) as [Hin Hout].
  rewrite elem_of_traversal in Hin, Hout. done.
Qed.

Lemma strassen_at_2 fuel a b :
  strassen_matrix_multiply (S fuel) a b 2 = strassen_2x2 a b.
Proof. done. Qed.

Lemma bounded_view_weaken x n B B' :
  bounded_view x n B → B ≤ B' → bounded_view x n B'.
Proof.
  intros Hx HB r c Hr Hc. destruct (Hx r c Hr Hc) as [E Hv].
  split; [done|lia].
Qed.

Ltac stage_side :=
  first [ assumption | done | unfold INT_MAX, NUM_ELEMS; lia
        | f_equal; lia
        | eapply bounded_view_weaken; [eassumption|lia] ].

(** Evaluate sums and differences of literals. *)
Ltac is_literal x :=
  lazymatch x with
  | Z0 => idtac
  | Zpos ?p => is_literal_pos p
  | Zneg ?p => is_literal_pos p
  end
with is_literal_pos p :=
  lazymatch p with
  | xH => idtac
  | xO ?q => is_literal_pos q
  | xI ?q => is_literal_pos q
  end.

Ltac eval_literals :=
  repeat match goal with
         | |- context [Z.sub ?x ?y] =>
             is_literal x; is_literal y;
             let v := eval vm_compute in (Z.sub x y) in
             change (Z.sub x y) with v
         | |- context [Z.add ?x ?y] =>
             is_literal x; is_literal y;
             let v := eval vm_compute in (Z.add x y) in
             change (Z.add x y) with v
         end.

Ltac unfold_vals :=
  repeat match goal with
         | H : ∀ r c, 0 ≤ r < 2 → 0 ≤ c < 2 → val _ r c = _ |- _ =>
             rewrite H by lia
         end.

Tactic Notation "stage" constr(lem) "as" ident(Q) ident(B) ident(V) :=
  destruct lem as (Q & -> & B & V); [stage_side..|]; rewrite bind_Done.

Tactic Notation "stage_op" constr(lem) "as" ident(Q) ident(B) ident(V) :=
  destruct lem as (Q & -> & _ & _ & B & V); [stage_side..|]; rewrite bind_Done.

Tactic Notation "stage_place" constr(lem) "using" hyp(B) "as" ident(r) ident(P) :=
  destruct lem as (r & -> & P);
  [ unfold NUM_ELEMS; lia.. 
  | let r := fresh in let c := fresh in
    intros r c ? ?; apply (B (r - _) (c - _)); lia
  | ];
  rewrite bind_Done.

(** On 4-by-4 views with cells of absolute value at most 4096 the
    recursive case returns the mathematical product, in rows and columns
    0..3 of the grid. *)
Lemma strassen_4x4_exact fuel a b :
  bounded_view a 4 4096 → bounded_view b 4 4096 →
  ∃ res, strassen_matrix_multiply (S (S fuel)) a b 4 = Done res ∧
         ∀ r c, 0 ≤ r < 4 → 0 ≤ c < 4 →
           res.(m) !! (r, c) = Some (product_entry a b 4 r c).
Proof.
  intros Ha Hb.
  destruct (bounded_view_offsets a 4 4096) as (ai & aj & Hai & Haj & ? & ? & ? & ?);
    [lia|done|].
  destruct (bounded_view_offsets b 4 4096) as (bi & bj & Hbi & Hbj & ? & ? & ? & ?);
    [lia|done|].
  change (strassen_matrix_multiply (S (S fuel)) a b 4)
    with (strassen_recursive (strassen_matrix_multiply (S fuel)) a b 4).
  unfold strassen_recursive, assemble. cbv zeta. change (4 `quot` 2) with 2.
  rewrite Hai, Haj, Hbi, Hbj.
  rewrite !shifted_exact
    by (unfold representable, INT_MIN, INT_MAX, NUM_ELEMS in *; lia).
  stage (quadrant_view a 4 4096 ai aj 0 0 2 (Some ai) (Some aj)) as A00 BA00 VA00.
  stage (quadrant_view a 4 4096 ai aj 0 2 2 (Some ai) (Some (aj + 2))) as A01 BA01 VA01.
  stage (quadrant_view a 4 4096 ai aj 2 0 2 (Some (ai + 2)) (Some aj)) as A10 BA10 VA10.
  stage (quadrant_view a 4 4096 ai aj 2 2 2 (Some (ai + 2)) (Some (aj + 2))) as A11 BA11 VA11.
  stage (quadrant_view b 4 4096 bi bj 0 0 2 (Some bi) (Some bj)) as B00 BB00 VB00.
  stage (quadrant_view b 4 4096 bi bj 0 2 2 (Some bi) (Some (bj + 2))) as B01 BB01 VB01.
  stage (quadrant_view b 4 4096 bi bj 2 0 2 (Some (bi + 2)) (Some bj)) as B10 BB10 VB10.
  stage (quadrant_view b 4 4096 bi bj 2 2 2 (Some (bi + 2)) (Some (bj + 2))) as B11 BB11 VB11.
  (* M1 *)
  stage_op (add_exact A00 A11 2 4096 4096) as X1 BX1 VX1.
  stage_op (add_exact B00 B11 2 4096 4096) as Y1 BY1 VY1.
  rewrite strassen_at_2.
  stage_op (strassen_2x2_exact X1 Y1) as M1 BM1 VM1.
  (* M2 *)
  stage_op (add_exact A10 A11 2 4096 4096) as X2 BX2 VX2.
  rewrite strassen_at_2.
  stage_op (strassen_2x2_exact X2 B00) as M2 BM2 VM2.
  (* M3 *)
  stage_op (sub_exact B01 B11 2 4096 4096) as Y3 BY3 VY3.
  rewrite strassen_at_2.
  stage_op (strassen_2x2_exact A00 Y3) as M3 BM3 VM3.
  (* M4 *)
  stage_op (sub_exact B10 B00 2 4096 4096) as Y4 BY4 VY4.
  rewrite strassen_at_2.
  stage_op (strassen_2x2_exact A11 Y4) as M4 BM4 VM4.
  (* M5 *)
  stage_op (add_exact A00 A01 2 4096 4096) as X5 BX5 VX5.
  rewrite strassen_at_2.
  stage_op (strassen_2x2_exact X5 B11) as M5 BM5 VM5.
  (* M6 *)
  stage_op (sub_exact A10 A00 2 4096 4096) as X6 BX6 VX6.
  stage_op (add_exact B00 B01 2 4096 4096) as Y6 BY6 VY6.
  rewrite strassen_at_2.
  stage_op (strassen_2x2_exact X6 Y6) as M6 BM6 VM6.
  (* M7 *)
  stage_op (sub_exact A01 A11 2 4096 4096) as X7 BX7 VX7.
  stage_op (add_exact B10 B11 2 4096 4096) as Y7 BY7 VY7.
  rewrite strassen_at_2.
  stage_op (strassen_2x2_exact X7 Y7) as M7 BM7 VM7.
  (* Q1..Q4 *)
  stage_op (add_exact M1 M4 2 134217728 134217728) as S1 BS1 VS1.
  stage_op (sub_exact S1 M5 2 (134217728 + 134217728) 134217728) as S2 BS2 VS2.
  stage_op (add_exact S2 M7 2 (134217728 + 134217728 + 134217728) 134217728)
    as Q1 BQ1 VQ1.
  stage_op (add_exact M3 M5 2 134217728 134217728) as Q2 BQ2 VQ2.
  stage_op (add_exact M2 M4 2 134217728 134217728) as Q3 BQ3 VQ3.
  stage_op (sub_exact M1 M2 2 134217728 134217728) as S3 BS3 VS3.
  stage_op (add_exact S3 M3 2 (134217728 + 134217728) 134217728) as S4 BS4 VS4.
  stage_op (add_exact S4 M6 2 (134217728 + 134217728 + 134217728) 134217728)
    as Q4 BQ4 VQ4.
  stage_place (place_exact Q1 0 2 0 2 uninitialised) using BQ1 as r1 P1.
  stage_place (place_exact Q2 0 2 2 4 r1) using BQ2 as r2 P2.
  stage_place (place_exact Q3 2 4 0 2 r2) using BQ3 as r3 P3.
  stage_place (place_exact Q4 2 4 2 4 r3) using BQ4 as r4 P4.
  exists r4. split; [done|]. intros r c Hr Hc.
  assert (r = 0 ∨ r = 1 ∨ r = 2 ∨ r = 3) as Hr' by lia.
  assert (c = 0 ∨ c = 1 ∨ c = 2 ∨ c = 3) as Hc' by lia.
  unfold product_entry. change (seqZ 0 4) with [0; 1; 2; 3]. cbn [foldl].
  destruct Hr' as [-> | [-> | [-> | ->]]], Hc' as [-> | [-> | [-> | ->]]];
    repeat first
      [ rewrite (proj1 (P4 _ _)) by lia | rewrite (proj2 (P4 _ _)) by lia
      | rewrite (proj1 (P3 _ _)) by lia | rewrite (proj2 (P3 _ _)) by lia
      | rewrite (proj1 (P2 _ _)) by lia | rewrite (proj2 (P2 _ _)) by lia
      | rewrite (proj1 (P1 _ _)) by lia ];
    f_equal; eval_literals; unfold_vals; eval_literals; ring.
Qed.

Lemma elem_at_origin x r c :
  x.(i) = Some 0 → x.(j) = Some 0 →
  0 ≤ r < NUM_ELEMS → 0 ≤ c < NUM_ELEMS → elem x r c = x.(m) !! (r, c).
Proof.
  intros Hi Hj Hr Hc. unfold elem. rewrite Hi, Hj. cbn.
  rewrite !Z.add_0_l. by rewrite in_bounds_true.
Qed.

Lemma product_entry_bound a b n r c :
  n = 2 ∨ n = 4 → bounded_view a n 4096 → bounded_view b n 4096 →
  0 ≤ r < n → 0 ≤ c < n → representable (product_entry a b n r c).
Proof.
  intros Hn Ha Hb Hr Hc. unfold product_entry.
  assert (∀ k, 0 ≤ k < n →
            - (4096 * 4096) ≤ val a r k * val b k c ≤ 4096 * 4096) as Hk.
  { intros k Hk. apply abs_mul_le; [by apply Ha|by apply Hb]. }
  unfold representable, INT_MIN, INT_MAX.
  destruct Hn as [-> | ->].
  - change (seqZ 0 2) with [0; 1]. cbn [foldl].
    pose proof (Hk 0). pose proof (Hk 1). lia.
  - change (seqZ 0 4) with [0; 1; 2; 3]. cbn [foldl].
    pose proof (Hk 0). pose proof (Hk 1). pose proof (Hk 2). pose proof (Hk 3).
    lia.
Qed.

Lemma dot_product_entry a b n r c :
  n = 2 ∨ n = 4 →
  a.(i) = Some 0 → a.(j) = Some 0 → b.(i) = Some 0 → b.(j) = Some 0 →
  0 ≤ r < n → 0 ≤ c < n →
  dot a.(m) b.(m) r c n = product_entry a b n r c.
Proof.
  intros Hn Hai Haj Hbi Hbj Hr Hc. unfold dot, product_entry, val.
  destruct Hn as [-> | ->].
  - change (seqZ 0 2) with [0; 1]. cbn [foldl].
    by rewrite !elem_at_origin by (unfold NUM_ELEMS; done || lia).
  - change (seqZ 0 4) with [0; 1; 2; 3]. cbn [foldl].
    by rewrite !elem_at_origin by (unfold NUM_ELEMS; done || lia).
Qed.

(** For the two dimensions at which the multiplier returns, on inputs
    as [main] prepares them (offsets 0) with cells of absolute value at
    most 4096, its result and the result of the standard multiplication
    hold the same values in rows and columns below [n], namely the
    mathematical product. *)
Lemma strassen_agrees_with_naive fuel a b m3 n :
  n = 2 ∨ n = 4 →
  a.(i) = Some 0 → a.(j) = Some 0 → b.(i) = Some 0 → b.(j) = Some 0 →
  bounded_view a n 4096 → bounded_view b n 4096 →
  ∃ res res',
    strassen_matrix_multiply (S (S fuel)) a b n = Done res ∧
    multiply_naive a b m3 n = Done res' ∧
    ∀ r c, 0 ≤ r < n → 0 ≤ c < n →
      res.(m) !! (r, c) = Some (product_entry a b n r c) ∧
      res'.(m) !! (r, c) = Some (product_entry a b n r c).
Proof.
  intros Hn Hai Haj Hbi Hbj Ha Hb.
  assert (n ≤ NUM_ELEMS) as Hfits by (unfold NUM_ELEMS; lia).
  destruct (multiply_naive_wraps a b n Hfits) with (m3 := m3)
    as (res' & Hnaive & Hres').
  { intros r c Hr Hc. destruct (Ha r c Hr Hc) as [Ea _].
    destruct (Hb r c Hr Hc) as [Eb _].
    rewrite !elem_at_origin in Ea, Eb by (unfold NUM_ELEMS; done || lia).
    done. }
  assert (∀ r c, 0 ≤ r < n → 0 ≤ c < n →
            res'.(m) !! (r, c) = Some (product_entry a b n r c)) as Hnaive'.
  { intros r c Hr Hc. rewrite Hres', dot_product_entry by done.
    by rewrite wrap_small by by apply product_entry_bound. }
  destruct Hn as [-> | ->].
  - destruct (strassen_2x2_exact a b) as (res & Hrun & Hi & Hj & Bres & Vres);
      [eapply bounded_view_weaken; [done|lia]..|].
    exists res, res'. rewrite strassen_at_2. split_and!; [done..|].
    intros r c Hr Hc. split; [|by apply Hnaive'].
    destruct (Bres r c Hr Hc) as [E _]. apply elem_val in E.
    rewrite elem_at_origin in E by (unfold NUM_ELEMS; congruence || lia).
    rewrite E, Vres by done. reflexivity.
  - destruct (strassen_4x4_exact fuel a b Ha Hb) as (res & Hrun & Hres).
    exists res, res'. split_and!; [done..|]. intros r c Hr Hc.
    split; [by apply Hres|by apply Hnaive'].
Qed.

(** ** Concrete runs *)

(** C6. For [A = [[1,2],[3,4]]] and [B = [[5,6],[7,8]]] the [n = 2] case
    passes every check, computes the seven products
    [M1..M7 = 65, 35, -2, 8, 24, 22, -30], and assembles them into
    [[[19,22],[43,50]]]. *)
Theorem strassen_base_case_example (fuel : nat) :
  strassen_2x2_products A_2x2 B_2x2 = Done (65, 35, -2, 8, 24, 22, -30) ∧
  strassen_matrix_multiply (S fuel) A_2x2 B_2x2 2
  = strassen_2x2_assemble A_2x2 (65, 35, -2, 8, 24, 22, -30) ∧
  (c ← strassen_matrix_multiply (S fuel) A_2x2 B_2x2 2; Done (view c 2))
  = Done [[Done 19; Done 22]; [Done 43; Done 50]].
Proof.
  change (strassen_matrix_multiply (S fuel) A_2x2 B_2x2 2)
    with (strassen_2x2 A_2x2 B_2x2).
  split_and!; vm_compute; reflexivity.
Qed.

(** C3, at the operands the sign test misses: [INT_MIN + INT_MIN] is
    not representable, the wrapped sum is 0, which is not positive, and
    the check passes; [add] stores the wrapped sum. *)
Theorem check_overflow_add_misses_min_min :
  ¬ representable (INT_MIN + INT_MIN) ∧
  check_overflow INT_MIN INT_MIN true false = Done () ∧
  (x ← add (single INT_MIN) (single INT_MIN) 1; cell x 0 0) = Done 0.
Proof.
  split_and!; [|vm_compute; reflexivity..].
  unfold representable, INT_MIN, INT_MAX. lia.
Qed.

(** C4, at a subtrahend [INT_MIN]: the negation is computed without a
    check and wraps to [INT_MIN].  [0 - INT_MIN] is not representable,
    yet [sub] returns the wrapped difference; [-1 - INT_MIN] is
    representable, yet [sub] exits with the overflow diagnostic. *)
Theorem sub_negation_unchecked :
  int_neg INT_MIN = INT_MIN ∧
  ¬ representable (0 - INT_MIN) ∧
  (x ← sub (single 0) (single INT_MIN) 1; cell x 0 0) = Done INT_MIN ∧
  representable (-1 - INT_MIN) ∧
  sub (single (-1)) (single INT_MIN) 1 = Exit (AdditionOverflow (-1) INT_MIN).
Proof.
  split_and!; try (vm_compute; reflexivity);
    unfold representable, INT_MIN, INT_MAX; lia.
Qed.

(** C5, at the operands [-1] and [INT_MIN]: the product is not
    representable and wraps to [INT_MIN]; the first round trip divides
    it by [-1], and the division traps before anything is compared or
    reported.  The [n = 2] case reaches this check on views with
    [a00 + a11 = -1] and [b00 + b11 = INT_MIN]. *)
Theorem check_overflow_mult_traps :
  representable (-1) ∧ representable INT_MIN ∧
  ¬ representable (-1 * INT_MIN) ∧
  -1 *i INT_MIN = INT_MIN ∧
  INT_MIN /i -1 = Undefined DivisionOverflow ∧
  check_overflow (-1) INT_MIN false true = Undefined DivisionOverflow ∧
  strassen_matrix_multiply 1 (single (-1)) (single INT_MIN) 2
  = Undefined DivisionOverflow.
Proof.
  split_and!; try (vm_compute; reflexivity);
    unfold representable, INT_MIN, INT_MAX; lia.
Qed.

(** C7, on views whose first cells are the operands the checks miss:
    [INT_MIN + INT_MIN] and [0 - INT_MIN] are not representable, yet
    [add] and [sub] go past that cell.  They exit at a later cell, with
    that cell's operands, or return a matrix that holds the wrapped
    value. *)
Theorem add_sub_pass_first_overflow :
  ¬ representable (INT_MIN + INT_MIN) ∧
  add (of_rows [[INT_MIN; INT_MAX]]) (of_rows [[INT_MIN; 1]]) 2
  = Exit (AdditionOverflow INT_MAX 1) ∧
  (x ← add (of_rows [[INT_MIN; 1]]) (of_rows [[INT_MIN; 2]]) 2;
   Done (view x 2)) = Done [[Done 0; Done 3]; [Done 0; Done 0]] ∧
  ¬ representable (0 - INT_MIN) ∧
  sub (of_rows [[0; INT_MIN]]) (of_rows [[INT_MIN; 1]]) 2
  = Exit (AdditionOverflow INT_MIN (-1)) ∧
  (x ← sub (of_rows [[0; 5]]) (of_rows [[INT_MIN; 2]]) 2;
   Done (view x 2)) = Done [[Done INT_MIN; Done 3]; [Done 0; Done 0]].
Proof.
  split_and!; try (vm_compute; reflexivity);
    unfold representable, INT_MIN, INT_MAX; lia.
Qed.

(** C2 fails on the code: at [n = 3] the multiplier does arithmetic on
    1-by-1 quadrants and exits with an addition overflow, also when
    called through the bound check of [main]; at [n = 0] it only
    recurses. *)
Lemma strassen_at_3_does_arithmetic :
  strassen_matrix_multiply 1 big_corner_3x3 zeros 3
  = Exit (AdditionOverflow 2147483647 1) ∧
  main_multiply 1 big_corner_3x3 zeros 3
  = Exit (AdditionOverflow 2147483647 1) ∧
  strassen_matrix_multiply 64 zeros zeros 0 = OutOfFuel.
Proof. split_and!; vm_compute; reflexivity. Qed.

(** C8 fails on the code: [65536 * 65536] is not representable, and the
    standard multiplication returns the wrapped product 0. *)
Lemma multiply_naive_wraps_silently :
  ¬ representable (65536 * 65536) ∧
  (res ← multiply_naive (single 65536) (single 65536) uninitialised 1;
   load res.(m) 0 0) = Done 0.
Proof.
  split; [|vm_compute; reflexivity].
  unfold representable, INT_MIN, INT_MAX. lia.
Qed.

(** C1, at [n = 8] and [n = 16]: the sub-results of dimension 4 come
    back with unset offsets, [add] reads its first operand through them,
    and the run is undefined; the standard multiplication of the same
    8-by-8 inputs returns the product (here the second factor, the first
    being the identity). *)
Theorem strassen_8x8_reads_unset_offsets :
  strassen_matrix_multiply 3 identity_8x8 counting_8x8 8
  = Undefined Indeterminate ∧
  strassen_matrix_multiply 4 identity_16x16 identity_16x16 16
  = Undefined Indeterminate ∧
  (res ← multiply_naive identity_8x8 counting_8x8 uninitialised 8;
   Done (block res.(m) 8)) = Done (block counting_8x8.(m) 8).
Proof. split_and!; vm_compute; reflexivity. Qed.

(** ** Witnesses *)

Lemma quadrant_top_left_twice_witness :
  ∃ Q1 Q2,
    quadrant counting_view counting_view.(i) counting_view.(j) (8 `quot` 2)
    = Done Q1 ∧
    quadrant Q1 Q1.(i) Q1.(j) ((8 `quot` 2) `quot` 2) = Done Q2 ∧
    ∀ r c, 0 ≤ r < 8 `quot` 4 → 0 ≤ c < 8 `quot` 4 →
      cell Q2 r c = cell counting_view r c.
Proof.
  apply (quadrant_top_left_twice counting_view 8 4 2);
    [reflexivity | reflexivity | unfold NUM_ELEMS; lia..].
Defined.

Lemma result_offsets_not_uniform_witness :
  (∃ x, add counting_view counting_8x8 4 = Done x ∧
        x.(i) = Some 4 ∧ x.(j) = Some 2) ∧
  (∃ x, sub counting_view counting_8x8 4 = Done x ∧
        x.(i) = Some 4 ∧ x.(j) = Some 2) ∧
  (∃ c, strassen_matrix_multiply 1 counting_view counting_8x8 2 = Done c ∧
        c.(i) = Some 4 ∧ c.(j) = Some 2) ∧
  (∃ res, strassen_matrix_multiply 2 counting_view counting_8x8 5 = Done res ∧
          res.(i) = None ∧ res.(j) = None ∧
          (∀ r c, is_Some (res.(m) !! (r, c)) → 0 ≤ r < 5 ∧ 0 ≤ c < 5) ∧
          (∀ r c, is_Some (res.(m) !! (r, c)) ↔
             0 ≤ r < 2 * (5 `quot` 2) ∧ 0 ≤ c < 2 * (5 `quot` 2))) ∧
  (∃ res, assemble counting_view counting_8x8 counting_8x8 counting_view 8
            uninitialised = Done res ∧
          res.(i) = None ∧ res.(j) = None ∧
          (∀ r c, ¬ (0 ≤ r < 8 ∧ 0 ≤ c < 8) → res.(m) !! (r, c) = None) ∧
          copy_of counting_view 3 3 res 7 7).
Proof.
  destruct result_offsets_not_uniform
    as (Hadd & Hsub & Hbase & Hrec & Hasm & Hret).
  split_and!.
  - destruct (add counting_view counting_8x8 4) as [x| | |] eqn:E;
      [|vm_compute in E; discriminate..].
    exists x. split; [done|]. exact (Hadd _ _ _ _ E).
  - destruct (sub counting_view counting_8x8 4) as [x| | |] eqn:E;
      [|vm_compute in E; discriminate..].
    exists x. split; [done|]. exact (Hsub _ _ _ _ E).
  - destruct (strassen_matrix_multiply 1 counting_view counting_8x8 2)
      as [x| | |] eqn:E; [|vm_compute in E; discriminate..].
    exists x. split; [done|]. exact (Hbase _ _ _ _ E).
  - destruct (strassen_matrix_multiply 2 counting_view counting_8x8 5)
      as [x| | |] eqn:E; [|vm_compute in E; discriminate..].
    exists x. split; [reflexivity|].
    assert (5 ≠ 2) as Hn by lia. exact (Hrec 2%nat _ _ 5 x Hn E).
  - assert (fits counting_view (8 - 8 `quot` 2)) as Hv
      by (exists 4, 2; vm_compute; intuition discriminate).
    assert (fits counting_8x8 (8 - 8 `quot` 2)) as Hg
      by (exists 0, 0; vm_compute; intuition discriminate).
    assert (0 ≤ 8 ≤ NUM_ELEMS) as Hn by (by vm_compute).
    destruct (Hret counting_view counting_8x8 counting_8x8 counting_view 8
                uninitialised Hn Hv Hg Hg Hv) as [res E].
    exists res. split; [exact E|].
    destruct (Hasm _ _ _ _ _ _ _ E) as (Hi & Hj & Hout & _ & _ & _ & H4).
    split; [exact Hi|]. split; [exact Hj|]. split; [exact Hout|].
    apply (H4 7 7); vm_compute; intuition discriminate.
Defined.

Lemma dimension_checked_only_in_main_witness :
  main_multiply 0 zeros zeros 17 = Exit DimensionTooLarge ∧
  is_overflow (AdditionOverflow 2147483647 1).
Proof.
  destruct dimension_checked_only_in_main as [Hmain Hcore]. split.
  - apply Hmain. unfold NUM_ELEMS. lia.
  - apply (Hcore 1%nat big_corner_3x3 zeros 3). vm_compute. reflexivity.
Defined.

Lemma multiply_naive_unchecked_witness :
  (∀ f, multiply_naive A_2x2 B_2x2 uninitialised 2 ≠ Exit f) ∧
  ∃ res, multiply_naive A_2x2 B_2x2 uninitialised 2 = Done res ∧
         ∀ r c, 0 ≤ r < 2 → 0 ≤ c < 2 →
           res.(m) !! (r, c)
           = Some (wrap (dot A_2x2.(m) B_2x2.(m) r c 2)) ∧
           (representable (dot A_2x2.(m) B_2x2.(m) r c 2) →
            res.(m) !! (r, c) = Some (dot A_2x2.(m) B_2x2.(m) r c 2)).
Proof.
  destruct (multiply_naive_unchecked A_2x2 B_2x2 uninitialised 2)
    as [Hexit Hrun].
  split; [exact Hexit|]. apply Hrun.
  - unfold NUM_ELEMS. lia.
  - intros r c Hr Hc.
    assert (r = 0 ∨ r = 1) as [-> | ->] by lia;
      assert (c = 0 ∨ c = 1) as [-> | ->] by lia;
      split; vm_compute; eauto.
Defined.

(** * Further properties *)

(** ** check_overflow on additions and subtractions *)

(** X1. For [int] operands other than the pair [INT_MIN], [INT_MIN], the
    addition check exits with the addition diagnostic exactly when the
    mathematical sum is not representable; when it is representable the
    check passes and the sum the code computes is the exact one. *)
Theorem addition_check_exact_except_min_min a b :
  representable a → representable b → ¬ (a = INT_MIN ∧ b = INT_MIN) →
  (check_overflow a b true false = Exit (AdditionOverflow a b)
     ↔ ¬ representable (a + b)) ∧
  (representable (a + b) →
     check_overflow a b true false = Done () ∧ a +i b = a + b).
Proof.
  intros Ha Hb Hpair.
  destruct (check_add_cases a b Ha Hb) as [[E [R|R]]|[E R]]; [|done|].
  - rewrite E. split; [split; [done|intros Hn; destruct (Hn R)]|].
    intros _. split; [done|by apply wrap_small].
  - rewrite E. split; [done|]. intros H. destruct (R H).
Qed.

Lemma addition_check_exact_except_min_min_witness :
  (check_overflow 2147483647 1 true false
   = Exit (AdditionOverflow 2147483647 1)
     ↔ ¬ representable (2147483647 + 1)) ∧
  (representable (2147483647 + 1) →
     check_overflow 2147483647 1 true false = Done () ∧
     2147483647 +i 1 = 2147483647 + 1).
Proof.
  apply (addition_check_exact_except_min_min 2147483647 1);
    unfold representable, INT_MIN, INT_MAX; lia.
Defined.

(** X2. For an [int] minuend and an [int] subtrahend other than
    [INT_MIN], the check [sub] makes (an addition check on the negated
    subtrahend) exits exactly when the mathematical difference is not
    representable; when it is representable the check passes and the
    difference the code computes is the exact one. *)
Theorem subtraction_check_exact_except_min a b :
  representable a → representable b → b ≠ INT_MIN →
  (check_overflow a (int_neg b) true false = Exit (AdditionOverflow a (- b))
     ↔ ¬ representable (a - b)) ∧
  (representable (a - b) →
     check_overflow a (int_neg b) true false = Done () ∧ a -i b = a - b).
Proof.
  intros Ha Hb Hmin.
  assert (int_neg b = - b) as Hneg.
  { apply wrap_small. unfold representable, INT_MIN, INT_MAX in *. lia. }
  destruct (check_sub_cases a b Ha Hb Hmin) as [[E R]|[E R]]; rewrite E.
  - split; [split; [done|intros Hn; destruct (Hn R)]|].
    intros _. split; [done|by apply wrap_small].
  - rewrite Hneg. split; [done|]. intros H. destruct (R H).
Qed.

Lemma subtraction_check_exact_except_min_witness :
  (check_overflow (-2147483648) (int_neg 1) true false
   = Exit (AdditionOverflow (-2147483648) (- 1))
     ↔ ¬ representable (-2147483648 - 1)) ∧
  (representable (-2147483648 - 1) →
     check_overflow (-2147483648) (int_neg 1) true false = Done () ∧
     -2147483648 -i 1 = -2147483648 - 1).
Proof.
  apply (subtraction_check_exact_except_min (-2147483648) 1);
    unfold representable, INT_MIN, INT_MAX; lia.
Defined.

(** ** Dimensions below 2 *)

Lemma for_empty {S} lo hi (body : Z → S → outcome S) s :
  hi ≤ lo → for_ lo hi body s = Done s.
Proof. intros H. unfold for_. by rewrite seqZ_nil by lia. Qed.

Lemma quot_2_nonpos n : n ≤ 1 → n `quot` 2 ≤ 0.
Proof.
  intros Hn. pose proof (Z.quot_rem' n 2) as Hqr.
  pose proof (Z.rem_bound_abs n 2) as Hb.
  pose proof (Z.rem_sign_mul n 2) as Hs.
  generalize dependent (Z.rem n 2). generalize dependent (n `quot` 2).
  intros. nia.
Qed.

(** X3. For every dimension [n ≤ 1] (0, 1 and the negative ones) the
    multiplier neither returns nor fails, whatever the inputs: the
    quadrants are empty, nothing is read or added, and the first
    recursive call is again at a dimension below 2.  No amount of fuel
    yields an outcome. *)
Theorem strassen_never_returns_below_2 fuel a b n :
  n ≤ 1 → strassen_matrix_multiply fuel a b n = OutOfFuel.
Proof.
  revert a b n. induction fuel as [|fuel IH]; intros a b n Hn; [done|].
  cbn [strassen_matrix_multiply].
  destruct (Z.eqb_spec n 2) as [|_]; [lia|].
  pose proof (quot_2_nonpos n Hn) as Hh.
  unfold strassen_recursive, assemble, quadrant, copy_elems_to_quad, add.
  cbv zeta.
  repeat (rewrite !for_empty by lia; rewrite !bind_Done).
  rewrite !IH by lia. reflexivity.
Qed.

Lemma strassen_never_returns_below_2_witness :
  strassen_matrix_multiply 1000 A_2x2 B_2x2 1 = OutOfFuel.
Proof. apply strassen_never_returns_below_2. lia. Defined.

(** ** The multiplier on bounded inputs *)

Ltac view_cases r c :=
  repeat match goal with
         | H : 0 ≤ r < _ |- _ =>
             let k := fresh in
             assert (r = 0 ∨ r = 1 ∨ r = 2 ∨ r = 3) as k by lia; clear H;
             destruct k as [-> | [-> | [-> | ->]]]
         | H : 0 ≤ c < _ |- _ =>
             let k := fresh in
             assert (c = 0 ∨ c = 1 ∨ c = 2 ∨ c = 3) as k by lia; clear H;
             destruct k as [-> | [-> | [-> | ->]]]
         end.

(** X4. Whatever the inputs, the multiplier returns a result only at
    [n = 2], [n = 4] and [n = 5]: at every other dimension it exits
    with an overflow, runs into undefined behaviour, or does not
    terminate.  At [n = 3], 6 and 7 the recursion reaches a dimension
    below 2; from [n = 8] on, a sub-result with unset offsets is
    read. *)
Theorem strassen_result_dimension fuel a b n res :
  strassen_matrix_multiply fuel a b n = Done res → n = 2 ∨ n = 4 ∨ n = 5.
Proof. apply strassen_returns_only_for_2_4_5. Qed.

Lemma strassen_result_dimension_witness :
  ∃ res, strassen_matrix_multiply 2 counting_view counting_8x8 5 = Done res ∧
         (5 = 2 ∨ 5 = 4 ∨ 5 = 5).
Proof.
  destruct (strassen_matrix_multiply 2 counting_view counting_8x8 5)
    as [res| | |] eqn:E; [|vm_compute in E; discriminate..].
  exists res. split; [reflexivity|].
  exact (strassen_result_dimension 2 counting_view counting_8x8 5 res E).
Defined.

(** X5. At [n = 2], on views with determinate cells of absolute value
    at most 8192 placed anywhere inside the array, the multiplier
    returns a result tagged with the first operand's offsets whose view
    holds the mathematical product. *)
Theorem strassen_2x2_product fuel a b :
  bounded_view a 2 8192 → bounded_view b 2 8192 →
  ∃ c, strassen_matrix_multiply (S fuel) a b 2 = Done c ∧
       c.(i) = a.(i) ∧ c.(j) = a.(j) ∧
       ∀ r s, 0 ≤ r < 2 → 0 ≤ s < 2 →
         elem c r s = Some (product_entry a b 2 r s).
Proof.
  intros Ha Hb. rewrite strassen_at_2.
  destruct (strassen_2x2_exact a b Ha Hb) as (c & Hrun & Hi & Hj & Hc & Hv).
  exists c. split_and!; [done..|]. intros r s Hr Hs.
  destruct (Hc r s Hr Hs) as [E _]. rewrite (elem_val _ _ _ E), Hv by done.
  reflexivity.
Qed.

Lemma counting_view_bounded B :
  63 ≤ B → bounded_view counting_view 4 B ∧ bounded_view counting_8x8 4 B.
Proof.
  intros HB. split; intros r c Hr Hc; view_cases r c;
    (split; [vm_compute; eauto|]);
    match goal with
    | |- _ ≤ val ?x ?r ?c ≤ _ =>
        let v := eval vm_compute in (val x r c) in
        change (val x r c) with v; lia
    end.
Qed.

Lemma strassen_2x2_product_witness :
  ∃ c, strassen_matrix_multiply 1 counting_view counting_8x8 2 = Done c ∧
       c.(i) = counting_view.(i) ∧ c.(j) = counting_view.(j) ∧
       ∀ r s, 0 ≤ r < 2 → 0 ≤ s < 2 →
         elem c r s = Some (product_entry counting_view counting_8x8 2 r s).
Proof.
  destruct (counting_view_bounded 8192) as [H1 H2]; [lia|].
  apply (strassen_2x2_product 0 counting_view counting_8x8).
  - intros r c Hr Hc. apply H1; lia.
  - intros r c Hr Hc. apply H2; lia.
Defined.

(** X6. At [n = 4], on views with determinate cells of absolute value
    at most 4096 placed anywhere inside the array, the multiplier
    returns a result whose grid holds the mathematical product in rows
    and columns 0..3. *)
Theorem strassen_4x4_product fuel a b :
  bounded_view a 4 4096 → bounded_view b 4 4096 →
  ∃ res, strassen_matrix_multiply (S (S fuel)) a b 4 = Done res ∧
         ∀ r c, 0 ≤ r < 4 → 0 ≤ c < 4 →
           res.(m) !! (r, c) = Some (product_entry a b 4 r c).
Proof. apply strassen_4x4_exact. Qed.

Lemma strassen_4x4_product_witness :
  ∃ res, strassen_matrix_multiply 2 counting_view counting_8x8 4 = Done res ∧
         ∀ r c, 0 ≤ r < 4 → 0 ≤ c < 4 →
           res.(m) !! (r, c)
           = Some (product_entry counting_view counting_8x8 4 r c).
Proof.
  destruct (counting_view_bounded 4096) as [H1 H2]; [lia|].
  by apply (strassen_4x4_product 0 counting_view counting_8x8).
Defined.

(** X7. For [n = 2] and [n = 4], on inputs as [main] prepares them
    (offsets 0) with cells of absolute value at most 4096, the
    multiplier and the standard multiplication both return, and both
    results hold the mathematical product in rows and columns below
    [n]. *)
Theorem strassen_matches_standard_multiplication fuel a b m3 n :
  n = 2 ∨ n = 4 →
  a.(i) = Some 0 → a.(j) = Some 0 → b.(i) = Some 0 → b.(j) = Some 0 →
  bounded_view a n 4096 → bounded_view b n 4096 →
  ∃ res res',
    strassen_matrix_multiply (S (S fuel)) a b n = Done res ∧
    multiply_naive a b m3 n = Done res' ∧
    ∀ r c, 0 ≤ r < n → 0 ≤ c < n →
      res.(m) !! (r, c) = Some (product_entry a b n r c) ∧
      res'.(m) !! (r, c) = Some (product_entry a b n r c).
Proof. apply strassen_agrees_with_naive. Qed.

Lemma strassen_matches_standard_multiplication_witness :
  ∃ res res',
    strassen_matrix_multiply 2 counting_8x8 counting_8x8 4 = Done res ∧
    multiply_naive counting_8x8 counting_8x8 uninitialised 4 = Done res' ∧
    ∀ r c, 0 ≤ r < 4 → 0 ≤ c < 4 →
      res.(m) !! (r, c)
      = Some (product_entry counting_8x8 counting_8x8 4 r c) ∧
      res'.(m) !! (r, c)
      = Some (product_entry counting_8x8 counting_8x8 4 r c).
Proof.
  destruct (counting_view_bounded 4096) as [_ H]; [lia|].
  by apply (strassen_matches_standard_multiplication 0 counting_8x8
              counting_8x8 uninitialised 4); [right|..].
Defined.

Lemma identity_view_bounded x n B :
  1 ≤ B → identity_view x n → bounded_view x n B.
Proof.
  intros HB Hx r c Hr Hc. unfold val. rewrite (Hx r c Hr Hc).
  split; [done|]. cbn. case_decide; lia.
Qed.

Lemma identity_view_val x n r c :
  identity_view x n → 0 ≤ r < n → 0 ≤ c < n →
  val x r c = if decide (r = c) then 1 else 0.
Proof. intros Hx Hr Hc. unfold val. by rewrite (Hx r c Hr Hc). Qed.

(** X8. At [n = 4] the identity is neutral on both sides: when one
    operand's view is the identity matrix and the other's cells are at
    most 4096 in absolute value, the result grid holds the other
    operand's cells unchanged. *)
Theorem strassen_4x4_identity fuel e x :
  identity_view e 4 → bounded_view x 4 4096 →
  (∃ res, strassen_matrix_multiply (S (S fuel)) e x 4 = Done res ∧
          ∀ r c, 0 ≤ r < 4 → 0 ≤ c < 4 →
            res.(m) !! (r, c) = Some (val x r c)) ∧
  (∃ res, strassen_matrix_multiply (S (S fuel)) x e 4 = Done res ∧
          ∀ r c, 0 ≤ r < 4 → 0 ≤ c < 4 →
            res.(m) !! (r, c) = Some (val x r c)).
Proof.
  intros He Hx.
  pose proof (identity_view_bounded e 4 4096 ltac:(lia) He) as Hb.
  split.
  - destruct (strassen_4x4_exact fuel e x Hb Hx) as (res & Hrun & Hres).
    exists res. split; [done|]. intros r c Hr Hc. rewrite Hres by done.
    f_equal. unfold product_entry. change (seqZ 0 4) with [0; 1; 2; 3].
    cbn [foldl]. rewrite !(identity_view_val e 4) by (done || lia).
    view_cases r c; repeat case_decide; lia.
  - destruct (strassen_4x4_exact fuel x e Hx Hb) as (res & Hrun & Hres).
    exists res. split; [done|]. intros r c Hr Hc. rewrite Hres by done.
    f_equal. unfold product_entry. change (seqZ 0 4) with [0; 1; 2; 3].
    cbn [foldl]. rewrite !(identity_view_val e 4) by (done || lia).
    view_cases r c; repeat case_decide; lia.
Qed.

Lemma strassen_4x4_identity_witness :
  (∃ res, strassen_matrix_multiply 2 identity_8x8 counting_8x8 4 = Done res ∧
          ∀ r c, 0 ≤ r < 4 → 0 ≤ c < 4 →
            res.(m) !! (r, c) = Some (val counting_8x8 r c)) ∧
  (∃ res, strassen_matrix_multiply 2 counting_8x8 identity_8x8 4 = Done res ∧
          ∀ r c, 0 ≤ r < 4 → 0 ≤ c < 4 →
            res.(m) !! (r, c) = Some (val counting_8x8 r c)).
Proof.
  destruct (counting_view_bounded 4096) as [_ H]; [lia|].
  apply (strassen_4x4_identity 0 identity_8x8 counting_8x8); [|done].
  intros r c Hr Hc. view_cases r c; vm_compute; reflexivity.
Defined.

(** ** Elementwise operations compose *)

(** X9. Adding a view and then subtracting it again restores the first
    operand: for views whose cells are at most [B] in absolute value,
    with [3 * B] representable, [sub (add a b) b] returns a result at
    the offsets of [a] whose cells are those of [a]. *)
Theorem add_then_sub_restores a b n B :
  bounded_view a n B → bounded_view b n B → 3 * B ≤ INT_MAX →
  ∃ s d, add a b n = Done s ∧ sub s b n = Done d ∧
         d.(i) = a.(i) ∧ d.(j) = a.(j) ∧
         ∀ r c, 0 ≤ r < n → 0 ≤ c < n → elem d r c = elem a r c.
Proof.
  intros Ha Hb HB.
  destruct (decide (0 < n)) as [Hn|Hn].
  - assert (0 ≤ B) as HB0 by (destruct (Ha 0 0) as [_ ?]; lia).
    destruct (add_exact a b n B B Ha Hb) as (s & Hs & Hsi & Hsj & Bs & Vs);
      [lia|].
    destruct (sub_exact s b n (B + B) B Bs Hb) as (d & Hd & Hdi & Hdj & Bd & Vd);
      [lia|].
    exists s, d. split_and!; [done|done|congruence..|].
    intros r c Hr Hc. destruct (Bd r c Hr Hc) as [Ed _].
    destruct (Ha r c Hr Hc) as [Ea _].
    rewrite (elem_val _ _ _ Ed), (elem_val _ _ _ Ea), Vd, Vs by done.
    f_equal. lia.
  - exists {| m := ∅; i := a.(i); j := a.(j) |},
           {| m := ∅; i := a.(i); j := a.(j) |}.
    unfold add, sub. rewrite !for_empty by lia. split_and!; [done..|].
    intros r c Hr Hc. lia.
Qed.

Lemma add_then_sub_restores_witness :
  ∃ s d, add counting_view counting_8x8 4 = Done s ∧
         sub s counting_8x8 4 = Done d ∧
         d.(i) = counting_view.(i) ∧ d.(j) = counting_view.(j) ∧
         ∀ r c, 0 ≤ r < 4 → 0 ≤ c < 4 → elem d r c = elem counting_view r c.
Proof.
  destruct (counting_view_bounded 63) as [H1 H2]; [lia|].
  apply (add_then_sub_restores counting_view counting_8x8 4 63 H1 H2).
  unfold INT_MAX. lia.
Defined.

(** ** The four quadrants *)

(** X10. The four quadrants the multiplier extracts from an [n]-by-[n]
    view that lies inside the array partition it: with [h = n/2], the
    quadrant at offsets [(i, j)], [(i, j + h)], [(i + h, j)],
    [(i + h, j + h)] is extracted without fault and its cell (r,c) is
    cell (r,c), (r,c+h), (r+h,c), (r+h,c+h) of the source. *)
Theorem quadrants_partition a n B :
  0 < n → bounded_view a n B →
  let h := n `quot` 2 in
  ∃ A00 A01 A10 A11,
    quadrant a a.(i) a.(j) h = Done A00 ∧
    quadrant a a.(i) (shifted a.(j) h) h = Done A01 ∧
    quadrant a (shifted a.(i) h) a.(j) h = Done A10 ∧
    quadrant a (shifted a.(i) h) (shifted a.(j) h) h = Done A11 ∧
    ∀ r c, 0 ≤ r < h → 0 ≤ c < h →
      elem A00 r c = elem a r c ∧
      elem A01 r c = elem a r (c + h) ∧
      elem A10 r c = elem a (r + h) c ∧
      elem A11 r c = elem a (r + h) (c + h).
Proof.
  intros Hn Ha h.
  destruct (bounded_view_offsets a n B Hn Ha)
    as (ai & aj & Hi & Hj & Hi0 & Hin & Hj0 & Hjn).
  assert (0 ≤ h ∧ h + h ≤ n) as [Hh0 Hhn].
  { unfold h. pose proof (Z.quot_rem' n 2) as E1.
    pose proof (Z.rem_bound_pos n 2) as B1. lia. }
  rewrite Hi, Hj.
  rewrite !shifted_exact
    by (unfold representable, INT_MIN, INT_MAX, NUM_ELEMS in *; lia).
  destruct (quadrant_view a n B ai aj 0 0 h (Some ai) (Some aj))
    as (A00 & -> & B00 & V00); [done|done|lia|done|lia..|f_equal; lia|f_equal; lia|].
  destruct (quadrant_view a n B ai aj 0 h h (Some ai) (Some (aj + h)))
    as (A01 & -> & B01 & V01); [done|done|lia|done|lia..|f_equal; lia|done|].
  destruct (quadrant_view a n B ai aj h 0 h (Some (ai + h)) (Some aj))
    as (A10 & -> & B10 & V10); [done|done|lia|done|lia..|done|f_equal; lia|].
  destruct (quadrant_view a n B ai aj h h h (Some (ai + h)) (Some (aj + h)))
    as (A11 & -> & B11 & V11); [done|done|lia|done|lia..|done|done|].
  exists A00, A01, A10, A11. split_and!; [done..|]. intros r c Hr Hc.
  destruct (B00 r c Hr Hc) as [E00 _]. destruct (B01 r c Hr Hc) as [E01 _].
  destruct (B10 r c Hr Hc) as [E10 _]. destruct (B11 r c Hr Hc) as [E11 _].
  destruct (Ha r c) as [F00 _]; [lia..|].
  destruct (Ha r (c + h)) as [F01 _]; [lia..|].
  destruct (Ha (r + h) c) as [F10 _]; [lia..|].
  destruct (Ha (r + h) (c + h)) as [F11 _]; [lia..|].
  rewrite (elem_val _ _ _ E00), (elem_val _ _ _ E01), (elem_val _ _ _ E10),
    (elem_val _ _ _ E11), (elem_val _ _ _ F00), (elem_val _ _ _ F01),
    (elem_val _ _ _ F10), (elem_val _ _ _ F11).
  rewrite V00, V01, V10, V11 by done.
  rewrite !Z.add_0_l, !(Z.add_comm h). done.
Qed.

Lemma quadrants_partition_witness :
  let h := 4 `quot` 2 in
  ∃ A00 A01 A10 A11,
    quadrant counting_view counting_view.(i) counting_view.(j) h = Done A00 ∧
    quadrant counting_view counting_view.(i) (shifted counting_view.(j) h) h
    = Done A01 ∧
    quadrant counting_view (shifted counting_view.(i) h) counting_view.(j) h
    = Done A10 ∧
    quadrant counting_view (shifted counting_view.(i) h)
      (shifted counting_view.(j) h) h = Done A11 ∧
    ∀ r c, 0 ≤ r < h → 0 ≤ c < h →
      elem A00 r c = elem counting_view r c ∧
      elem A01 r c = elem counting_view r (c + h) ∧
      elem A10 r c = elem counting_view (r + h) c ∧
      elem A11 r c = elem counting_view (r + h) (c + h).
Proof.
  destruct (counting_view_bounded 63) as [H1 _]; [lia|].
  apply (quadrants_partition counting_view 4 63); [lia|done].
Defined.

(** ** generate_random *)

Lemma draw_spec rand modulus r c s :
  0 ≤ r < NUM_ELEMS → 0 ≤ c < NUM_ELEMS →
  draw rand modulus r c s
  = Done (S s.1, set_m (<[(r, c) := rand s.1 `rem` modulus]> (m s.2)) s.2).
Proof. intros Hr Hc. unfold draw. by rewrite store_in_range. Qed.

Lemma draw_run rand modulus xs s :
  0 < modulus → (∀ k, 0 ≤ rand k) →
  (∀ rc, rc ∈ xs → 0 ≤ rc.1 < NUM_ELEMS ∧ 0 ≤ rc.2 < NUM_ELEMS) →
  ∃ s', foldM (λ rc, draw rand modulus rc.1 rc.2) xs s = Done s' ∧
        s'.2.(i) = s.2.(i) ∧ s'.2.(j) = s.2.(j) ∧
        ∀ k, (k ∈ xs → ∃ v, s'.2.(m) !! k = Some v ∧ 0 ≤ v < modulus) ∧
             (k ∉ xs → s'.2.(m) !! k = s.2.(m) !! k).
Proof.
  intros Hm Hrand. revert s.
  induction xs as [|[r c] xs IH]; intros s Hxs; cbn [foldM fst snd].
  - exists s. split_and!; [done..|]. intros k. split; [|done].
    intros Hk. by apply elem_of_nil in Hk.
  - destruct (Hxs (r, c)) as [Hr Hc]; [by left|]. cbn in Hr, Hc.
    rewrite draw_spec by done. rewrite bind_Done.
    destruct (IH (S s.1, set_m (<[(r, c) := rand s.1 `rem` modulus]> (m s.2)) s.2))
      as (s' & -> & Hi & Hj & Hs').
    { intros rc Hrc. apply Hxs. by right. }
    exists s'. split_and!; [done..|]. intros k.
    destruct (Hs' k) as [Hin Hout].
    destruct (decide (k ∈ xs)) as [Hk|Hk].
    + split; [auto|]. intros Hn. exfalso. apply Hn. by right.
    + rewrite (Hout Hk). cbn. split.
      * intros [->|?]%elem_of_cons; [|done]. rewrite lookup_insert_eq.
        eexists. split; [done|]. apply Z.rem_bound_pos; [apply Hrand|done].
      * intros Hn. rewrite lookup_insert_ne; [done|].
        intros <-. apply Hn. by left.
Qed.

Lemma generate_random_spec rand m1 m2 n :
  n ≤ NUM_ELEMS → (∀ k, 0 ≤ rand k) →
  ∃ a b, generate_random rand m1 m2 n = Done (a, b) ∧
    a.(i) = Some 0 ∧ a.(j) = Some 0 ∧ b.(i) = Some 0 ∧ b.(j) = Some 0 ∧
    ∀ r c,
      (0 ≤ r < n ∧ 0 ≤ c < n →
         (∃ v, a.(m) !! (r, c) = Some v ∧ 0 ≤ v < 100) ∧
         (∃ v, b.(m) !! (r, c) = Some v ∧ 0 ≤ v < 101)) ∧
      (¬ (0 ≤ r < n ∧ 0 ≤ c < n) →
         a.(m) !! (r, c) = m1.(m) !! (r, c) ∧
         b.(m) !! (r, c) = m2.(m) !! (r, c)).
Proof.
  intros Hn Hrand. unfold generate_random. cbv zeta.
  rewrite !(for_nested (draw rand 100)).
  destruct (draw_run rand 100 (traversal 0 n 0 n)
              (0%nat, {| m := m1.(m); i := Some 0; j := Some 0 |}))
    as (s1 & -> & Hi1 & Hj1 & Hs1); [lia|done| |].
  { intros [r c] [Hr Hc]%elem_of_traversal. cbn. lia. }
  rewrite bind_Done, !(for_nested (draw rand 101)).
  destruct (draw_run rand 101 (traversal 0 n 0 n)
              (s1.1, {| m := m2.(m); i := Some 0; j := Some 0 |}))
    as (s2 & -> & Hi2 & Hj2 & Hs2); [lia|done| |].
  { intros [r c] [Hr Hc]%elem_of_traversal. cbn. lia. }
  rewrite bind_Done. exists s1.2, s2.2. split_and!; [done..|].
  intros r c. destruct (Hs1 (r, c)) as [Hin1 Hout1].
  destruct (Hs2 (r, c)) as [Hin2 Hout2].
  rewrite elem_of_traversal in Hin1, Hout1, Hin2, Hout2. split.
  - intros Hrc. split; [by apply Hin1|by apply Hin2].
  - intros Hrc. split; [by apply Hout1|by apply Hout2].
Qed.

(** X11. For [n ≤ 16] and a generator that returns non-negative values,
    [generate_random] returns two matrices with offsets 0 whose cells in
    rows and columns below [n] lie in 0..99 (matrix A) and 0..100
    (matrix B); every other cell is left as it was. *)
Theorem generate_random_ranges rand m1 m2 n :
  n ≤ NUM_ELEMS → (∀ k, 0 ≤ rand k) →
  ∃ a b, generate_random rand m1 m2 n = Done (a, b) ∧
    a.(i) = Some 0 ∧ a.(j) = Some 0 ∧ b.(i) = Some 0 ∧ b.(j) = Some 0 ∧
    ∀ r c,
      (0 ≤ r < n ∧ 0 ≤ c < n →
         (∃ v, a.(m) !! (r, c) = Some v ∧ 0 ≤ v < 100) ∧
         (∃ v, b.(m) !! (r, c) = Some v ∧ 0 ≤ v < 101)) ∧
      (¬ (0 ≤ r < n ∧ 0 ≤ c < n) →
         a.(m) !! (r, c) = m1.(m) !! (r, c) ∧
         b.(m) !! (r, c) = m2.(m) !! (r, c)).
Proof. apply generate_random_spec. Qed.

Lemma generate_random_ranges_witness :
  ∃ a b, generate_random counter_rand zeros zeros 4 = Done (a, b) ∧
    a.(i) = Some 0 ∧ a.(j) = Some 0 ∧ b.(i) = Some 0 ∧ b.(j) = Some 0 ∧
    ∀ r c,
      (0 ≤ r < 4 ∧ 0 ≤ c < 4 →
         (∃ v, a.(m) !! (r, c) = Some v ∧ 0 ≤ v < 100) ∧
         (∃ v, b.(m) !! (r, c) = Some v ∧ 0 ≤ v < 101)) ∧
      (¬ (0 ≤ r < 4 ∧ 0 ≤ c < 4) →
         a.(m) !! (r, c) = zeros.(m) !! (r, c) ∧
         b.(m) !! (r, c) = zeros.(m) !! (r, c)).
Proof.
  apply (generate_random_ranges counter_rand zeros zeros 4).
  - unfold NUM_ELEMS. lia.
  - intros k. unfold counter_rand. lia.
Defined.

(** X12. With [-r] at [n = 2] or [n = 4] the multiplication cannot
    overflow: on the matrices [generate_random] produces, the multiplier
    returns, the standard multiplication returns, and both hold the
    mathematical product in rows and columns below [n]. *)
Theorem random_inputs_multiply_exactly rand m1 m2 m3 n fuel :
  n = 2 ∨ n = 4 → (∀ k, 0 ≤ rand k) →
  ∃ a b res res',
    generate_random rand m1 m2 n = Done (a, b) ∧
    strassen_matrix_multiply (S (S fuel)) a b n = Done res ∧
    multiply_naive a b m3 n = Done res' ∧
    ∀ r c, 0 ≤ r < n → 0 ≤ c < n →
      res.(m) !! (r, c) = Some (product_entry a b n r c) ∧
      res'.(m) !! (r, c) = Some (product_entry a b n r c).
Proof.
  intros Hn Hrand.
  destruct (generate_random_spec rand m1 m2 n)
    as (a & b & Hgen & Hai & Haj & Hbi & Hbj & Hcells);
    [unfold NUM_ELEMS; lia|done|].
  assert (bounded_view a n 4096 ∧ bounded_view b n 4096) as [Ha Hb].
  { split; intros r c Hr Hc; unfold val;
      rewrite elem_at_origin by (unfold NUM_ELEMS; done || lia);
      destruct (Hcells r c) as [[(va & Eva & Hva) (vb & Evb & Hvb)] _];
      try done; first [rewrite Eva | rewrite Evb]; (split; [done|cbn; lia]). }
  destruct (strassen_agrees_with_naive fuel a b m3 n Hn Hai Haj Hbi Hbj Ha Hb)
    as (res & res' & Hs & Hnv & Hres).
  by exists a, b, res, res'.
Qed.

Lemma random_inputs_multiply_exactly_witness :
  ∃ a b res res',
    generate_random counter_rand zeros zeros 4 = Done (a, b) ∧
    strassen_matrix_multiply 2 a b 4 = Done res ∧
    multiply_naive a b uninitialised 4 = Done res' ∧
    ∀ r c, 0 ≤ r < 4 → 0 ≤ c < 4 →
      res.(m) !! (r, c) = Some (product_entry a b 4 r c) ∧
      res'.(m) !! (r, c) = Some (product_entry a b 4 r c).
Proof.
  apply (random_inputs_multiply_exactly counter_rand zeros zeros
           uninitialised 4 0); [by right|].
  intros k. unfold counter_rand. lia.
Defined.

(** ** main: printing the two results *)

Lemma bind_assoc {A B C} (o : outcome A) (f : A → outcome B)
    (g : B → outcome C) :
  (o ≫= f) ≫= g = o ≫= (λ x, f x ≫= g).
Proof. by destruct o. Qed.

Section standard.
Context (m1 m2 : matrix) (n : Z).
Hypothesis n_fits : n ≤ NUM_ELEMS.
Hypothesis determinate : ∀ r c, 0 ≤ r < n → 0 ≤ c < n →
  is_Some (m1.(m) !! (r, c)) ∧ is_Some (m2.(m) !! (r, c)).

(** The two loops go through the same matrices; the second also
    collects the value of each cell when it is complete. *)
Lemma standard_run xs x out :
  (∀ rc, rc ∈ xs → 0 ≤ rc.1 < n ∧ 0 ≤ rc.2 < n) →
  ∃ x',
    foldM (λ rc m3, g ← store m3.(m) rc.1 rc.2 0;
             for_ 0 n (accumulate m1 m2 rc.1 rc.2) (set_m g m3)) xs x
    = Done x' ∧
    foldM (λ rc s,
             g ← store s.1.(m) rc.1 rc.2 0;
             x ← for_ 0 n (accumulate m1 m2 rc.1 rc.2) (set_m g s.1);
             v ← load x.(m) rc.1 rc.2;
             Done (x, s.2 ++ [v])) xs (x, out)
    = Done (x', out ++ ((λ rc, wrap (dot m1.(m) m2.(m) rc.1 rc.2 n)) <$> xs)).
Proof.
  revert x out. induction xs as [|[r c] xs IH]; intros x out Hxs;
    cbn [foldM fst snd fmap list_fmap].
  - exists x. by rewrite app_nil_r.
  - destruct (Hxs (r, c)) as [Hr Hc]; [by left|]. cbn in Hr, Hc.
    destruct (naive_cell m1 m2 n n_fits determinate r c x Hr Hc)
      as (x1 & Hx1 & Hrc & _).
    rewrite Hx1, bind_Done.
    rewrite <- (bind_assoc (store (m x) r c 0)), Hx1, bind_Done.
    rewrite (load_in_range n n_fits _ _ _ _ Hr Hc Hrc), !bind_Done.
    destruct (IH x1 (out ++ [wrap (dot (m m1) (m m2) r c n)]))
      as (x' & -> & ->).
    { intros rc Hrc'. apply Hxs. by right. }
    exists x'. split; [done|]. by rewrite <- app_assoc.
Qed.
End standard.

(** X13. The loop that prints the standard multiplication prints the
    cells of the matrix it leaves behind: for [n ≤ 16] and determinate
    inputs it returns the same matrix as the loop without printing, and
    the printed values are that matrix's cells of rows and columns below
    [n], row by row; each is the wrapped dot product. *)
Theorem standard_multiplication_prints_cells m1 m2 m3 n :
  n ≤ NUM_ELEMS →
  (∀ r c, 0 ≤ r < n → 0 ≤ c < n →
     is_Some (m1.(m) !! (r, c)) ∧ is_Some (m2.(m) !! (r, c))) →
  ∃ x out,
    standard_multiplication m1 m2 m3 n = Done (x, out) ∧
    multiply_naive m1 m2 m3 n = Done x ∧
    Some <$> out = (λ rc, x.(m) !! rc) <$> traversal 0 n 0 n ∧
    out = (λ rc, wrap (dot m1.(m) m2.(m) rc.1 rc.2 n)) <$> traversal 0 n 0 n.
Proof.
  intros Hn Hdet.
  destruct (standard_run m1 m2 n Hn Hdet (traversal 0 n 0 n) m3 [])
    as (x & Hnaive & Hstd).
  { intros [r c] [Hr Hc]%elem_of_traversal. cbn. lia. }
  destruct (multiply_naive_wraps m1 m2 n Hn Hdet m3) as (x' & Hx' & Hcells).
  assert (multiply_naive m1 m2 m3 n = Done x) as Hx.
  { unfold multiply_naive.
    by rewrite (for_nested (λ r c m3, g ← store m3.(m) r c 0;
                              for_ 0 n (accumulate m1 m2 r c) (set_m g m3))). }
  assert (x' = x) as -> by congruence.
  eexists x, _. split_and!; [|done| |done].
  - unfold standard_multiplication.
    by rewrite (for_nested (λ r c s,
      g ← store s.1.(m) r c 0;
      x ← for_ 0 n (accumulate m1 m2 r c) (set_m g s.1);
      v ← load x.(m) r c; Done (x, s.2 ++ [v]))).
  - cbn [app]. rewrite <- list_fmap_compose. apply list_fmap_ext.
    intros k [r c] Hk%list_elem_of_lookup_2%elem_of_traversal. cbn.
    by rewrite Hcells by lia.
Qed.

Lemma standard_multiplication_prints_cells_witness :
  ∃ x out,
    standard_multiplication A_2x2 B_2x2 uninitialised 2 = Done (x, out) ∧
    multiply_naive A_2x2 B_2x2 uninitialised 2 = Done x ∧
    Some <$> out = (λ rc, x.(m) !! rc) <$> traversal 0 2 0 2 ∧
    out = (λ rc, wrap (dot A_2x2.(m) B_2x2.(m) rc.1 rc.2 2))
            <$> traversal 0 2 0 2.
Proof.
  apply (standard_multiplication_prints_cells A_2x2 B_2x2 uninitialised 2).
  - unfold NUM_ELEMS. lia.
  - intros r c Hr Hc.
    assert (r = 0 ∨ r = 1) as [-> | ->] by lia;
      assert (c = 0 ∨ c = 1) as [-> | ->] by lia;
      split; vm_compute; eauto.
Defined.

Lemma print_result_unset m3 n :
  0 < n → m3.(i) = None → print_result m3 n = Undefined Indeterminate.
Proof.
  intros Hn Hi. unfold print_result, for_.
  rewrite (seqZ_cons 0) by lia. cbn [foldM].
  unfold cell. by rewrite Hi.
Qed.

(** X14. [main] prints the result of the multiplier through the
    result's offsets, which the recursive case leaves unset: whenever
    the multiplier returns at a dimension other than 2, the printing
    loop reads an indeterminate offset.  So [main] reaches its end with
    both results printed only at [n = 2]. *)
Theorem main_report_only_at_2 fuel m1 m2 n :
  (∀ m3, n ≠ 2 → strassen_matrix_multiply fuel m1 m2 n = Done m3 →
     print_result m3 n = Undefined Indeterminate) ∧
  (∀ outs, main_report fuel m1 m2 n = Done outs → n = 2).
Proof.
  assert (∀ m3, n ≠ 2 → strassen_matrix_multiply fuel m1 m2 n = Done m3 →
            print_result m3 n = Undefined Indeterminate) as Hprint.
  { intros m3 Hn Hrun.
    assert (0 < n) as Hpos
      by (destruct (strassen_returns_only_for_2_4_5 _ _ _ _ _ Hrun)
            as [?|[?|?]]; lia).
    apply strassen_recursive_Done_inv in Hrun as (Hi & _); [|done].
    by apply print_result_unset. }
  split; [done|]. intros outs Hrun. unfold main_report in Hrun.
  apply bind_Done_inv in Hrun as (m3 & Hm3 & Hrun).
  destruct (decide (n = 2)) as [|Hn]; [done|].
  by rewrite (Hprint m3 Hn Hm3) in Hrun.
Qed.

Lemma main_report_only_at_2_witness :
  (∃ m3, strassen_matrix_multiply 2 counting_8x8 counting_8x8 4 = Done m3 ∧
         print_result m3 4 = Undefined Indeterminate) ∧
  (∃ outs, main_report 1 A_2x2 B_2x2 2 = Done outs ∧ 2 = 2).
Proof.
  split.
  - destruct (strassen_matrix_multiply 2 counting_8x8 counting_8x8 4)
      as [m3| | |] eqn:E; [|vm_compute in E; discriminate..].
    exists m3. split; [done|].
    apply (proj1 (main_report_only_at_2 2 counting_8x8 counting_8x8 4));
      [lia|done].
  - destruct (main_report 1 A_2x2 B_2x2 2) as [outs| | |] eqn:E;
      [|vm_compute in E; discriminate..].
    exists outs. split; [done|].
    exact (proj2 (main_report_only_at_2 1 A_2x2 B_2x2 2) outs E).
Defined.

Lemma print_result_2x2 c v00 v01 v10 v11 :
  elem c 0 0 = Some v00 → elem c 0 1 = Some v01 →
  elem c 1 0 = Some v10 → elem c 1 1 = Some v11 →
  print_result c 2 = Done [v00; v01; v10; v11].
Proof.
  intros E00 E01 E10 E11. unfold print_result, for_.
  change (seqZ 0 (2 - 0)) with [0; 1]. cbn [foldM].
  rewrite (cell_elem _ _ _ _ E00), (cell_elem _ _ _ _ E01),
    (cell_elem _ _ _ _ E10), (cell_elem _ _ _ _ E11).
  reflexivity.
Qed.

(** X15. At [n = 2], on inputs with offsets 0 and cells of absolute
    value at most 4096, [main] reaches its end and prints the same four
    values twice: the entries of the mathematical product, row by
    row. *)
Theorem main_report_2x2 fuel a b :
  a.(i) = Some 0 → a.(j) = Some 0 → b.(i) = Some 0 → b.(j) = Some 0 →
  bounded_view a 2 4096 → bounded_view b 2 4096 →
  let out := [product_entry a b 2 0 0; product_entry a b 2 0 1;
              product_entry a b 2 1 0; product_entry a b 2 1 1] in
  main_report (S fuel) a b 2 = Done (out, out).
Proof.
  intros Hai Haj Hbi Hbj Ha Hb out. unfold main_report.
  rewrite strassen_at_2.
  destruct (strassen_2x2_exact a b) as (c & -> & _ & _ & Bc & Vc);
    [eapply bounded_view_weaken; [done|lia]..|].
  rewrite bind_Done.
  assert (∀ r s, 0 ≤ r < 2 → 0 ≤ s < 2 →
            elem c r s = Some (product_entry a b 2 r s)) as Ec.
  { intros r s Hr Hs. destruct (Bc r s Hr Hs) as [E _].
    rewrite (elem_val _ _ _ E), Vc by done. reflexivity. }
  rewrite (print_result_2x2 c _ _ _ _ (Ec 0 0 ltac:(lia) ltac:(lia))
             (Ec 0 1 ltac:(lia) ltac:(lia)) (Ec 1 0 ltac:(lia) ltac:(lia))
             (Ec 1 1 ltac:(lia) ltac:(lia))).
  rewrite bind_Done.
  assert (2 ≤ NUM_ELEMS) as Hfits by (unfold NUM_ELEMS; lia).
  destruct (standard_run a b 2 Hfits) with (xs := traversal 0 2 0 2)
    (x := c) (out := @nil Z) as (x & _ & Hstd).
  { intros r s Hr Hs. destruct (Ha r s Hr Hs) as [Ea _].
    destruct (Hb r s Hr Hs) as [Eb _].
    rewrite !elem_at_origin in Ea, Eb by (unfold NUM_ELEMS; done || lia).
    done. }
  { intros [r s] [Hr Hs]%elem_of_traversal. cbn. lia. }
  unfold standard_multiplication.
  rewrite (for_nested (λ r c s,
    g ← store s.1.(m) r c 0;
    x ← for_ 0 2 (accumulate a b r c) (set_m g s.1);
    v ← load x.(m) r c; Done (x, s.2 ++ [v]))), Hstd.
  rewrite bind_Done. cbn [snd app]. do 2 f_equal.
  change (traversal 0 2 0 2) with [(0, 0); (0, 1); (1, 0); (1, 1)].
  cbn [fmap list_fmap fst snd].
  rewrite !dot_product_entry by (done || lia || by left).
  rewrite !wrap_small by (apply product_entry_bound; (done || lia || by left)).
  reflexivity.
Qed.

Lemma main_report_2x2_witness :
  let out := [product_entry A_2x2 B_2x2 2 0 0; product_entry A_2x2 B_2x2 2 0 1;
              product_entry A_2x2 B_2x2 2 1 0; product_entry A_2x2 B_2x2 2 1 1]
  in main_report 1 A_2x2 B_2x2 2 = Done (out, out).
Proof.
  apply (main_report_2x2 0 A_2x2 B_2x2); try reflexivity;
    intros r c Hr Hc;
    assert (r = 0 ∨ r = 1) as [-> | ->] by lia;
    assert (c = 0 ∨ c = 1) as [-> | ->] by lia;
    (split; [vm_compute; eauto|]);
    match goal with
    | |- _ ≤ val ?x ?r ?c ≤ _ =>
        let v := eval vm_compute in (val x r c) in
        change (val x r c) with v; lia
    end.
Defined.

(** ** No wrapped result on non-negative inputs *)

Ltac rep := unfold representable, INT_MIN, INT_MAX in *; lia.

Ltac unwrap_in H :=
  repeat match type of H with
         | context [wrap ?t] =>
             lazymatch t with
             | context [wrap _] => fail
             | _ => rewrite (wrap_small t) in H by rep
             end
         end.

(** One passed addition check: the sum is representable unless both
    operands are [INT_MIN], which the facts at hand exclude. *)
Ltac step_add H :=
  lazymatch type of H with
  | check_overflow ?x ?y true false ≫= _ = Done _ =>
      let E := fresh "E" in
      let R := fresh "R" in
      destruct (check_add_cases x y) as [[E R]|[E R]];
      [ rep | rep
      | rewrite E, bind_Done in H; clear E;
        assert (representable (x + y))
          by (destruct R as [R|[? ?]]; [exact R|rep]);
        clear R; unwrap_in H
      | rewrite E in H; discriminate H ]
  end.

(** One passed multiplication check: the product is representable.  The
    fact goes to the goal, out of the way of the linear steps. *)
Ltac step_mult H :=
  lazymatch type of H with
  | check_overflow ?x ?y false true ≫= _ = Done _ =>
      let E := fresh "E" in
      let P := fresh "P" in
      destruct (check_mult_cases x y) as [[E P]|[[E _]|[E _]]];
      [ first [assumption|rep] | first [assumption|rep]
      | rewrite E, bind_Done in H; clear E; revert P
      | rewrite E in H; discriminate H
      | rewrite E in H; discriminate H ]
  end.

Lemma strassen_2x2_products_sound a b ms a00 a01 a10 a11 b00 b01 b10 b11 :
  elem a 0 0 = Some a00 → elem a 0 1 = Some a01 →
  elem a 1 0 = Some a10 → elem a 1 1 = Some a11 →
  elem b 0 0 = Some b00 → elem b 0 1 = Some b01 →
  elem b 1 0 = Some b10 → elem b 1 1 = Some b11 →
  0 ≤ a00 ≤ INT_MAX → 0 ≤ a01 ≤ INT_MAX →
  0 ≤ a10 ≤ INT_MAX → 0 ≤ a11 ≤ INT_MAX →
  0 ≤ b00 ≤ INT_MAX → 0 ≤ b01 ≤ INT_MAX →
  0 ≤ b10 ≤ INT_MAX → 0 ≤ b11 ≤ INT_MAX →
  strassen_2x2_products a b = Done ms →
  ms = ((a00 + a11) * (b00 + b11), (a10 + a11) * b00, a00 * (b01 - b11),
        a11 * (b10 - b00), (a00 + a01) * b11, (a10 - a00) * (b00 + b01),
        (a01 - a11) * (b10 + b11)) ∧
  representable ((a00 + a11) * (b00 + b11)) ∧
  representable ((a10 + a11) * b00) ∧
  representable (a00 * (b01 - b11)) ∧
  representable (a11 * (b10 - b00)) ∧
  representable ((a00 + a01) * b11) ∧
  representable ((a10 - a00) * (b00 + b01)) ∧
  representable ((a01 - a11) * (b10 + b11)).
Proof.
  intros Ea00 Ea01 Ea10 Ea11 Eb00 Eb01 Eb10 Eb11.
  intros Ba00 Ba01 Ba10 Ba11 Bb00 Bb01 Bb10 Bb11 H.
  unfold strassen_2x2_products, check, lift2, neg in H.
  rewrite !(cell_elem _ _ _ _ Ea00), !(cell_elem _ _ _ _ Ea01),
    !(cell_elem _ _ _ _ Ea10), !(cell_elem _ _ _ _ Ea11),
    !(cell_elem _ _ _ _ Eb00), !(cell_elem _ _ _ _ Eb01),
    !(cell_elem _ _ _ _ Eb10), !(cell_elem _ _ _ _ Eb11) in H.
  rewrite !bind_Done in H.
  unfold int_add, int_sub, int_mul, int_neg in H.
  clear Ea00 Ea01 Ea10 Ea11 Eb00 Eb01 Eb10 Eb11.
  unwrap_in H.
  (* m1 *) step_add H. step_add H. step_mult H.
  (* m2 *) step_add H. step_mult H.
  (* m3 *) step_add H. step_mult H.
  (* m4 *) step_add H. step_mult H.
  (* m5 *) step_add H. step_mult H.
  (* m6 *) step_add H. step_add H. step_mult H.
  (* m7 *) step_add H. step_add H. step_mult H.
  intros P7 P6 P5 P4 P3 P2 P1.
  rewrite !wrap_small in H by assumption.
  by simplify_eq.
Qed.

Lemma strassen_2x2_assemble_sound a c m1 m2 m3 m4 m5 m6 m7 :
  representable m1 → representable m2 → representable m3 →
  representable m4 → representable m5 → representable m6 →
  representable m7 →
  0 ≤ m1 → 0 ≤ m2 → 0 ≤ m5 →
  0 ≤ m1 + m4 - m5 + m7 → 0 ≤ m1 - m2 + m3 + m6 →
  strassen_2x2_assemble a (m1, m2, m3, m4, m5, m6, m7) = Done c →
  c.(i) = a.(i) ∧ c.(j) = a.(j) ∧
  elem c 0 0 = Some (m1 + m4 - m5 + m7) ∧ elem c 0 1 = Some (m3 + m5) ∧
  elem c 1 0 = Some (m2 + m4) ∧ elem c 1 1 = Some (m1 - m2 + m3 + m6) ∧
  representable (m1 + m4 - m5 + m7) ∧ representable (m3 + m5) ∧
  representable (m2 + m4) ∧ representable (m1 - m2 + m3 + m6).
Proof.
  intros R1 R2 R3 R4 R5 R6 R7 N1 N2 N5 T1 T2 H.
  unfold strassen_2x2_assemble, int_add, int_sub, int_neg in H.
  unwrap_in H.
  do 8 step_add H.
  inv_bind_as H c1 A1. inv_bind_as H c2 A2. inv_bind_as H c3 A3.
  inv_bind_as H c4 A4. simplify_eq.
  apply assign_Done_cell in A1 as (I1 & J1 & E1 & F1).
  apply assign_Done_cell in A2 as (I2 & J2 & E2 & F2).
  apply assign_Done_cell in A3 as (I3 & J3 & E3 & F3).
  apply assign_Done_cell in A4 as (I4 & J4 & E4 & F4).
  cbn in I1, J1.
  split_and!; [congruence| congruence| | | |done|rep..].
  - by rewrite F4, F3, F2.
  - by rewrite F4, F3.
  - by rewrite F4.
Qed.

Lemma strassen_2x2_sound fuel a b c :
  nonneg_view a 2 → nonneg_view b 2 →
  strassen_matrix_multiply (S fuel) a b 2 = Done c →
  c.(i) = a.(i) ∧ c.(j) = a.(j) ∧
  ∀ r s, 0 ≤ r < 2 → 0 ≤ s < 2 →
    elem c r s = Some (product_entry a b 2 r s) ∧
    representable (product_entry a b 2 r s).
Proof.
  intros Ha Hb H. rewrite strassen_at_2 in H. unfold strassen_2x2 in H.
  inv_bind_as H ms Hms.
  destruct (Ha 0 0) as [Ea00 Ba00]; [lia..|]. apply elem_val in Ea00.
  destruct (Ha 0 1) as [Ea01 Ba01]; [lia..|]. apply elem_val in Ea01.
  destruct (Ha 1 0) as [Ea10 Ba10]; [lia..|]. apply elem_val in Ea10.
  destruct (Ha 1 1) as [Ea11 Ba11]; [lia..|]. apply elem_val in Ea11.
  destruct (Hb 0 0) as [Eb00 Bb00]; [lia..|]. apply elem_val in Eb00.
  destruct (Hb 0 1) as [Eb01 Bb01]; [lia..|]. apply elem_val in Eb01.
  destruct (Hb 1 0) as [Eb10 Bb10]; [lia..|]. apply elem_val in Eb10.
  destruct (Hb 1 1) as [Eb11 Bb11]; [lia..|]. apply elem_val in Eb11.
  destruct (strassen_2x2_products_sound a b ms _ _ _ _ _ _ _ _
              Ea00 Ea01 Ea10 Ea11 Eb00 Eb01 Eb10 Eb11)
    as (-> & R1 & R2 & R3 & R4 & R5 & R6 & R7); [done..|].
  clear Ha Hb Hms.
  apply strassen_2x2_assemble_sound in H
    as (Hi & Hj & E00 & E01 & E10 & E11 & R00 & R01 & R10 & R11);
    [|done..| | | | |].
  - split_and!; [done..|]. intros r s Hr Hs.
    unfold product_entry. change (seqZ 0 2) with [0; 1]. cbn [foldl].
    assert (r = 0 ∨ r = 1) as [-> | ->] by lia;
      assert (s = 0 ∨ s = 1) as [-> | ->] by lia;
      (split;
       [ first [rewrite E00 | rewrite E01 | rewrite E10 | rewrite E11];
         f_equal; ring
       | first [eapply eq_ind; [exact R00|ring]
               |eapply eq_ind; [exact R01|ring]
               |eapply eq_ind; [exact R10|ring]
               |eapply eq_ind; [exact R11|ring]] ]).
  - apply Z.mul_nonneg_nonneg; lia.
  - apply Z.mul_nonneg_nonneg; lia.
  - apply Z.mul_nonneg_nonneg; lia.
  - replace ((val a 0 0 + val a 1 1) * (val b 0 0 + val b 1 1)
             + val a 1 1 * (val b 1 0 - val b 0 0)
             - (val a 0 0 + val a 0 1) * val b 1 1
             + (val a 0 1 - val a 1 1) * (val b 1 0 + val b 1 1))
      with (val a 0 0 * val b 0 0 + val a 0 1 * val b 1 0) by ring.
    apply Z.add_nonneg_nonneg; apply Z.mul_nonneg_nonneg; lia.
  - replace ((val a 0 0 + val a 1 1) * (val b 0 0 + val b 1 1)
             - (val a 1 0 + val a 1 1) * val b 0 0
             + val a 0 0 * (val b 0 1 - val b 1 1)
             + (val a 1 0 - val a 0 0) * (val b 0 0 + val b 0 1))
      with (val a 1 0 * val b 0 1 + val a 1 1 * val b 1 1) by ring.
    apply Z.add_nonneg_nonneg; apply Z.mul_nonneg_nonneg; lia.
Qed.

(** X16. On non-negative inputs, the only ones the program accepts, the
    [n = 2] case never returns a wrapped value: whenever it returns, the
    result is tagged with the first operand's offsets, its view holds
    the mathematical product, and every entry of that product is
    representable. *)
Theorem strassen_2x2_sound_on_nonneg fuel a b c :
  nonneg_view a 2 → nonneg_view b 2 →
  strassen_matrix_multiply (S fuel) a b 2 = Done c →
  c.(i) = a.(i) ∧ c.(j) = a.(j) ∧
  ∀ r s, 0 ≤ r < 2 → 0 ≤ s < 2 →
    elem c r s = Some (product_entry a b 2 r s) ∧
    representable (product_entry a b 2 r s).
Proof. apply strassen_2x2_sound. Qed.

Lemma counting_view_nonneg :
  nonneg_view counting_view 2 ∧ nonneg_view counting_8x8 2.
Proof.
  split; intros r c Hr Hc; view_cases r c; try lia;
    (split; [vm_compute; eauto|]);
    match goal with
    | |- _ ≤ val ?x ?r ?c ≤ _ =>
        let v := eval vm_compute in (val x r c) in
        change (val x r c) with v; unfold INT_MAX; lia
    end.
Qed.

Lemma strassen_2x2_sound_on_nonneg_witness :
  ∃ c, strassen_matrix_multiply 1 counting_view counting_8x8 2 = Done c ∧
       c.(i) = counting_view.(i) ∧ c.(j) = counting_view.(j) ∧
       ∀ r s, 0 ≤ r < 2 → 0 ≤ s < 2 →
         elem c r s = Some (product_entry counting_view counting_8x8 2 r s) ∧
         representable (product_entry counting_view counting_8x8 2 r s).
Proof.
  destruct counting_view_nonneg as [H1 H2].
  destruct (strassen_matrix_multiply 1 counting_view counting_8x8 2)
    as [c| | |] eqn:E; [|vm_compute in E; discriminate..].
  exists c. split; [done|].
  exact (strassen_2x2_sound_on_nonneg 0 counting_view counting_8x8 c H1 H2 E).
Defined.

(** ** main on non-negative inputs at n = 2 *)

(** X17. At [n = 2], on non-negative inputs with offsets 0 (what both
    input modes produce), whenever the multiplier returns, [main]
    reaches its end and prints the same four values twice: the entries
    of the mathematical product, row by row.  The standard
    multiplication, which checks nothing, cannot wrap where the checked
    multiplier passes. *)
Theorem main_report_exact_on_nonneg fuel a b c :
  a.(i) = Some 0 → a.(j) = Some 0 → b.(i) = Some 0 → b.(j) = Some 0 →
  nonneg_view a 2 → nonneg_view b 2 →
  strassen_matrix_multiply (S fuel) a b 2 = Done c →
  let out := [product_entry a b 2 0 0; product_entry a b 2 0 1;
              product_entry a b 2 1 0; product_entry a b 2 1 1] in
  main_report (S fuel) a b 2 = Done (out, out).
Proof.
  intros Hai Haj Hbi Hbj Ha Hb Hrun out. unfold main_report.
  rewrite Hrun, bind_Done.
  destruct (strassen_2x2_sound fuel a b c Ha Hb Hrun) as (_ & _ & Ec).
  rewrite (print_result_2x2 c _ _ _ _
             (proj1 (Ec 0 0 ltac:(lia) ltac:(lia)))
             (proj1 (Ec 0 1 ltac:(lia) ltac:(lia)))
             (proj1 (Ec 1 0 ltac:(lia) ltac:(lia)))
             (proj1 (Ec 1 1 ltac:(lia) ltac:(lia)))).
  rewrite bind_Done.
  assert (2 ≤ NUM_ELEMS) as Hfits by (unfold NUM_ELEMS; lia).
  destruct (standard_run a b 2 Hfits) with (xs := traversal 0 2 0 2)
    (x := c) (out := @nil Z) as (x & _ & Hstd).
  { intros r s Hr Hs. destruct (Ha r s Hr Hs) as [Ea _].
    destruct (Hb r s Hr Hs) as [Eb _].
    rewrite !elem_at_origin in Ea, Eb by (unfold NUM_ELEMS; done || lia).
    done. }
  { intros [r s] [Hr Hs]%elem_of_traversal. cbn. lia. }
  unfold standard_multiplication.
  rewrite (for_nested (λ r c s,
    g ← store s.1.(m) r c 0;
    x ← for_ 0 2 (accumulate a b r c) (set_m g s.1);
    v ← load x.(m) r c; Done (x, s.2 ++ [v]))), Hstd.
  rewrite bind_Done. cbn [snd app]. do 2 f_equal.
  change (traversal 0 2 0 2) with [(0, 0); (0, 1); (1, 0); (1, 1)].
  cbn [fmap list_fmap fst snd].
  rewrite !dot_product_entry by (done || lia || by left).
  rewrite !wrap_small by (apply Ec; lia).
  reflexivity.
Qed.

Lemma main_report_exact_on_nonneg_witness :
  let a := single 100000 in
  let b := single 20000 in
  let out := [product_entry a b 2 0 0; product_entry a b 2 0 1;
              product_entry a b 2 1 0; product_entry a b 2 1 1]
  in main_report 1 a b 2 = Done (out, out).
Proof.
  intros a b.
  destruct (strassen_matrix_multiply 1 a b 2) as [c| | |] eqn:E;
    [|vm_compute in E; discriminate..].
  apply (main_report_exact_on_nonneg 0 a b c); try reflexivity;
    try exact E;
    intros r s Hr Hs;
    assert (r = 0 ∨ r = 1) as [-> | ->] by lia;
    assert (s = 0 ∨ s = 1) as [-> | ->] by lia;
    (split; [vm_compute; eauto|]);
    match goal with
    | |- _ ≤ val ?x ?r ?c ≤ _ =>
        let v := eval vm_compute in (val x r c) in
        change (val x r c) with v; unfold INT_MAX; lia
    end.
Defined.

(** ** read_from_file *)

Lemma incr_small c : 0 ≤ c ≤ NUM_ELEMS → c +i 1 = c + 1.
Proof.
  unfold NUM_ELEMS. intros Hc. unfold int_add. apply wrap_small.
  unfold representable, INT_MIN, INT_MAX. lia.
Qed.

Lemma read_store_spec x r c v :
  x.(i) = Some 0 → x.(j) = Some 0 →
  read_store x r c v
  = if in_bounds r c then Read (set_m (<[(r, c) := v]> x.(m)) x)
    else Broken OutOfBounds.
Proof. intros Hi Hj. unfold read_store. by rewrite Hi, Hj, !Z.add_0_l. Qed.

Lemma read_bind_Read {A B} (x : A) (k : A → reading B) : Read x ≫= k = k x.
Proof. done. Qed.

(** The loop over the tokens of a line, for a row and a column inside
    the array and [n ≤ 16]. *)
Lemma read_tokens_spec n r tokens : ∀ c x,
  0 ≤ r < NUM_ELEMS → 0 ≤ c < n → n ≤ NUM_ELEMS →
  x.(i) = Some 0 → x.(j) = Some 0 →
  match read_tokens n r c tokens x with
  | Read x' =>
      x'.(i) = Some 0 ∧ x'.(j) = Some 0 ∧
      (∀ k v, c + Z.of_nat k < n → tokens !! k = Some v →
         0 ≤ v ∧ x'.(m) !! (r, c + Z.of_nat k) = Some v) ∧
      (∀ r' c', r' ≠ r ∨ c' < c ∨ n ≤ c' ∨ c + Z.of_nat (length tokens) ≤ c' →
         x'.(m) !! (r', c') = x.(m) !! (r', c'))
  | Refused f =>
      ∃ k v, f = NegativeElement v ∧ v < 0 ∧ tokens !! k = Some v ∧
             c + Z.of_nat k < n
  | Broken _ => False
  end.
Proof.
  induction tokens as [|v rest IH]; intros c x Hr Hc Hn Hi Hj; cbn [read_tokens].
  - split_and!; [done..| |done]. intros k v _ Hk. by rewrite lookup_nil in Hk.
  - rewrite read_store_spec, in_bounds_true, read_bind_Read by (done || lia).
    destruct (Z.ltb_spec v 0) as [Hv|Hv].
    { exists 0%nat, v. split_and!; [done..|lia]. }
    rewrite incr_small by lia.
    destruct (Z.eqb_spec (c + 1) n) as [Hlast|Hmore].
    { split_and!; [done..| |].
      - intros k w Hk Hw. assert (k = 0%nat) as -> by lia.
        cbn in Hw. simplify_eq. split; [done|].
        cbn. by rewrite Z.add_0_r, lookup_insert_eq.
      - intros r' c' Hout. cbn. rewrite length_cons in Hout.
        rewrite lookup_insert_ne; [done|]. intros [= ? ?]. lia. }
    specialize (IH (c + 1) (set_m (<[(r, c) := v]> (m x)) x)).
    destruct (read_tokens n r (c + 1) rest _) as [x'|f|u].
    + destruct IH as (Hi' & Hj' & Hin & Hout); [done || lia..|].
      split_and!; [done..| |].
      * intros [|k] w Hk Hw; cbn in Hw.
        -- simplify_eq. split; [done|]. rewrite Z.add_0_r, Hout by lia.
           cbn. by rewrite lookup_insert_eq.
        -- destruct (Hin k w) as [? Hw']; [lia|done|]. split; [done|].
           rewrite <- Hw'. f_equal. f_equal. lia.
      * intros r' c' Hrc. rewrite length_cons in Hrc.
        rewrite Hout by lia. cbn.
        rewrite lookup_insert_ne; [done|]. intros [= ? ?]. lia.
    + destruct IH as (k & w & -> & Hw & Hk & Hlt); [done || lia..|].
      exists (S k), w. split_and!; [done..|lia].
    + apply IH; done || lia.
Qed.

(** The loop over the lines of a file, for a row inside the array and
    [n ≤ 16]. *)
Lemma read_lines_spec n lines : ∀ r x,
  0 ≤ r < n → n ≤ NUM_ELEMS → x.(i) = Some 0 → x.(j) = Some 0 →
  match read_lines n r lines x with
  | Read x' =>
      x'.(i) = Some 0 ∧ x'.(j) = Some 0 ∧
      (∀ k l tokens v, r + Z.of_nat k < n → Z.of_nat l < n →
         lines !! k = Some tokens → tokens !! l = Some v →
         0 ≤ v ∧ x'.(m) !! (r + Z.of_nat k, Z.of_nat l) = Some v) ∧
      (∀ r' c',
         (∀ k l tokens v, r + Z.of_nat k < n → Z.of_nat l < n →
            lines !! k = Some tokens → tokens !! l = Some v →
            (r', c') ≠ (r + Z.of_nat k, Z.of_nat l)) →
         x'.(m) !! (r', c') = x.(m) !! (r', c'))
  | Refused f =>
      ∃ k l tokens v, f = NegativeElement v ∧ v < 0 ∧
        lines !! k = Some tokens ∧ tokens !! l = Some v ∧
        r + Z.of_nat k < n ∧ Z.of_nat l < n
  | Broken _ => False
  end.
Proof.
  induction lines as [|tokens rest IH]; intros r x Hr Hn Hi Hj;
    cbn [read_lines].
  - split_and!; [done..| |done]. intros k l tokens v _ _ Hk.
    by rewrite lookup_nil in Hk.
  - pose proof (read_tokens_spec n r tokens 0 x) as Hrow.
    destruct (read_tokens n r 0 tokens x) as [x1|f|u]; cbn.
    2:{ destruct Hrow as (l & v & -> & Hv & Hl & Hlt); [done || lia..|].
        exists 0%nat, l, tokens, v. split_and!; [done..|lia|lia]. }
    2:{ apply Hrow; done || lia. }
    destruct Hrow as (Hi1 & Hj1 & Hin1 & Hout1); [done || lia..|].
    assert (∀ r' c',
      (∀ l v, Z.of_nat l < n → tokens !! l = Some v → (r', c') ≠ (r, Z.of_nat l)) →
      m x1 !! (r', c') = m x !! (r', c')) as Hout1'.
    { intros r' c' Hne. apply Hout1.
      destruct (decide (r' = r)) as [->|]; [|by left].
      destruct (decide (c' < 0)); [lia|].
      destruct (decide (n ≤ c')); [lia|].
      destruct (decide (0 + Z.of_nat (length tokens) ≤ c')); [lia|].
      exfalso. destruct (lookup_lt_is_Some_2 tokens (Z.to_nat c')) as [v Hv]; [lia|].
      apply (Hne (Z.to_nat c') v); [lia|done|]. f_equal. lia. }
    rewrite incr_small by lia.
    destruct (Z.eqb_spec (r + 1) n) as [Hlast|Hmore].
    { split_and!; [done..| |].
      - intros k l ts v Hk Hl Hts Hv. assert (k = 0%nat) as -> by lia.
        cbn in Hts. simplify_eq. rewrite Z.add_0_r.
        destruct (Hin1 l v) as [? Hw]; [lia|done|]. by rewrite Z.add_0_l in Hw.
      - intros r' c' Hne. apply Hout1'. intros l v Hl Hv.
        specialize (Hne 0%nat l tokens v). rewrite Z.add_0_r in Hne.
        apply Hne; (done || lia). }
    specialize (IH (r + 1) x1).
    destruct (read_lines n (r + 1) rest x1) as [x'|f|u].
    + destruct IH as (Hi' & Hj' & Hin & Hout); [done || lia..|].
      split_and!; [done..| |].
      * intros [|k] l ts v Hk Hl Hts Hv; cbn in Hts.
        -- simplify_eq. rewrite Z.add_0_r.
           destruct (Hin1 l v) as [? Hw]; [lia|done|]. split; [done|].
           rewrite Z.add_0_l in Hw. rewrite Hout; [done|].
           intros k' l' ts' v' _ _ _ _ [= ? ?]. lia.
        -- destruct (Hin k l ts v) as [? Hw]; [lia|done..|]. split; [done|].
           rewrite <- Hw. f_equal. f_equal. lia.
      * intros r' c' Hne. rewrite Hout.
        -- apply Hout1'. intros l v Hl Hv.
           specialize (Hne 0%nat l tokens v). rewrite Z.add_0_r in Hne.
           apply Hne; (done || lia).
        -- intros k l ts v Hk Hl Hts Hv.
           specialize (Hne (S k) l ts v).
           replace (r + Z.of_nat (S k)) with (r + 1 + Z.of_nat k) in Hne by lia.
           apply Hne; (done || lia).
    + destruct IH as (k & l & ts & v & -> & Hv & Hts & Hl & Hk & Hlt);
        [done || lia..|].
      exists (S k), l, ts, v. split_and!; [done..|lia|done].
    + apply IH; done || lia.
Qed.

Lemma token_at_of_nat lines k l :
  token_at lines (Z.of_nat k) (Z.of_nat l) = tokens ← lines !! k; tokens !! l.
Proof.
  unfold token_at. rewrite decide_True by lia. by rewrite !Nat2Z.id.
Qed.

Lemma token_at_Some lines r c v :
  token_at lines r c = Some v ↔
  ∃ k l tokens, r = Z.of_nat k ∧ c = Z.of_nat l ∧
                lines !! k = Some tokens ∧ tokens !! l = Some v.
Proof.
  split.
  - unfold token_at. destruct (decide _) as [[Hr Hc]|]; [|done].
    destruct (lines !! Z.to_nat r) as [tokens|] eqn:Hk; [|done]. cbn.
    intros Hl. exists (Z.to_nat r), (Z.to_nat c), tokens.
    split_and!; [lia|lia|done..].
  - intros (k & l & tokens & -> & -> & Hk & Hl).
    by rewrite token_at_of_nat, Hk.
Qed.

(** One half of [read_from_file] on a file that opens, for a dimension
    from 1 to 16. *)
Lemma read_matrix_spec n lines x :
  1 ≤ n ≤ NUM_ELEMS →
  match read_matrix (Some lines) n x with
  | Read x' =>
      filled_from lines n x x' ∧
      ∀ r c v, r < n → c < n → token_at lines r c = Some v → 0 ≤ v
  | Refused f =>
      ∃ r c v, f = NegativeElement v ∧ v < 0 ∧ r < n ∧ c < n ∧
               token_at lines r c = Some v
  | Broken _ => False
  end.
Proof.
  intros Hn. unfold read_matrix.
  pose proof (read_lines_spec n lines 0
                {| m := x.(m); i := Some 0; j := Some 0 |}) as Hspec.
  destruct (read_lines n 0 lines _) as [x'|f|u].
  - destruct Hspec as (Hi & Hj & Hin & Hout); [done || lia..|]. cbn in Hout.
    split.
    + split_and!; [done..|]. intros r c.
      destruct (decide (r < n ∧ c < n)) as [[Hr Hc]|Hrc].
      * destruct (token_at lines r c) as [v|] eqn:Hv.
        -- apply token_at_Some in Hv as (k & l & tokens & -> & -> & Hk & Hl).
           destruct (Hin k l tokens v) as [_ Hw]; [lia|lia|done..|].
           by rewrite Z.add_0_l in Hw.
        -- apply Hout. intros k l tokens v Hk Hl Hts Htv [= -> ->].
           rewrite Z.add_0_l, token_at_of_nat, Hts in Hv. cbn in Hv. congruence.
      * apply Hout. intros k l tokens v Hk Hl Hts Htv [= -> ->]. lia.
    + intros r c v Hr Hc Hv.
      apply token_at_Some in Hv as (k & l & tokens & -> & -> & Hk & Hl).
      by destruct (Hin k l tokens v) as [? _]; [lia|lia|done..|].
  - destruct Hspec as (k & l & tokens & v & -> & Hv & Hk & Hl & Hkn & Hln);
      [done || lia..|].
    exists (Z.of_nat k), (Z.of_nat l), v. split_and!; [done|done|lia|lia|].
    by rewrite token_at_of_nat, Hk.
  - apply Hspec; done || lia.
Qed.

Lemma read_from_file_Read_inv a_txt b_txt m1 m2 n a b :
  1 ≤ n ≤ NUM_ELEMS →
  read_from_file a_txt b_txt m1 m2 n = Read (a, b) →
  ∃ la lb, a_txt = Some la ∧ b_txt = Some lb ∧
    filled_from la n m1 a ∧ filled_from lb n m2 b ∧
    (∀ r c v, r < n → c < n → token_at la r c = Some v → 0 ≤ v) ∧
    (∀ r c v, r < n → c < n → token_at lb r c = Some v → 0 ≤ v).
Proof.
  intros Hn Hrun. unfold read_from_file in Hrun.
  destruct a_txt as [la|]; [|done]. destruct b_txt as [lb|].
  2:{ by destruct (read_matrix (Some la) n m1). }
  pose proof (read_matrix_spec n la m1 Hn) as Ha.
  pose proof (read_matrix_spec n lb m2 Hn) as Hb.
  destruct (read_matrix (Some la) n m1) as [a'| |]; [|done..].
  destruct (read_matrix (Some lb) n m2) as [b'| |]; [|done..].
  cbn in Hrun. simplify_eq. exists la, lb. by destruct Ha, Hb.
Qed.

(** X18. For a dimension from 1 to 16, when [read_from_file] returns,
    both files were opened, both matrices have offsets 0, and a cell
    holds token [c] of line [r] of its file if [r] and [c] are below
    [n] and the file has that token; every other cell is left as it
    was.  Lines and tokens from the [n]-th on are not read. *)
Theorem read_from_file_fills_corner a_txt b_txt m1 m2 n a b :
  1 ≤ n ≤ NUM_ELEMS →
  read_from_file a_txt b_txt m1 m2 n = Read (a, b) →
  ∃ la lb, a_txt = Some la ∧ b_txt = Some lb ∧
           filled_from la n m1 a ∧ filled_from lb n m2 b.
Proof.
  intros Hn Hrun.
  destruct (read_from_file_Read_inv _ _ _ _ _ _ _ Hn Hrun)
    as (la & lb & ? & ? & ? & ? & _).
  by exists la, lb.
Qed.

Lemma read_from_file_fills_corner_witness :
  ∃ a b,
    read_from_file (Some [[1; 2; 9]; [3]; [9; 9]]) (Some [[5; 6]]) uninitialised uninitialised 2
    = Read (a, b) ∧
    ∃ la lb, Some [[1; 2; 9]; [3]; [9; 9]] = Some la ∧ Some [[5; 6]] = Some lb ∧
             filled_from la 2 uninitialised a ∧ filled_from lb 2 uninitialised b.
Proof.
  destruct (read_from_file (Some [[1; 2; 9]; [3]; [9; 9]]) (Some [[5; 6]])
              uninitialised uninitialised 2) as [[a b]| |] eqn:E;
    [|vm_compute in E; discriminate..].
  exists a, b. split; [done|].
  apply (read_from_file_fills_corner _ _ uninitialised uninitialised 2 a b); [|exact E].
  unfold NUM_ELEMS. lia.
Defined.

(** X19. For a dimension from 1 to 16, [read_from_file] writes inside
    the arrays whatever the files hold, and ends in one of three ways:
    it returns, and then every token read is non-negative; it exits on a
    file that does not open; or it exits on a negative token among the
    first [n] tokens of the first [n] lines of a file. *)
Theorem read_from_file_outcomes a_txt b_txt m1 m2 n :
  1 ≤ n ≤ NUM_ELEMS →
  match read_from_file a_txt b_txt m1 m2 n with
  | Read _ =>
      ∃ la lb, a_txt = Some la ∧ b_txt = Some lb ∧
        ∀ r c v, r < n → c < n →
          token_at la r c = Some v ∨ token_at lb r c = Some v → 0 ≤ v
  | Refused OpenError => a_txt = None ∨ b_txt = None
  | Refused (NegativeElement v) =>
      v < 0 ∧
      ∃ lines r c, (a_txt = Some lines ∨ b_txt = Some lines) ∧
                   r < n ∧ c < n ∧ token_at lines r c = Some v
  | Broken _ => False
  end.
Proof.
  intros Hn. unfold read_from_file.
  destruct a_txt as [la|]; [|by left].
  pose proof (read_matrix_spec n la m1 Hn) as Ha.
  destruct (read_matrix (Some la) n m1) as [a'|f|u]; cbn.
  2:{ destruct Ha as (r & c & v & -> & Hv & Hr & Hc & Hrc).
      split; [done|]. exists la, r, c. split_and!; [by left|done..]. }
  2:{ done. }
  destruct b_txt as [lb|]; [|by right].
  pose proof (read_matrix_spec n lb m2 Hn) as Hb.
  destruct (read_matrix (Some lb) n m2) as [b'|f|u]; cbn.
  - exists la, lb. split_and!; [done..|]. intros r c v Hr Hc [Hv|Hv].
    + by apply (proj2 Ha r c v).
    + by apply (proj2 Hb r c v).
  - destruct Hb as (r & c & v & -> & Hv & Hr & Hc & Hrc).
    split; [done|]. exists lb, r, c. split_and!; [by right|done..].
  - done.
Qed.

Lemma read_from_file_outcomes_witness :
  read_from_file (Some [[1; 2]; [3; 4]]) (Some [[5; -6]; [7; 8]]) uninitialised uninitialised 2
  = Refused (NegativeElement (-6)) ∧
  (-6 < 0 ∧
   ∃ lines r c,
     (Some [[1; 2]; [3; 4]] = Some lines ∨ Some [[5; -6]; [7; 8]] = Some lines) ∧
     r < 2 ∧ c < 2 ∧ token_at lines r c = Some (-6)).
Proof.
  split; [reflexivity|].
  assert (1 ≤ 2 ≤ NUM_ELEMS) as Hn by (unfold NUM_ELEMS; lia).
  exact (read_from_file_outcomes (Some [[1; 2]; [3; 4]])
           (Some [[5; -6]; [7; 8]]) uninitialised uninitialised 2 Hn).
Defined.

(** The loop over the tokens of a line for a dimension outside 1..16:
    [++j == n] is never true inside the array. *)
Lemma read_tokens_overrun n r tokens : ∀ c x,
  ¬ (1 ≤ n ≤ NUM_ELEMS) → 0 ≤ r < NUM_ELEMS → 0 ≤ c ≤ NUM_ELEMS →
  x.(i) = Some 0 → x.(j) = Some 0 →
  Forall (λ v, 0 ≤ v) tokens → NUM_ELEMS - c < Z.of_nat (length tokens) →
  read_tokens n r c tokens x = Broken OutOfBounds.
Proof.
  induction tokens as [|v rest IH]; intros c x Hn Hr Hc Hi Hj Hpos Hlen.
  - cbn in Hlen. lia.
  - apply Forall_cons in Hpos as [Hv Hpos]. rewrite length_cons in Hlen.
    cbn [read_tokens]. rewrite read_store_spec by done.
    destruct (decide (c = NUM_ELEMS)) as [->|Hne].
    { replace (in_bounds r NUM_ELEMS) with false; [done|].
      symmetry. apply andb_false_iff. by right. }
    rewrite in_bounds_true, read_bind_Read by lia.
    destruct (Z.ltb_spec v 0) as [?|_]; [lia|].
    rewrite incr_small by lia.
    destruct (Z.eqb_spec (c + 1) n) as [?|_]; [lia|].
    apply IH; done || lia.
Qed.

(** X20. [main] lets a dimension [n ≤ 0] through, and [read_from_file]
    then never meets its [++j == n]: on a first line of a.txt with more
    than 16 tokens, none negative, it writes past the end of a row of
    the array. *)
Theorem read_from_file_overruns n tokens rest b_txt m1 m2 :
  n ≤ 0 → Forall (λ v, 0 ≤ v) tokens → NUM_ELEMS < Z.of_nat (length tokens) →
  main_option_n n = Done () ∧
  read_from_file (Some (tokens :: rest)) b_txt m1 m2 n = Broken OutOfBounds.
Proof.
  intros Hn Hpos Hlen. split.
  - unfold main_option_n, NUM_ELEMS.
    destruct (Z.ltb_spec 16 n) as [?|_]; [lia|done].
  - unfold read_from_file, read_matrix. cbn [read_lines].
    rewrite read_tokens_overrun; [done| |done..|lia]; unfold NUM_ELEMS; lia.
Qed.

Lemma read_from_file_overruns_witness :
  main_option_n 0 = Done () ∧
  read_from_file (Some [replicate 17 1]) (Some []) uninitialised uninitialised 0
  = Broken OutOfBounds.
Proof.
  apply (read_from_file_overruns 0 (replicate 17 1) [] (Some []) uninitialised uninitialised).
  - lia.
  - by apply Forall_replicate.
  - vm_compute. reflexivity.
Defined.

(** ** main: clearing the arrays, then reading the files *)

Lemma clear_elem_spec r c ms :
  0 ≤ r < NUM_ELEMS → 0 ≤ c < NUM_ELEMS →
  clear_elem r c ms
  = Done (set_m (<[(r, c) := 0]> ms.1.1.(m)) ms.1.1,
          set_m (<[(r, c) := 0]> ms.1.2.(m)) ms.1.2,
          set_m (<[(r, c) := 0]> ms.2.(m)) ms.2).
Proof. intros Hr Hc. unfold clear_elem. by rewrite !store_in_range. Qed.

Lemma clear_run xs ms :
  (∀ rc, rc ∈ xs → 0 ≤ rc.1 < NUM_ELEMS ∧ 0 ≤ rc.2 < NUM_ELEMS) →
  ∃ ms', foldM (λ rc, clear_elem rc.1 rc.2) xs ms = Done ms' ∧
    (ms'.1.1.(i) = ms.1.1.(i) ∧ ms'.1.1.(j) = ms.1.1.(j)) ∧
    (ms'.1.2.(i) = ms.1.2.(i) ∧ ms'.1.2.(j) = ms.1.2.(j)) ∧
    (ms'.2.(i) = ms.2.(i) ∧ ms'.2.(j) = ms.2.(j)) ∧
    ∀ k, (k ∈ xs → ms'.1.1.(m) !! k = Some 0 ∧ ms'.1.2.(m) !! k = Some 0 ∧
                   ms'.2.(m) !! k = Some 0) ∧
         (k ∉ xs → ms'.1.1.(m) !! k = ms.1.1.(m) !! k ∧
                   ms'.1.2.(m) !! k = ms.1.2.(m) !! k ∧
                   ms'.2.(m) !! k = ms.2.(m) !! k).
Proof.
  revert ms. induction xs as [|[r c] xs IH]; intros ms Hxs; cbn [foldM fst snd].
  - exists ms. split_and!; [done..|]. intros k. split; [|done].
    intros Hk. by apply elem_of_nil in Hk.
  - destruct (Hxs (r, c)) as [Hr Hc]; [by left|]. cbn in Hr, Hc.
    rewrite clear_elem_spec, bind_Done by done.
    edestruct IH as (ms' & -> & H1 & H2 & H3 & Hk).
    { intros rc Hrc. apply Hxs. by right. }
    exists ms'. unfold set_m in H1, H2, H3. cbn in H1, H2, H3.
    split_and!; [done|tauto..|]. intros k.
    destruct (Hk k) as [Hin Hout]. cbn in Hout.
    destruct (decide (k ∈ xs)) as [Hkx|Hkx].
    + split; [auto|]. intros Hn. exfalso. apply Hn. by right.
    + destruct (Hout Hkx) as (-> & -> & ->). split.
      * intros [->|?]%elem_of_cons; [|done]. by rewrite !lookup_insert_eq.
      * intros Hn. rewrite !lookup_insert_ne; [done|..];
          intros <-; apply Hn; by left.
Qed.

Lemma main_clear_spec m1 m2 m3 :
  ∃ z1 z2 z3, main_clear (m1, m2, m3) = Done (z1, z2, z3) ∧
    cleared z1 ∧ cleared z2 ∧ cleared z3 ∧
    z1.(i) = m1.(i) ∧ z1.(j) = m1.(j) ∧ z2.(i) = m2.(i) ∧ z2.(j) = m2.(j) ∧
    z3.(i) = m3.(i) ∧ z3.(j) = m3.(j).
Proof.
  unfold main_clear. rewrite (for_nested clear_elem).
  destruct (clear_run (traversal 0 NUM_ELEMS 0 NUM_ELEMS) (m1, m2, m3))
    as ([[z1 z2] z3] & -> & [? ?] & [? ?] & [? ?] & Hk).
  { intros [r c] [Hr Hc]%elem_of_traversal. cbn. lia. }
  cbn in *. exists z1, z2, z3. split_and!; [done| | | |done..];
    intros r c Hr Hc; apply (proj1 (Hk (r, c)));
    by apply elem_of_traversal.
Qed.

(** X21. The clearing loops of [main] always run to their end, and leave
    all 256 cells of each of the three arrays at 0.  They do not set
    the offsets. *)
Theorem main_clear_zeroes m1 m2 m3 :
  ∃ z1 z2 z3, main_clear (m1, m2, m3) = Done (z1, z2, z3) ∧
    cleared z1 ∧ cleared z2 ∧ cleared z3 ∧
    z1.(i) = m1.(i) ∧ z1.(j) = m1.(j) ∧ z2.(i) = m2.(i) ∧ z2.(j) = m2.(j) ∧
    z3.(i) = m3.(i) ∧ z3.(j) = m3.(j).
Proof. apply main_clear_spec. Qed.

Lemma filled_cleared_nonneg lines n z x :
  1 ≤ n ≤ NUM_ELEMS → cleared z → filled_from lines n z x →
  (∀ r c v, r < n → c < n → token_at lines r c = Some v → 0 ≤ v ≤ INT_MAX) →
  nonneg_view x n.
Proof.
  intros Hn Hz (Hi & Hj & Hm) Hv r c Hr Hc.
  assert (∃ v, elem x r c = Some v ∧ 0 ≤ v ≤ INT_MAX) as (v & E & B).
  { rewrite elem_at_origin, Hm by (done || lia).
    rewrite decide_True by lia.
    destruct (token_at lines r c) as [v|] eqn:Ht.
    - exists v. split; [done|]. apply (Hv r c); [lia|lia|done].
    - exists 0. rewrite Hz by lia. split; [done|]. unfold INT_MAX. lia. }
  split; [by rewrite E|]. by rewrite (val_elem _ _ _ _ E).
Qed.

(** X22. In file mode [main] hands the multiplier non-negative views:
    for a dimension from 1 to 16, after the clearing loops and
    [read_from_file], both matrices have offsets 0 and every cell of
    their [n]-by-[n] views holds a value from 0 to [INT_MAX], a token of
    the file or the 0 the clearing left where the file has none.
    [atoi] returns an [int], so no token exceeds [INT_MAX]. *)
Theorem file_inputs_nonneg a_txt b_txt m1 m2 m3 z1 z2 z3 n a b :
  1 ≤ n ≤ NUM_ELEMS →
  (∀ lines r c v, a_txt = Some lines ∨ b_txt = Some lines →
     token_at lines r c = Some v → v ≤ INT_MAX) →
  main_clear (m1, m2, m3) = Done (z1, z2, z3) →
  read_from_file a_txt b_txt z1 z2 n = Read (a, b) →
  a.(i) = Some 0 ∧ a.(j) = Some 0 ∧ b.(i) = Some 0 ∧ b.(j) = Some 0 ∧
  nonneg_view a n ∧ nonneg_view b n.
Proof.
  intros Hn Hint Hclear Hread.
  destruct (main_clear_spec m1 m2 m3)
    as (z1' & z2' & z3' & Hrun & Hz1 & Hz2 & _).
  rewrite Hclear in Hrun. injection Hrun as <- <- <-.
  destruct (read_from_file_Read_inv _ _ _ _ _ _ _ Hn Hread)
    as (la & lb & -> & -> & Ha & Hb & Hpa & Hpb).
  split_and!; [apply Ha|apply Ha|apply Hb|apply Hb| |].
  - apply (filled_cleared_nonneg la n z1); [done..|].
    intros r c v Hr Hc Hv. split; [by apply (Hpa r c)|].
    apply (Hint la r c); [by left|done].
  - apply (filled_cleared_nonneg lb n z2); [done..|].
    intros r c v Hr Hc Hv. split; [by apply (Hpb r c)|].
    apply (Hint lb r c); [by right|done].
Qed.

Lemma small_tokens lines r c v :
  Some [[1; 2]; [3]] = Some lines ∨ Some [[5; 6]; [7; 8]] = Some lines →
  token_at lines r c = Some v → v ≤ INT_MAX.
Proof.
  intros Hl Hv.
  apply token_at_Some in Hv as (k & l & tokens & -> & -> & Hk & Hv).
  unfold INT_MAX.
  destruct Hl as [[= <-]|[= <-]];
    destruct k as [|[|[|k]]]; cbn in Hk; try discriminate Hk;
    injection Hk as <-;
    destruct l as [|[|[|l]]]; cbn in Hv; try discriminate Hv;
    injection Hv as <-; lia.
Qed.

Lemma file_inputs_nonneg_witness :
  ∃ z1 z2 z3 a b,
    main_clear (uninitialised, uninitialised, uninitialised)
    = Done (z1, z2, z3) ∧
    read_from_file (Some [[1; 2]; [3]]) (Some [[5; 6]; [7; 8]]) z1 z2 2
    = Read (a, b) ∧
    a.(i) = Some 0 ∧ a.(j) = Some 0 ∧ b.(i) = Some 0 ∧ b.(j) = Some 0 ∧
    nonneg_view a 2 ∧ nonneg_view b 2.
Proof.
  destruct (main_clear_spec uninitialised uninitialised uninitialised)
    as (z1 & z2 & z3 & E & _).
  destruct (read_from_file (Some [[1; 2]; [3]]) (Some [[5; 6]; [7; 8]]) z1 z2 2)
    as [[a b]| |] eqn:R; [|vm_compute in R; discriminate R..].
  exists z1, z2, z3, a, b. split; [exact E|]. split; [exact R|].
  apply (file_inputs_nonneg _ _ _ _ _ _ _ _ 2 a b
           ltac:(unfold NUM_ELEMS; lia) small_tokens E R).
Defined.

(** ** The multiplier modulo 2^32 *)

#[global] Instance congruent_equivalence : Equivalence congruent.
Proof. apply (eqm_setoid 4294967296). Qed.

#[global] Instance congruent_add :
  Proper (congruent ==> congruent ==> congruent) Z.add.
Proof. apply (Zplus_eqm 4294967296). Qed.

#[global] Instance congruent_sub :
  Proper (congruent ==> congruent ==> congruent) Z.sub.
Proof. apply (Zminus_eqm 4294967296). Qed.

#[global] Instance congruent_mul :
  Proper (congruent ==> congruent ==> congruent) Z.mul.
Proof. apply (Zmult_eqm 4294967296). Qed.

#[global] Instance congruent_opp : Proper (congruent ==> congruent) Z.opp.
Proof. apply (Zopp_eqm 4294967296). Qed.

Lemma wrap_congruent x : congruent (wrap x) x.
Proof.
  unfold congruent. destruct (wrap_multiple x) as [k ->].
  replace (x - 4294967296 * k) with (x + (- k) * 4294967296) by lia.
  apply Z.mod_add. lia.
Qed.

Lemma congruent_wrap x y : congruent x y → wrap x = wrap y.
Proof.
  intros H. unfold wrap. f_equal.
  change (congruent (x + 2147483648) (y + 2147483648)).
  by rewrite H.
Qed.

(** [int] arithmetic computes modulo 2^32: an expression built from
    wrapped operations is the wrap of the exact expression. *)
Ltac modular :=
  unfold int_add, int_sub, int_mul, int_neg;
  apply congruent_wrap; rewrite ?wrap_congruent;
  unfold congruent; f_equal; ring.

Lemma check_Done_operands e1 e2 add mult u :
  check e1 e2 add mult = Done u → ∃ x y, e1 = Done x ∧ e2 = Done y.
Proof. unfold check. destruct e1, e2; cbn; (done || eauto). Qed.

Lemma neg_Done_operand e v : neg e = Done v → ∃ x, e = Done x.
Proof. unfold neg. destruct e; cbn; (done || eauto). Qed.

(** A run of the checks and products that returns has read eight
    determinate cells, and returns the seven wrapped products. *)
Lemma strassen_2x2_products_Done_inv a b ms :
  strassen_2x2_products a b = Done ms →
  ∃ a00 a01 a10 a11 b00 b01 b10 b11,
    cell a 0 0 = Done a00 ∧ cell a 0 1 = Done a01 ∧
    cell a 1 0 = Done a10 ∧ cell a 1 1 = Done a11 ∧
    cell b 0 0 = Done b00 ∧ cell b 0 1 = Done b01 ∧
    cell b 1 0 = Done b10 ∧ cell b 1 1 = Done b11 ∧
    ms = ((a00 +i a11) *i (b00 +i b11), (a10 +i a11) *i b00,
          a00 *i (b01 -i b11), a11 *i (b10 -i b00), (a00 +i a01) *i b11,
          (a10 -i a00) *i (b00 +i b01), (a01 -i a11) *i (b10 +i b11)).
Proof.
  intros H. unfold strassen_2x2_products in H. cbv zeta in H.
  inv_bind_as H u1 C1. apply check_Done_operands in C1 as (a00 & a11 & Ea00 & Ea11).
  inv_bind_as H u2 C2. apply check_Done_operands in C2 as (b00 & b11 & Eb00 & Eb11).
  inv_bind_as H u3 C3. clear C3.
  inv_bind_as H u4 C4. apply check_Done_operands in C4 as (a10 & ? & Ea10 & _).
  inv_bind_as H u5 C5. clear C5.
  inv_bind_as H u6 C6. apply check_Done_operands in C6 as (b01 & ? & Eb01 & _).
  inv_bind_as H u7 C7. clear C7.
  inv_bind_as H u8 C8. apply check_Done_operands in C8 as (b10 & ? & Eb10 & _).
  inv_bind_as H u9 C9. clear C9.
  inv_bind_as H u10 C10. apply check_Done_operands in C10 as (? & a01 & _ & Ea01).
  do 7 (let u := fresh "u" in let C := fresh "C" in
        inv_bind_as H u C; clear C).
  unfold lift2 in H.
  rewrite Ea00, Ea01, Ea10, Ea11, Eb00, Eb01, Eb10, Eb11 in H.
  cbn in H. injection H as <-.
  exists a00, a01, a10, a11, b00, b01, b10, b11. done.
Qed.

(** A run of the second part that returns has stored the four wrapped
    sums at the offsets of [a]. *)
Lemma strassen_2x2_assemble_Done_inv a c m1 m2 m3 m4 m5 m6 m7 :
  strassen_2x2_assemble a (m1, m2, m3, m4, m5, m6, m7) = Done c →
  c.(i) = a.(i) ∧ c.(j) = a.(j) ∧
  elem c 0 0 = Some (m1 +i m4 -i m5 +i m7) ∧ elem c 0 1 = Some (m3 +i m5) ∧
  elem c 1 0 = Some (m2 +i m4) ∧ elem c 1 1 = Some (m1 -i m2 +i m3 +i m6).
Proof.
  intros H. unfold strassen_2x2_assemble in H.
  do 8 (let u := fresh "u" in let C := fresh "C" in
        inv_bind_as H u C; clear C).
  inv_bind_as H c1 A1. inv_bind_as H c2 A2. inv_bind_as H c3 A3.
  inv_bind_as H c4 A4. simplify_eq.
  apply assign_Done_cell in A1 as (I1 & J1 & E1 & F1).
  apply assign_Done_cell in A2 as (I2 & J2 & E2 & F2).
  apply assign_Done_cell in A3 as (I3 & J3 & E3 & F3).
  apply assign_Done_cell in A4 as (I4 & J4 & E4 & F4).
  cbn in I1, J1.
  split_and!; [congruence| congruence| | | |done].
  - by rewrite F4, F3, F2.
  - by rewrite F4, F3.
  - by rewrite F4.
Qed.

Lemma strassen_2x2_wrapped a b c :
  strassen_2x2 a b = Done c →
  c.(i) = a.(i) ∧ c.(j) = a.(j) ∧
  (∀ r s, 0 ≤ r < 2 → 0 ≤ s < 2 →
     is_Some (elem a r s) ∧ is_Some (elem b r s)) ∧
  ∀ r s, 0 ≤ r < 2 → 0 ≤ s < 2 →
    elem c r s = Some (wrap (product_entry a b 2 r s)).
Proof.
  intros H. unfold strassen_2x2 in H. inv_bind_as H ms Hms.
  apply strassen_2x2_products_Done_inv in Hms
    as (a00 & a01 & a10 & a11 & b00 & b01 & b10 & b11
        & Ea00%elem_cell & Ea01%elem_cell & Ea10%elem_cell & Ea11%elem_cell
        & Eb00%elem_cell & Eb01%elem_cell & Eb10%elem_cell & Eb11%elem_cell
        & ->).
  apply strassen_2x2_assemble_Done_inv in H as (Hi & Hj & E00 & E01 & E10 & E11).
  split_and!; [done..| |].
  - intros r s Hr Hs.
    assert (r = 0 ∨ r = 1) as [-> | ->] by lia;
      assert (s = 0 ∨ s = 1) as [-> | ->] by lia; split; by eexists.
  - intros r s Hr Hs. unfold product_entry.
    change (seqZ 0 2) with [0; 1]. cbn [foldl].
    assert (r = 0 ∨ r = 1) as [-> | ->] by lia;
      assert (s = 0 ∨ s = 1) as [-> | ->] by lia;
      rewrite ?(val_elem _ _ _ _ Ea00), ?(val_elem _ _ _ _ Ea01),
        ?(val_elem _ _ _ _ Ea10), ?(val_elem _ _ _ _ Ea11),
        ?(val_elem _ _ _ _ Eb00), ?(val_elem _ _ _ _ Eb01),
        ?(val_elem _ _ _ _ Eb10), ?(val_elem _ _ _ _ Eb11);
      first [rewrite E00 | rewrite E01 | rewrite E10 | rewrite E11];
      f_equal; modular.
Qed.

(** X23. At [n = 2] the multiplier is right modulo 2^32 on every input:
    whenever it returns, whatever the cells and offsets of the
    operands, all eight cells it read were determinate, the result
    carries the first operand's offsets, and every cell of its view is
    the entry of the mathematical product wrapped to 32 bits. *)
Theorem strassen_2x2_congruent_product fuel a b c :
  strassen_matrix_multiply (S fuel) a b 2 = Done c →
  c.(i) = a.(i) ∧ c.(j) = a.(j) ∧
  (∀ r s, 0 ≤ r < 2 → 0 ≤ s < 2 →
     is_Some (elem a r s) ∧ is_Some (elem b r s)) ∧
  ∀ r s, 0 ≤ r < 2 → 0 ≤ s < 2 →
    elem c r s = Some (wrap (product_entry a b 2 r s)).
Proof. rewrite strassen_at_2. apply strassen_2x2_wrapped. Qed.

Lemma strassen_2x2_congruent_product_witness :
  ∃ c, strassen_matrix_multiply 1 counting_view counting_8x8 2 = Done c ∧
    c.(i) = counting_view.(i) ∧ c.(j) = counting_view.(j) ∧
    (∀ r s, 0 ≤ r < 2 → 0 ≤ s < 2 →
       is_Some (elem counting_view r s) ∧ is_Some (elem counting_8x8 r s)) ∧
    ∀ r s, 0 ≤ r < 2 → 0 ≤ s < 2 →
      elem c r s = Some (wrap (product_entry counting_view counting_8x8 2 r s)).
Proof.
  destruct (strassen_matrix_multiply 1 counting_view counting_8x8 2)
    as [c| | |] eqn:E; [|vm_compute in E; discriminate..].
  exists c. split; [done|].
  exact (strassen_2x2_congruent_product 0 counting_view counting_8x8 c E).
Defined.

(** X24. At [n = 2], the one dimension at which [main] gets to print
    (X14), the two results it prints never differ: on inputs with
    offsets 0 (what both input modes produce), whatever the cells,
    whenever the multiplier returns, [main] reaches its end, and both
    the printing of the multiplier's result and the standard
    multiplication print the four entries of the product wrapped to 32
    bits.  Where the checks of the multiplier let a wrapped value
    through, the standard multiplication wraps to the same value. *)
Theorem main_report_results_agree fuel a b c :
  a.(i) = Some 0 → a.(j) = Some 0 → b.(i) = Some 0 → b.(j) = Some 0 →
  strassen_matrix_multiply (S fuel) a b 2 = Done c →
  let out := [wrap (product_entry a b 2 0 0); wrap (product_entry a b 2 0 1);
              wrap (product_entry a b 2 1 0); wrap (product_entry a b 2 1 1)] in
  main_report (S fuel) a b 2 = Done (out, out).
Proof.
  intros Hai Haj Hbi Hbj Hrun out. unfold main_report.
  rewrite Hrun, bind_Done. rewrite strassen_at_2 in Hrun.
  apply strassen_2x2_wrapped in Hrun as (_ & _ & Hdet & Ec).
  rewrite (print_result_2x2 c _ _ _ _
             (Ec 0 0 ltac:(lia) ltac:(lia)) (Ec 0 1 ltac:(lia) ltac:(lia))
             (Ec 1 0 ltac:(lia) ltac:(lia)) (Ec 1 1 ltac:(lia) ltac:(lia))),
    bind_Done.
  assert (2 ≤ NUM_ELEMS) as Hfits by (unfold NUM_ELEMS; lia).
  destruct (standard_run a b 2 Hfits) with (xs := traversal 0 2 0 2)
    (x := c) (out := @nil Z) as (x & _ & Hx).
  { intros r s Hr Hs. destruct (Hdet r s Hr Hs) as [Ea Eb].
    rewrite !elem_at_origin in Ea, Eb by (unfold NUM_ELEMS; done || lia).
    done. }
  { intros [r s] [Hr Hs]%elem_of_traversal. cbn. lia. }
  unfold standard_multiplication.
  rewrite (for_nested (λ r c s,
    g ← store s.1.(m) r c 0;
    x ← for_ 0 2 (accumulate a b r c) (set_m g s.1);
    v ← load x.(m) r c; Done (x, s.2 ++ [v]))), Hx, bind_Done.
  cbn [snd app].
  change (traversal 0 2 0 2) with [(0, 0); (0, 1); (1, 0); (1, 1)].
  cbn [fmap list_fmap fst snd].
  rewrite !dot_product_entry by (done || lia || by left).
  reflexivity.
Qed.

Lemma main_report_results_agree_witness :
  let a := of_rows [[-1073741824; 1073741824]; [-2; 0]] in
  let b := of_rows [[2; 0]; [-2; 0]] in
  let out := [wrap (product_entry a b 2 0 0); wrap (product_entry a b 2 0 1);
              wrap (product_entry a b 2 1 0); wrap (product_entry a b 2 1 1)] in
  (∃ c, strassen_matrix_multiply 1 a b 2 = Done c) ∧
  main_report 1 a b 2 = Done (out, out) ∧
  out = [0; 0; -4; 0] ∧
  product_entry a b 2 0 0 = -4294967296.
Proof.
  intros a b out.
  destruct (strassen_matrix_multiply 1 a b 2) as [c| | |] eqn:E;
    [|vm_compute in E; discriminate..].
  split; [by exists c|].
  split; [exact (main_report_results_agree 0 a b c eq_refl eq_refl eq_refl
                   eq_refl E)|].
  split; vm_compute; reflexivity.
Defined.

(** ** The recursive case modulo 2^32 *)

Lemma holds_val f a b x r c :
  holds f a b x (r, c) →
  is_Some (elem a r c) ∧ is_Some (elem b r c) ∧ is_Some (elem x r c) ∧
  val x r c = f (val a r c) (val b r c).
Proof.
  intros (p & q & Hp & Hq & Hv). cbn in *.
  rewrite (val_elem _ _ _ _ Hp), (val_elem _ _ _ _ Hq), (val_elem _ _ _ _ Hv).
  by rewrite Hp, Hq, Hv.
Qed.

Lemma add_Done_val x y h z :
  add x y h = Done z →
  (∀ r c, 0 ≤ r < h → 0 ≤ c < h →
     is_Some (elem x r c) ∧ is_Some (elem y r c) ∧ is_Some (elem z r c)) ∧
  ∀ r c, 0 ≤ r < h → 0 ≤ c < h → val z r c = val x r c +i val y r c.
Proof.
  intros H. apply cellwise_Done_inv in H as (_ & _ & H).
  split; intros r c Hr Hc; by destruct (holds_val _ _ _ _ _ _ (H r c Hr Hc))
    as (? & ? & ? & ?).
Qed.

Lemma sub_Done_val x y h z :
  sub x y h = Done z →
  (∀ r c, 0 ≤ r < h → 0 ≤ c < h →
     is_Some (elem x r c) ∧ is_Some (elem y r c) ∧ is_Some (elem z r c)) ∧
  ∀ r c, 0 ≤ r < h → 0 ≤ c < h → val z r c = val x r c -i val y r c.
Proof.
  intros H. apply cellwise_Done_inv in H as (_ & _ & H).
  split; intros r c Hr Hc; by destruct (holds_val _ _ _ _ _ _ (H r c Hr Hc))
    as (? & ? & ? & ?).
Qed.

(** A quadrant that is extracted lies inside the array. *)
Lemma quadrant_Done_bounds a oi oj h Q :
  0 < h → quadrant a oi oj h = Done Q →
  ∃ qi qj, oi = Some qi ∧ oj = Some qj ∧
           0 ≤ qi ∧ qi + h ≤ NUM_ELEMS ∧ 0 ≤ qj ∧ qj + h ≤ NUM_ELEMS.
Proof.
  intros Hh H. unfold quadrant, copy_elems_to_quad in H.
  rewrite (for_nested (copy_elem a)) in H.
  apply (foldM_Done_inv (λ pre x,
    x.(i) = oi ∧ x.(j) = oj ∧
    ∀ rc, rc ∈ pre → ∃ qi qj, oi = Some qi ∧ oj = Some qj ∧
                              in_bounds (qi + rc.1) (qj + rc.2) = true)) in H.
  - destruct H as (_ & _ & H).
    destruct (H (0, 0)) as (qi & qj & -> & -> & H0);
      [apply elem_of_traversal; lia|].
    destruct (H (h - 1, h - 1)) as (? & ? & [= <-] & [= <-] & H1);
      [apply elem_of_traversal; lia|].
    exists qi, qj. cbn in H0, H1. unfold in_bounds, NUM_ELEMS in *.
    rewrite !andb_true_iff, !Z.leb_le, !Z.ltb_lt in H0, H1.
    split_and!; [done..|lia|lia|lia|lia].
  - split_and!; [done..|]. intros rc Hrc. by apply elem_of_nil in Hrc.
  - intros pre rc s1 s2 (Hi & Hj & Hpre) Hstep.
    unfold copy_elem, subscript, use in Hstep. rewrite Hi, Hj in Hstep.
    destruct oi as [qi|]; [|done]. destruct oj as [qj|]; [|done].
    cbn in Hstep.
    destruct (in_bounds (qi + rc.1) (qj + rc.2)) eqn:Hin; [|done].
    cbn in Hstep. injection Hstep as <-. cbn.
    split_and!; [done..|].
    intros rc' [Hrc'| ->%list_elem_of_singleton]%elem_of_app; [by apply Hpre|].
    by exists qi, qj.
Qed.

(** The cells of a quadrant that is extracted are those of the source at
    the quadrant's place. *)
Lemma quadrant_Done_val a ai aj di dj h oi oj Q :
  a.(i) = Some ai → a.(j) = Some aj → 0 < h →
  oi = Some (ai + di) → oj = Some (aj + dj) →
  quadrant a oi oj h = Done Q →
  (0 ≤ ai + di ∧ ai + di + h ≤ NUM_ELEMS ∧
   0 ≤ aj + dj ∧ aj + dj + h ≤ NUM_ELEMS) ∧
  ∀ r c, 0 ≤ r < h → 0 ≤ c < h → elem Q r c = elem a (di + r) (dj + c).
Proof.
  intros Hi Hj Hh -> -> H.
  destruct (quadrant_Done_bounds _ _ _ _ _ Hh H)
    as (? & ? & [= <-] & [= <-] & ? & ? & ? & ?).
  split; [done|].
  destruct (quadrant_spec a (ai + di) (aj + dj) h)
    as (Q' & HQ & HQi & HQj & Hcells); [lia..|].
  rewrite H in HQ. injection HQ as <-.
  intros r c Hr Hc. unfold elem. rewrite HQi, HQj, Hi, Hj. cbn.
  rewrite !Z.add_assoc. by rewrite Hcells.
Qed.

Lemma strassen_2x2_Done_val fuel x y z :
  strassen_matrix_multiply (S fuel) x y 2 = Done z →
  (∀ r c, 0 ≤ r < 2 → 0 ≤ c < 2 → is_Some (elem z r c)) ∧
  ∀ r c, 0 ≤ r < 2 → 0 ≤ c < 2 →
    val z r c = wrap (val x r 0 * val y 0 c + val x r 1 * val y 1 c).
Proof.
  rewrite strassen_at_2. intros (_ & _ & _ & H)%strassen_2x2_wrapped.
  split; intros r c Hr Hc; rewrite ?(val_elem _ _ _ _ (H r c Hr Hc)),
    ?(H r c Hr Hc); [done|].
  unfold product_entry. change (seqZ 0 2) with [0; 1]. cbn [foldl].
  by rewrite Z.add_0_l.
Qed.

(** What a placement that returns leaves: in its range, the copy of
    each determinate cell of the source; outside, what was there. *)
Lemma place_Done_val Q lo hi lo' hi' res res' :
  place Q lo hi lo' hi' res = Done res' →
  (∀ r c, lo ≤ r < hi ∧ lo' ≤ c < hi' →
     is_Some (elem Q (r - lo) (c - lo')) →
     res'.(m) !! (r, c) = Some (val Q (r - lo) (c - lo'))) ∧
  (∀ r c, ¬ (lo ≤ r < hi ∧ lo' ≤ c < hi') →
     res'.(m) !! (r, c) = res.(m) !! (r, c)).
Proof.
  intros H. apply place_Done_inv in H as (_ & _ & Hin & Hout).
  split; [|done]. intros r c [Hr Hc] [v Hv].
  destruct (Hin r c Hr Hc) as (qi & qj & Hqi & Hqj & ->).
  rewrite (val_elem _ _ _ _ Hv). unfold elem in Hv.
  rewrite Hqi, Hqj in Hv. cbn in Hv.
  by destruct (in_bounds _ _).
Qed.

Tactic Notation "quadrant_inv" hyp(H) ident(Q) ident(HQ) ident(E)
    "at" constr(di) constr(dj) "of" hyp(Hi) hyp(Hj) :=
  inv_bind_as H Q HQ;
  apply (quadrant_Done_val _ _ _ di dj _ _ _ _ Hi Hj) in HQ;
  [ destruct HQ as [? E] | first [lia | f_equal; lia].. ].

Ltac sides :=
  unfold representable, INT_MIN, INT_MAX, NUM_ELEMS in *; lia.

Ltac vals_of E V :=
  match type of E with
  | ∀ r c, _ → _ → elem ?Q r c = elem ?a (?di + r) (?dj + c) =>
      assert (∀ r c, 0 ≤ r < 2 → 0 ≤ c < 2 →
                val Q r c = val a (di + r) (dj + c)) as V
        by (intros ? ? ? ?; unfold val; by rewrite E)
  end.

(** A run of the recursive case at [n = 4] or [n = 5] that returns
    works on quadrants of dimension 2: it has read determinate cells
    only, and each of the sixteen cells in rows and columns 0..3 of its
    result is the wrapped entry of the product of the leading 4-by-4
    blocks. *)
Lemma strassen_leading_block fuel a b n res :
  n = 4 ∨ n = 5 →
  strassen_matrix_multiply fuel a b n = Done res →
  (∀ r c, 0 ≤ r < 4 → 0 ≤ c < 4 →
     is_Some (elem a r c) ∧ is_Some (elem b r c)) ∧
  ∀ r c, 0 ≤ r < 4 → 0 ≤ c < 4 →
    res.(m) !! (r, c) = Some (wrap (product_entry a b 4 r c)).
Proof.
  intros Hn H. destruct fuel as [|fuel]; [done|].
  assert (n `quot` 2 = 2) as Hq by (by destruct Hn as [-> | ->]).
  assert ((n =? 2) = false) as Hn2 by (by destruct Hn as [-> | ->]).
  assert (4 ≤ n ≤ 5) as Hrange by lia. clear Hn.
  change (strassen_matrix_multiply (S fuel) a b n)
    with (if n =? 2 then strassen_2x2 a b
          else strassen_recursive (strassen_matrix_multiply fuel) a b n) in H.
  rewrite Hn2 in H. clear Hn2.
  unfold strassen_recursive, assemble in H. cbv zeta in H.
  rewrite Hq in H. clear Hq.
  assert (0 < 2) as Hh by lia.
  (* the quadrants *)
  pose proof H as Hfirst. inv_bind_as Hfirst A00' HA00'.
  destruct (quadrant_Done_bounds _ _ _ _ _ Hh HA00')
    as (ai & aj & Hai & Haj & ? & ? & ? & ?).
  clear Hfirst HA00' A00'. rewrite Hai, Haj in H.
  rewrite !(shifted_exact ai), !(shifted_exact aj) in H by sides.
  quadrant_inv H A00 HA00 EA00 at 0 0 of Hai Haj.
  quadrant_inv H A01 HA01 EA01 at 0 2 of Hai Haj.
  quadrant_inv H A10 HA10 EA10 at 2 0 of Hai Haj.
  quadrant_inv H A11 HA11 EA11 at 2 2 of Hai Haj.
  pose proof H as Hfirst. inv_bind_as Hfirst B00' HB00'.
  destruct (quadrant_Done_bounds _ _ _ _ _ Hh HB00')
    as (bi & bj & Hbi & Hbj & ? & ? & ? & ?).
  clear Hfirst HB00' B00'. rewrite Hbi, Hbj in H.
  rewrite !(shifted_exact bi), !(shifted_exact bj) in H by sides.
  quadrant_inv H B00 HB00 EB00 at 0 0 of Hbi Hbj.
  quadrant_inv H B01 HB01 EB01 at 0 2 of Hbi Hbj.
  quadrant_inv H B10 HB10 EB10 at 2 0 of Hbi Hbj.
  quadrant_inv H B11 HB11 EB11 at 2 2 of Hbi Hbj.
  (* M1..M7 *)
  inv_bind_as H M1 HM1. inv_bind_as HM1 X1 HX1. inv_bind_as HM1 Y1 HY1.
  destruct fuel as [|fuel]; [done|].
  inv_bind_as H M2 HM2. inv_bind_as HM2 X2 HX2.
  inv_bind_as H M3 HM3. inv_bind_as HM3 Y3 HY3.
  inv_bind_as H M4 HM4. inv_bind_as HM4 Y4 HY4.
  inv_bind_as H M5 HM5. inv_bind_as HM5 X5 HX5.
  inv_bind_as H M6 HM6. inv_bind_as HM6 X6 HX6. inv_bind_as HM6 Y6 HY6.
  inv_bind_as H M7 HM7. inv_bind_as HM7 X7 HX7. inv_bind_as HM7 Y7 HY7.
  (* Q1..Q4 *)
  inv_bind_as H Q1 HQ1. inv_bind_as HQ1 S1 HS1. inv_bind_as HQ1 S2 HS2.
  inv_bind_as H Q2 HQ2. inv_bind_as H Q3 HQ3.
  inv_bind_as H Q4 HQ4. inv_bind_as HQ4 S3 HS3. inv_bind_as HQ4 S4 HS4.
  (* the assembly *)
  inv_bind_as H r1 P1. inv_bind_as H r2 P2. inv_bind_as H r3 P3.
  inv_bind_as H r4 P4. injection H as <-.
  apply add_Done_val in HX1 as [DX1 VX1]. apply add_Done_val in HY1 as [DY1 VY1].
  apply strassen_2x2_Done_val in HM1 as [DM1 VM1].
  apply add_Done_val in HX2 as [DX2 VX2].
  apply strassen_2x2_Done_val in HM2 as [DM2 VM2].
  apply sub_Done_val in HY3 as [DY3 VY3].
  apply strassen_2x2_Done_val in HM3 as [DM3 VM3].
  apply sub_Done_val in HY4 as [DY4 VY4].
  apply strassen_2x2_Done_val in HM4 as [DM4 VM4].
  apply add_Done_val in HX5 as [DX5 VX5].
  apply strassen_2x2_Done_val in HM5 as [DM5 VM5].
  apply sub_Done_val in HX6 as [DX6 VX6]. apply add_Done_val in HY6 as [DY6 VY6].
  apply strassen_2x2_Done_val in HM6 as [DM6 VM6].
  apply sub_Done_val in HX7 as [DX7 VX7]. apply add_Done_val in HY7 as [DY7 VY7].
  apply strassen_2x2_Done_val in HM7 as [DM7 VM7].
  apply add_Done_val in HS1 as [DS1 VS1]. apply sub_Done_val in HS2 as [DS2 VS2].
  apply add_Done_val in HQ1 as [DQ1 VQ1]. apply add_Done_val in HQ2 as [DQ2 VQ2].
  apply add_Done_val in HQ3 as [DQ3 VQ3]. apply sub_Done_val in HS3 as [DS3 VS3].
  apply add_Done_val in HS4 as [DS4 VS4]. apply add_Done_val in HQ4 as [DQ4 VQ4].
  apply place_Done_val in P1 as [P1i P1o].
  apply place_Done_val in P2 as [P2i P2o].
  apply place_Done_val in P3 as [P3i P3o].
  apply place_Done_val in P4 as [P4i P4o].
  assert (∀ r c, 0 ≤ r < 2 → 0 ≤ c < 2 →
            is_Some (elem Q1 r c) ∧ is_Some (elem Q2 r c) ∧
            is_Some (elem Q3 r c) ∧ is_Some (elem Q4 r c)) as DQ.
  { intros r c Hr Hc. split_and!;
      [by apply DQ1|by apply DQ2|by apply DQ3|by apply DQ4]. }
  split.
  - (* every cell of a and b was an operand of an addition or subtraction *)
    intros r c Hr Hc. split.
    + assert ((0 ≤ r < 2 ∨ 2 ≤ r < 4) ∧ (0 ≤ c < 2 ∨ 2 ≤ c < 4))
        as [[Hr'|Hr'] [Hc'|Hc']] by lia.
      * replace (elem a r c) with (elem A00 r c)
          by (rewrite EA00 by lia; f_equal; lia).
        apply (DX1 r c); lia.
      * replace (elem a r c) with (elem A01 r (c - 2))
          by (rewrite EA01 by lia; f_equal; lia).
        apply (DX5 r (c - 2)); lia.
      * replace (elem a r c) with (elem A10 (r - 2) c)
          by (rewrite EA10 by lia; f_equal; lia).
        apply (DX2 (r - 2) c); lia.
      * replace (elem a r c) with (elem A11 (r - 2) (c - 2))
          by (rewrite EA11 by lia; f_equal; lia).
        apply (DX1 (r - 2) (c - 2)); lia.
    + assert ((0 ≤ r < 2 ∨ 2 ≤ r < 4) ∧ (0 ≤ c < 2 ∨ 2 ≤ c < 4))
        as [[Hr'|Hr'] [Hc'|Hc']] by lia.
      * replace (elem b r c) with (elem B00 r c)
          by (rewrite EB00 by lia; f_equal; lia).
        apply (DY1 r c); lia.
      * replace (elem b r c) with (elem B01 r (c - 2))
          by (rewrite EB01 by lia; f_equal; lia).
        apply (DY3 r (c - 2)); lia.
      * replace (elem b r c) with (elem B10 (r - 2) c)
          by (rewrite EB10 by lia; f_equal; lia).
        apply (DY4 (r - 2) c); lia.
      * replace (elem b r c) with (elem B11 (r - 2) (c - 2))
          by (rewrite EB11 by lia; f_equal; lia).
        apply (DY1 (r - 2) (c - 2)); lia.
  - vals_of EA00 VA00. vals_of EA01 VA01. vals_of EA10 VA10. vals_of EA11 VA11.
    vals_of EB00 VB00. vals_of EB01 VB01. vals_of EB10 VB10. vals_of EB11 VB11.
    clear DX1 DY1 DM1 DX2 DM2 DY3 DM3 DY4 DM4 DX5 DM5 DX6 DY6 DM6 DX7 DY7 DM7.
    clear DS1 DS2 DQ1 DQ2 DQ3 DS3 DS4 DQ4.
    clear EA00 EA01 EA10 EA11 EB00 EB01 EB10 EB11.
    intros r c Hr Hc.
    assert (r = 0 ∨ r = 1 ∨ r = 2 ∨ r = 3) as Hr' by lia.
    assert (c = 0 ∨ c = 1 ∨ c = 2 ∨ c = 3) as Hc' by lia.
    unfold product_entry. change (seqZ 0 4) with [0; 1; 2; 3]. cbn [foldl].
    destruct Hr' as [-> | [-> | [-> | ->]]], Hc' as [-> | [-> | [-> | ->]]];
      repeat first
        [ rewrite P4i by first [lia | apply DQ; lia] | rewrite P4o by lia
        | rewrite P3i by first [lia | apply DQ; lia] | rewrite P3o by lia
        | rewrite P2i by first [lia | apply DQ; lia] | rewrite P2o by lia
        | rewrite P1i by first [lia | apply DQ; lia] ];
      f_equal; eval_literals; unfold_vals; eval_literals; modular.
Qed.

Lemma strassen_4x4_wrapped fuel a b res :
  strassen_matrix_multiply fuel a b 4 = Done res →
  (∀ r c, 0 ≤ r < 4 → 0 ≤ c < 4 →
     is_Some (elem a r c) ∧ is_Some (elem b r c)) ∧
  ∀ r c, 0 ≤ r < 4 → 0 ≤ c < 4 →
    res.(m) !! (r, c) = Some (wrap (product_entry a b 4 r c)).
Proof. apply strassen_leading_block. by left. Qed.

(** X25. At [n = 4] the multiplier is right modulo 2^32 on every input:
    whenever it returns, whatever the cells and offsets of the
    operands, all cells of both 4-by-4 views were determinate, and rows
    and columns 0..3 of the result hold the entries of the mathematical
    product wrapped to 32 bits. *)
Theorem strassen_4x4_congruent_product fuel a b res :
  strassen_matrix_multiply fuel a b 4 = Done res →
  (∀ r c, 0 ≤ r < 4 → 0 ≤ c < 4 →
     is_Some (elem a r c) ∧ is_Some (elem b r c)) ∧
  ∀ r c, 0 ≤ r < 4 → 0 ≤ c < 4 →
    res.(m) !! (r, c) = Some (wrap (product_entry a b 4 r c)).
Proof. apply strassen_4x4_wrapped. Qed.

Lemma strassen_4x4_congruent_product_witness :
  ∃ res, strassen_matrix_multiply 2 counting_view counting_8x8 4 = Done res ∧
    (∀ r c, 0 ≤ r < 4 → 0 ≤ c < 4 →
       is_Some (elem counting_view r c) ∧ is_Some (elem counting_8x8 r c)) ∧
    ∀ r c, 0 ≤ r < 4 → 0 ≤ c < 4 →
      res.(m) !! (r, c)
      = Some (wrap (product_entry counting_view counting_8x8 4 r c)).
Proof.
  destruct (strassen_matrix_multiply 2 counting_view counting_8x8 4)
    as [res| | |] eqn:E; [|vm_compute in E; discriminate..].
  exists res. split; [done|].
  exact (strassen_4x4_congruent_product 2 counting_view counting_8x8 res E).
Defined.

(** X26. At [n = 2] and [n = 4] the multiplier never disagrees with the
    standard multiplication: on inputs with offsets 0, whatever the
    cells, whenever the multiplier returns, the standard multiplication
    of the same inputs returns too, and the two results hold the same
    values in rows and columns below [n].  An overflow that gets past
    the checks wraps to the value the unchecked loop computes.  (At
    [n = 5], the third dimension at which the multiplier returns, its
    result is not the product: see X29.) *)
Theorem strassen_agrees_with_standard_multiplication fuel a b m3 n res :
  n = 2 ∨ n = 4 →
  a.(i) = Some 0 → a.(j) = Some 0 → b.(i) = Some 0 → b.(j) = Some 0 →
  strassen_matrix_multiply fuel a b n = Done res →
  ∃ res', multiply_naive a b m3 n = Done res' ∧
          ∀ r c, 0 ≤ r < n → 0 ≤ c < n →
            res.(m) !! (r, c) = res'.(m) !! (r, c).
Proof.
  intros Hn Hai Haj Hbi Hbj H.
  assert ((∀ r c, 0 ≤ r < n → 0 ≤ c < n →
             is_Some (elem a r c) ∧ is_Some (elem b r c)) ∧
          ∀ r c, 0 ≤ r < n → 0 ≤ c < n →
            res.(m) !! (r, c) = Some (wrap (product_entry a b n r c)))
    as [Hdet Hres].
  { destruct Hn as [-> | ->]; [|by apply strassen_4x4_wrapped in H].
    destruct fuel as [|fuel]; [done|]. rewrite strassen_at_2 in H.
    apply strassen_2x2_wrapped in H as (Hi & Hj & Hdet & Hres).
    split; [done|]. intros r c Hr Hc.
    rewrite <- Hres by done. symmetry.
    apply elem_at_origin; unfold NUM_ELEMS; (congruence || lia). }
  assert (n ≤ NUM_ELEMS) as Hfits by (unfold NUM_ELEMS; lia).
  destruct (multiply_naive_wraps a b n Hfits) with (m3 := m3)
    as (res' & Hrun & Hres').
  { intros r c Hr Hc. destruct (Hdet r c Hr Hc) as [Ea Eb].
    rewrite !elem_at_origin in Ea, Eb by (unfold NUM_ELEMS; done || lia).
    done. }
  exists res'. split; [done|]. intros r c Hr Hc.
  by rewrite Hres, Hres', dot_product_entry.
Qed.

Lemma strassen_agrees_with_standard_multiplication_witness :
  (4 = 2 ∨ 4 = 4) ∧
  ∃ res res',
    strassen_matrix_multiply 2 counting_8x8 counting_8x8 4 = Done res ∧
    multiply_naive counting_8x8 counting_8x8 uninitialised 4 = Done res' ∧
    ∀ r c, 0 ≤ r < 4 → 0 ≤ c < 4 → res.(m) !! (r, c) = res'.(m) !! (r, c).
Proof.
  split; [by right|].
  destruct (strassen_matrix_multiply 2 counting_8x8 counting_8x8 4)
    as [res| | |] eqn:E; [|vm_compute in E; discriminate..].
  exists res.
  destruct (strassen_agrees_with_standard_multiplication 2 counting_8x8
              counting_8x8 uninitialised 4 res) as (res' & Hrun & Hres);
    [by right|reflexivity..|exact E|].
  exists res'. split; [reflexivity|]. split; [exact Hrun|exact Hres].
Defined.

(** ** The checks in terms of representability *)

(** X27. The multiplication check of [check_overflow] is exact on every
    pair of [int] operands other than [(-1, INT_MIN)]: it exits with
    the diagnostic exactly when the mathematical product is not
    representable, and otherwise returns, the product the program
    computes being the mathematical one.  (On [(-1, INT_MIN)] the first
    division of the check overflows.) *)
Theorem multiplication_check_exact a b :
  representable a → representable b → ¬ (a = -1 ∧ b = INT_MIN) →
  (check_overflow a b false true = Exit (MultiplicationOverflow a b)
     ↔ ¬ representable (a * b)) ∧
  (check_overflow a b false true = Done () ↔ representable (a * b)) ∧
  (representable (a * b) → a *i b = a * b).
Proof.
  intros Ha Hb Hmin.
  destruct (check_mult_cases a b Ha Hb) as [[E P]|[(E & P & _)|(_ & ? & ?)]];
    [| |by destruct Hmin]; rewrite E.
  - split_and!; [split; [discriminate|done]|done|apply wrap_small].
  - split_and!; [done|split; [discriminate|done]|done].
Qed.

Lemma multiplication_check_exact_witness :
  (check_overflow 46341 46341 false true
     = Exit (MultiplicationOverflow 46341 46341)
     ↔ ¬ representable (46341 * 46341)) ∧
  (check_overflow 46341 46341 false true = Done ()
     ↔ representable (46341 * 46341)) ∧
  (representable (46341 * 46341) → 46341 *i 46341 = 46341 * 46341).
Proof.
  apply (multiplication_check_exact 46341 46341);
    unfold representable, INT_MIN, INT_MAX; lia.
Defined.

Lemma elementwise_exact op chk f g diag a b n :
  (∀ r c, 0 ≤ r < n → 0 ≤ c < n →
     (chk (val a r c) (val b r c) = Done () ∧
        representable (g (val a r c) (val b r c)) ∧
        f (val a r c) (val b r c) = g (val a r c) (val b r c)) ∨
     (chk (val a r c) (val b r c) = Exit (diag (val a r c) (val b r c)) ∧
        ¬ representable (g (val a r c) (val b r c)))) →
  elementwise op chk f a b n → exact_or_first_overflow op g diag a b n.
Proof.
  intros Hchk [(x & Hrun & Hi & Hj & Hcells)
              |(pre & [r c] & post & e & Hsplit & Hbefore & Hpre & Hrc & Hrun
                & Hrobust)].
  - left. exists x. split_and!; [done..|]. intros r c Hr Hc.
    destruct (Hcells r c Hr Hc) as (p & q & Ep & Eq & Hd & Ex).
    pose proof (Hchk r c Hr Hc) as Hk.
    rewrite (val_elem _ _ _ _ Ep), (val_elem _ _ _ _ Eq) in Hk |- *.
    destruct Hk as [(_ & Hrep & Hfg)|[He _]].
    + split; [done|]. by rewrite Ex, Hfg.
    + rewrite Hd in He. discriminate He.
  - right. exists pre, (r, c), post. cbn [fst snd].
    assert (∀ k, k ∈ pre ++ (r, c) :: post → 0 ≤ k.1 < n ∧ 0 ≤ k.2 < n)
      as Hrange.
    { intros [r' c'] Hk. rewrite <- Hsplit in Hk.
      apply elem_of_traversal in Hk. cbn. lia. }
    destruct (Hrange (r, c)) as [Hr Hc];
      [rewrite elem_of_app, elem_of_cons; auto|]. cbn in Hr, Hc.
    destruct Hrc as (p & q & Ep & Eq & He). cbn in Ep, Eq.
    assert (e = diag (val a r c) (val b r c) ∧
            ¬ representable (g (val a r c) (val b r c))) as [-> Hover].
    { pose proof (Hchk r c Hr Hc) as Hk.
      rewrite (val_elem _ _ _ _ Ep), (val_elem _ _ _ _ Eq) in Hk |- *.
      destruct Hk as [(Hd & _)|[He' Hover]].
      - rewrite Hd in He. discriminate He.
      - rewrite He in He'. by injection He' as ->. }
    split_and!; [done| |done..].
    intros [r' c'] Hk. split; [by apply Hbefore|]. cbn [fst snd].
    destruct (Hrange (r', c')) as [Hr' Hc'];
      [rewrite elem_of_app; auto|]. cbn in Hr', Hc'.
    rewrite Forall_forall in Hpre.
    destruct (Hpre _ Hk) as (p' & q' & Ep' & Eq' & Hd). cbn in Ep', Eq'.
    pose proof (Hchk r' c' Hr' Hc') as Hk'.
    rewrite (val_elem _ _ _ _ Ep'), (val_elem _ _ _ _ Eq') in Hk' |- *.
    destruct Hk' as [(_ & Hrep & _)|[He' _]]; [done|].
    rewrite Hd in He'. discriminate He'.
Qed.

(** X28. [add] and [sub] fail at the first overflow, in terms of the
    values: on views of [int] cells where the second operand holds no
    [INT_MIN], either every sum (difference) of corresponding cells is
    representable and the result holds exactly these, at the first
    operand's offsets, or the run exits with the addition diagnostic at
    the first cell, in row-major order, whose sum (difference) is not
    representable, whatever the operands hold after that cell.  The
    diagnostic of [sub] shows the negated subtrahend. *)
Theorem add_sub_fail_at_first_overflow a b n :
  int_view a n → int_view b n →
  (∀ r c, 0 ≤ r < n → 0 ≤ c < n → val b r c ≠ INT_MIN) →
  exact_or_first_overflow add Z.add AdditionOverflow a b n ∧
  exact_or_first_overflow sub Z.sub (λ p q, AdditionOverflow p (- q)) a b n.
Proof.
  intros Ha Hb Hmin.
  assert (∀ r c, 0 ≤ r < n → 0 ≤ c < n →
            representable (val a r c) ∧ representable (val b r c) ∧
            representable (- val b r c)) as Hrep.
  { intros r c Hr Hc.
    destruct (Ha r c Hr Hc) as (p & Ep & Hp), (Hb r c Hr Hc) as (q & Eq & Hq).
    pose proof (Hmin r c Hr Hc) as Hne.
    rewrite (val_elem _ _ _ _ Ep), (val_elem _ _ _ _ Eq) in *.
    split_and!; [done..|]. unfold representable, INT_MIN, INT_MAX in *. lia. }
  destruct (add_sub_elementwise a b n) as [Hadd Hsub].
  { intros r c Hr Hc.
    destruct (Ha r c Hr Hc) as (p & -> & _), (Hb r c Hr Hc) as (q & -> & _).
    by split. }
  split.
  - eapply elementwise_exact; [|exact Hadd]. intros r c Hr Hc. cbv beta.
    destruct (Hrep r c Hr Hc) as (Hp & Hq & _).
    destruct (check_add_cases _ _ Hp Hq) as [[E [R|[_ R]]]|[E R]].
    + left. split_and!; [done..|]. by apply wrap_small.
    + by destruct (Hmin r c Hr Hc).
    + by right.
  - eapply elementwise_exact; [|exact Hsub]. intros r c Hr Hc. cbv beta.
    destruct (Hrep r c Hr Hc) as (Hp & Hq & Hnq).
    destruct (check_sub_cases _ _ Hp Hq (Hmin r c Hr Hc)) as [[E R]|[E R]].
    + left. split_and!; [done..|]. by apply wrap_small.
    + right. split; [|done]. rewrite E. unfold int_neg.
      by rewrite (wrap_small _ Hnq).
Qed.

Lemma add_sub_fail_at_first_overflow_witness :
  let a := of_rows [[1; INT_MAX]; [INT_MIN; 4]] in
  let b := of_rows [[5; 6]; [7; 8]] in
  int_view a 2 ∧ int_view b 2 ∧
  (∀ r c, 0 ≤ r < 2 → 0 ≤ c < 2 → val b r c ≠ INT_MIN) ∧
  add a b 2 = Exit (AdditionOverflow INT_MAX 6) ∧
  exact_or_first_overflow add Z.add AdditionOverflow a b 2 ∧
  exact_or_first_overflow sub Z.sub (λ p q, AdditionOverflow p (- q)) a b 2.
Proof.
  intros a b.
  assert (∀ r c, 0 ≤ r < 2 → 0 ≤ c < 2 →
            (r = 0 ∨ r = 1) ∧ (c = 0 ∨ c = 1)) as Hcases by lia.
  assert (int_view a 2) as Ha.
  { intros r c Hr Hc.
    destruct (Hcases r c Hr Hc) as [[-> | ->] [-> | ->]]; eexists;
      (split; [vm_compute; reflexivity|by vm_compute]). }
  assert (int_view b 2) as Hb.
  { intros r c Hr Hc.
    destruct (Hcases r c Hr Hc) as [[-> | ->] [-> | ->]]; eexists;
      (split; [vm_compute; reflexivity|by vm_compute]). }
  assert (∀ r c, 0 ≤ r < 2 → 0 ≤ c < 2 → val b r c ≠ INT_MIN) as Hmin.
  { intros r c Hr Hc.
    destruct (Hcases r c Hr Hc) as [[-> | ->] [-> | ->]]; by vm_compute. }
  split; [exact Ha|]. split; [exact Hb|]. split; [exact Hmin|].
  split; [vm_compute; reflexivity|].
  exact (add_sub_fail_at_first_overflow a b 2 Ha Hb Hmin).
Defined.

(** ** The multiplier at n = 5 *)

(** X29. At [n = 5] the multiplier does not compute the product: the
    quadrants have dimension [5 / 2 = 2], so whenever it returns,
    whatever the operands, rows and columns 0..3 of the result hold
    the product of the leading 4-by-4 blocks of the operands, wrapped
    to 32 bits (the terms with the fifth column of the first operand
    and the fifth row of the second are missing), every other cell of
    the result, row 4 and column 4 among them, is indeterminate, and
    the result's offsets are unset. *)
Theorem strassen_5x5_leading_block fuel a b res :
  strassen_matrix_multiply fuel a b 5 = Done res →
  res.(i) = None ∧ res.(j) = None ∧
  (∀ r c, 0 ≤ r < 4 → 0 ≤ c < 4 →
     is_Some (elem a r c) ∧ is_Some (elem b r c)) ∧
  (∀ r c, 0 ≤ r < 4 → 0 ≤ c < 4 →
     res.(m) !! (r, c) = Some (wrap (product_entry a b 4 r c))) ∧
  (∀ r c, ¬ (0 ≤ r < 4 ∧ 0 ≤ c < 4) → res.(m) !! (r, c) = None).
Proof.
  intros H.
  assert (5 ≠ 2) as Hn by lia.
  destruct (strassen_recursive_Done_inv _ _ _ _ _ Hn H) as (Hi & Hj & _).
  pose proof (strassen_recursive_dom _ _ _ _ _ Hn H) as Hdom.
  apply strassen_leading_block in H as [Hdet Hres]; [|by right].
  split_and!; [done..|]. intros r c Hrc.
  apply eq_None_not_Some. rewrite Hdom.
  change (2 * (5 `quot` 2)) with 4. lia.
Qed.

Lemma strassen_5x5_leading_block_witness :
  ∃ res, strassen_matrix_multiply 2 counting_view counting_8x8 5 = Done res ∧
    (res.(i) = None ∧ res.(j) = None ∧
     (∀ r c, 0 ≤ r < 4 → 0 ≤ c < 4 →
        is_Some (elem counting_view r c) ∧ is_Some (elem counting_8x8 r c)) ∧
     (∀ r c, 0 ≤ r < 4 → 0 ≤ c < 4 →
        res.(m) !! (r, c)
        = Some (wrap (product_entry counting_view counting_8x8 4 r c))) ∧
     (∀ r c, ¬ (0 ≤ r < 4 ∧ 0 ≤ c < 4) → res.(m) !! (r, c) = None)) ∧
    product_entry counting_view counting_8x8 4 0 0
    ≠ product_entry counting_view counting_8x8 5 0 0.
Proof.
  destruct (strassen_matrix_multiply 2 counting_view counting_8x8 5)
    as [res| | |] eqn:E; [|vm_compute in E; discriminate..].
  exists res. split; [reflexivity|].
  split; [exact (strassen_5x5_leading_block 2 counting_view counting_8x8 res E)|].
  vm_compute. discriminate.
Defined.
